(** * Reactive LEDs: the glow-point engine, the crossfade, the sensor
      conditioner and the parameter mapper, embedded from the C++ sources.

    The repository holds several revisions of the same files.  Each revision
    that a statement below talks about gets a module of its own:

    - [Simplified]: lib/LEDPatterns/src/LEDPatterns.cpp, the "simplified
      version" with an [active] flag per glow point and in-place blending;
    - [Buffered]: the revision of LEDPatterns.cpp with [_targetLeds] and
      [_previousLeds] and a [speed] stored in each glow point;
    - [Main]: main.cpp in the revision with debouncing, smoothing and rate
      limiting: the sensor part of [loop], and [updateLEDPattern].

    Integers of the program are [Z] with the wrap-around written out.  The
    smoothing of [updateLEDPattern] is computed in IEEE 754 single and
    double precision, as the C++ expression is ([IEEE]); the other
    floating-point computations ([log10], the blend amount and the falloff
    of the simplified revision) are carried out in exact arithmetic, as
    said where they occur.  FastLED and the Arduino core are external to the
    repository; the routines the code calls ([map], [constrain], [qadd8],
    [qsub8], [blend], [random8], [random16]) are written down in [Arduino]
    and [FastLED] after their library sources.

    The definitions come first; the properties follow, one module per
    subject. *)

From Stdlib Require Import ZArith Lia List Bool QArith Qround Lqa.
From stdpp Require Import base list.
Import ListNotations.

Local Open Scope Z_scope.

(** ** Machine integers *)

Definition to_uint8 (x : Z) : Z := x mod 256.
Definition to_uint32 (x : Z) : Z := x mod 4294967296.

Definition is_uint8 (x : Z) : Prop := 0 <= x <= 255.

(** ** The Arduino core *)

Module Arduino.

(** [long map(long x, long in_min, long in_max, long out_min, long out_max)]
    of the Arduino reference:
    [(x - in_min) * (out_max - out_min) / (in_max - in_min) + out_min],
    with C's division, which truncates toward zero. *)
Definition map (x in_min in_max out_min out_max : Z) : Z :=
  Z.quot ((x - in_min) * (out_max - out_min)) (in_max - in_min) + out_min.

(** [constrain(amt, low, high)] *)
Definition constrain (amt low high : Z) : Z :=
  if amt <? low then low else if amt >? high then high else amt.

End Arduino.

(** ** FastLED *)

Module FastLED.

(** Saturating 8-bit addition and subtraction. *)
Definition qadd8 (i j : Z) : Z := if i + j >? 255 then 255 else i + j.
Definition qsub8 (i j : Z) : Z := if i - j <? 0 then 0 else i - j.

Record CRGB := mkCRGB { red : Z; green : Z; blue : Z }.

Definition Black : CRGB := mkCRGB 0 0 0.

(** [blend8(a, b, amountOfB)] of lib8tion: a 16-bit partial sum
    [a * (255 - amountOfB) + a + b * amountOfB + b], shifted right by 8. *)
Definition blend8 (a b amountOfB : Z) : Z :=
  let amountOfA := 255 - amountOfB in
  let partial := a * amountOfA + a + b * amountOfB + b in
  Z.shiftr (partial mod 65536) 8.

(** [blend(p1, p2, amountOfP2)]: [nblend] on a copy of [p1]; the amounts 0
    and 255 return [p1] and [p2] untouched. *)
Definition blend (p1 p2 : CRGB) (amountOfP2 : Z) : CRGB :=
  if amountOfP2 =? 0 then p1
  else if amountOfP2 =? 255 then p2
  else mkCRGB (blend8 (red p1) (red p2) amountOfP2)
              (blend8 (green p1) (green p2) amountOfP2)
              (blend8 (blue p1) (blue p2) amountOfP2).

(** The pseudo-random generator is a source of draws: a tape of raw 16-bit
    values, read front to back.  A computation that draws is a function of
    the tape that also returns the rest of it.  Any finite run reads
    finitely many draws, so quantifying over tapes covers every outcome of
    the generator; past the end of the tape a draw is 0. *)
Definition Rand (A : Type) : Type := list Z -> A * list Z.

Definition ret {A} (a : A) : Rand A := fun t => (a, t).
Definition bind {A B} (m : Rand A) (f : A -> Rand B) : Rand B :=
  fun t => let (a, t') := m t in f a t'.

Definition draw : Rand Z :=
  fun t => match t with
           | [] => (0, [])
           | x :: t' => (x mod 65536, t')
           end.

Definition random8 : Rand Z := bind draw (fun r => ret (r mod 256)).
Definition random16 : Rand Z := draw.

(** [random8(lim)] is [(random8() * lim) >> 8], [random16(lim)] is
    [(random16() * lim) >> 16]. *)
Definition random8_lim (lim : Z) : Rand Z :=
  bind random8 (fun r => ret (Z.shiftr (r * lim) 8)).
Definition random16_lim (lim : Z) : Rand Z :=
  bind random16 (fun r => ret (Z.shiftr (r * lim) 16)).

End FastLED.

Notation "'rand' x <- m ;; k" := (FastLED.bind m (fun x => k))
  (at level 10, x name, m at level 99, k at level 200).

(** [for (uint16_t i = 0; i < numLeds; i++) body], from index [i] for [n]
    more indices, on the array the body writes. *)
Fixpoint for_each_led {A} (n i : nat) (body : nat -> list A -> list A)
    (a : list A) : list A :=
  match n with
  | O => a
  | S n' => for_each_led n' (S i) body (body i a)
  end.

(** A loop body that writes entry [i] only, with a value computed from the
    index and the entry's current value. *)
Definition pointwise {A} (v : nat -> option A -> option A) (i : nat)
    (a : list A) : list A :=
  match v i (a !! i) with
  | Some c => <[i := c]> a
  | None => a
  end.

(** A pixel whose channels are bytes. *)
Definition uint8_pixel (c : FastLED.CRGB) : Prop :=
  is_uint8 (FastLED.red c) /\ is_uint8 (FastLED.green c) /\
  is_uint8 (FastLED.blue c).

(** [x] lies between [a] and [b]. *)
Definition between (a b x : Z) : Prop := Z.min a b <= x <= Z.max a b.

Definition pixel_between (p c x : FastLED.CRGB) : Prop :=
  between (FastLED.red p) (FastLED.red c) (FastLED.red x) /\
  between (FastLED.green p) (FastLED.green c) (FastLED.green x) /\
  between (FastLED.blue p) (FastLED.blue c) (FastLED.blue x).

(** ** lib/LEDPatterns/src/LEDPatterns.cpp, the simplified revision *)

Module Simplified.
Import FastLED.

Definition MAX_GLOW_POINTS : nat := 5.

(** [struct GlowPoint]; [state] is 1 = growing, 0 = stable, -1 = fading. *)
Record GlowPoint := mkGlowPoint {
  pos : Z;
  hue : Z;
  spread : Z;
  maxIntensity : Z;
  currentIntensity : Z;
  state : Z;
  active : bool
}.

(** The slot written by [addGlowPoint]. *)
Definition newGlowPoint (p h s intensity : Z) : GlowPoint :=
  mkGlowPoint p h s intensity 0 1 true.

(** [addGlowPoint]: the loop [for (i = 0; i < MAX_GLOW_POINTS; i++)], run
    from slot [i] for [n] more slots.  The result is the returned index
    (-1 when no slot is free) and the array.  The array has
    [MAX_GLOW_POINTS] slots; an index past a shorter list is skipped. *)
Fixpoint addGlowPoint_loop (n i : nat) (glowPoints : list GlowPoint)
    (p h s intensity : Z) : Z * list GlowPoint :=
  match n with
  | O => (-1, glowPoints)
  | S n' =>
      match glowPoints !! i with
      | Some g =>
          if negb (active g)
          then (Z.of_nat i, <[i := newGlowPoint p h s intensity]> glowPoints)
          else addGlowPoint_loop n' (S i) glowPoints p h s intensity
      | None => addGlowPoint_loop n' (S i) glowPoints p h s intensity
      end
  end.

Definition addGlowPoint (glowPoints : list GlowPoint) (p h s intensity : Z)
    : Z * list GlowPoint :=
  addGlowPoint_loop MAX_GLOW_POINTS 0 glowPoints p h s intensity.

(** [uint8_t change = max(1, speed / 20)] *)
Definition change (speed : Z) : Z := to_uint8 (Z.max 1 (Z.quot speed 20)).

(** The body of [updateGlowPoint] on the slot it addresses: the returned
    flag and the slot afterwards.  The stable state draws [random8()]. *)
Definition updatePoint (g : GlowPoint) (speed : Z) : Rand (bool * GlowPoint) :=
  if negb (active g) then ret (false, g)
  else
    (* Validate state - fix if corrupted *)
    let g :=
      if negb (state g =? 1) && negb (state g =? 0) && negb (state g =? -1)
      then mkGlowPoint (pos g) (hue g) (spread g) (maxIntensity g)
                       (currentIntensity g) (-1) (active g)
      else g in
    let c := change speed in
    if state g =? 1 then
      let newIntensity := currentIntensity g in
      let newIntensity :=
        if 255 - newIntensity >? c then to_uint8 (newIntensity + c) else 255 in
      let newIntensity :=
        if newIntensity >? maxIntensity g then maxIntensity g else newIntensity in
      let st := if newIntensity >=? maxIntensity g then 0 else state g in
      ret (true, mkGlowPoint (pos g) (hue g) (spread g) (maxIntensity g)
                             newIntensity st (active g))
    else if state g =? -1 then
      if currentIntensity g <=? c
      then ret (false, mkGlowPoint (pos g) (hue g) (spread g) (maxIntensity g)
                                   (currentIntensity g) (state g) false)
      else ret (true, mkGlowPoint (pos g) (hue g) (spread g) (maxIntensity g)
                                  (to_uint8 (currentIntensity g - c))
                                  (state g) (active g))
    else if state g =? 0 then
      (rand r <- random8 ;;
       if r <? 5
       then ret (true, mkGlowPoint (pos g) (hue g) (spread g) (maxIntensity g)
                                   (currentIntensity g) (-1) (active g))
       else ret (true, g))
    else ret (true, g).

(** [updateGlowPoint(index, speed)] on the array.  An index past the array
    is undefined in C++ (the only caller passes [i < MAX_GLOW_POINTS]); here
    it changes nothing. *)
Definition updateGlowPoint (glowPoints : list GlowPoint) (index : nat)
    (speed : Z) : Rand (bool * list GlowPoint) :=
  match glowPoints !! index with
  | Some g =>
      rand r <- updatePoint g speed ;;
      ret (fst r, <[index := snd r]> glowPoints)
  | None => ret (false, glowPoints)
  end.

(** First loop of [gentleGlow]: update every active slot, slots
    [i .. i + n - 1].  (Rendering writes the LED array only.) *)
Fixpoint updateAll (n i : nat) (glowPoints : list GlowPoint) (speed : Z)
    : Rand (list GlowPoint) :=
  match n with
  | O => ret glowPoints
  | S n' =>
      match glowPoints !! i with
      | Some g =>
          if active g then
            (rand r <- updateGlowPoint glowPoints i speed ;;
             updateAll n' (S i) (snd r) speed)
          else updateAll n' (S i) glowPoints speed
      | None => updateAll n' (S i) glowPoints speed
      end
  end.

(** Second loop of [gentleGlow]: count the active slots. *)
Definition activeCount (glowPoints : list GlowPoint) : nat :=
  length (filter (fun g => active g = true) glowPoints).

(** Last part of [gentleGlow]: the spawn attempt. *)
Definition spawn (glowPoints : list GlowPoint)
    (h brightness speed s numLeds : Z) : Rand (list GlowPoint) :=
  if (activeCount glowPoints <? MAX_GLOW_POINTS)%nat then
    let threshold := to_uint8 (Arduino.map speed 0 255 250 180) in
    (rand r <- random8 ;;
     if r >? threshold then
       (rand p <- random16_lim numLeds ;;
        rand hueVar <- random8_lim 10 ;;
        rand spreadVar <- random8_lim 2 ;;
        rand intensityVar <- random8_lim 20 ;;
        ret (snd (addGlowPoint glowPoints p
                    (to_uint8 (h + hueVar - 5))
                    (to_uint8 (s + spreadVar - 1))
                    (to_uint8 (brightness - intensityVar)))))
     else ret glowPoints)
  else ret glowPoints.

(** [gentleGlow(hue, brightness, speed, spread)], as far as the glow-point
    array goes. *)
Definition gentleGlow (glowPoints : list GlowPoint)
    (h brightness speed s numLeds : Z) : Rand (list GlowPoint) :=
  rand gp <- updateAll MAX_GLOW_POINTS 0 glowPoints speed ;;
  spawn gp h brightness speed s numLeds.

(** *** Transitions *)

(** The fields of [LEDPatterns] that the transition code reads and writes.
    [leds] and [prevLeds] are arrays of [numLeds] pixels. *)
Record Transition := mkTransition {
  leds : list CRGB;
  prevLeds : list CRGB;
  numLeds : nat;
  transitionStartTime : Z;
  transitionDuration : Z;
  transitionActive : bool
}.

(** [prevLeds[i] = leds[i]] *)
Definition captureCurrentState (tr : Transition) : Transition :=
  mkTransition (leds tr)
    (for_each_led (numLeds tr) 0
       (fun i prev => match leds tr !! i with
                      | Some c => <[i := c]> prev
                      | None => prev
                      end)
       (prevLeds tr))
    (numLeds tr) (transitionStartTime tr) (transitionDuration tr)
    (transitionActive tr).

(** [startTransition(duration)]; [now] is what [millis()] returns. *)
Definition startTransition (tr : Transition) (duration now : Z) : Transition :=
  mkTransition (leds tr) (prevLeds tr) (numLeds tr) now duration true.

(** The blend amount [progress * 255] handed to [blend] as a [fract8], for
    [progress = (float)elapsed / (float)transitionDuration].  The quotient
    and the product are taken in exact arithmetic here. *)
Definition blendAmount (elapsed duration : Z) : Z :=
  to_uint8 (Z.quot (elapsed * 255) duration).

(** [updateTransitions()]: the returned flag and the object afterwards. *)
Definition updateTransitions (tr : Transition) (now : Z) : bool * Transition :=
  if negb (transitionActive tr) then (false, tr)
  else
    let currentTime := now in
    let elapsed := to_uint32 (currentTime - transitionStartTime tr) in
    if elapsed >=? transitionDuration tr then
      (false, mkTransition (leds tr) (prevLeds tr) (numLeds tr)
                (transitionStartTime tr) (transitionDuration tr) false)
    else
      let amount := blendAmount elapsed (transitionDuration tr) in
      (true, mkTransition
               (for_each_led (numLeds tr) 0
                  (fun i a => match prevLeds tr !! i, a !! i with
                              | Some p, Some c => <[i := blend p c amount]> a
                              | _, _ => a
                              end)
                  (leds tr))
               (prevLeds tr) (numLeds tr)
               (transitionStartTime tr) (transitionDuration tr)
               (transitionActive tr)).

(** What holds of a slot from its spawn on. *)
Definition wellFormed (g : GlowPoint) : Prop :=
  0 <= currentIntensity g <= maxIntensity g /\ maxIntensity g <= 255 /\
  (state g = 1 \/ state g = 0 \/ state g = -1).

(** One call of [updateGlowPoint] on a slot, for the draws of [t]. *)
Definition step (g : GlowPoint) (speed : Z) (t : list Z) : GlowPoint :=
  snd (fst (updatePoint g speed t)).

(** Arrays of [numLeds] pixels whose channels are bytes, and a duration
    that fits its 16 bits. *)
Definition simplified_ok (tr : Transition) : Prop :=
  length (leds tr) = numLeds tr /\
  length (prevLeds tr) = numLeds tr /\
  Forall uint8_pixel (leds tr) /\
  Forall uint8_pixel (prevLeds tr) /\
  0 <= transitionDuration tr <= 65535.

(** A fading point of intensity 100 and a growing one close to its
    target. *)
Definition fadingPoint : GlowPoint := mkGlowPoint 12 96 4 200 100 (-1) true.
Definition growingPoint : GlowPoint := mkGlowPoint 12 96 4 200 197 1 true.

(** A one-pixel strip right after [updateLEDPattern] has captured a black
    frame, rendered a red one and called [startTransition(1000)] at time 0. *)
Definition startedTransition : Transition :=
  mkTransition [mkCRGB 200 0 0] [mkCRGB 0 0 0] 1 0 1000 true.

(** The successive contents of one slot over a sequence of
    [updateGlowPoint] calls on it, one call per speed of the list, the
    slot before the first call included. *)
Fixpoint lifetime (g : GlowPoint) (speeds : list Z) : Rand (list GlowPoint) :=
  match speeds with
  | [] => ret [g]
  | speed :: rest =>
      rand r <- updatePoint g speed ;;
      rand tr <- lifetime (snd r) rest ;;
      ret (g :: tr)
  end.

(** The pool the constructor leaves: every slot inactive. *)
Definition emptyPool : list GlowPoint :=
  repeat (mkGlowPoint 0 0 0 0 0 0 false) MAX_GLOW_POINTS.

(** A pool of [MAX_GLOW_POINTS] slots that are all active. *)
Definition fullPool : list GlowPoint :=
  [ mkGlowPoint 3 10 4 200 0 1 true;
    mkGlowPoint 17 20 5 180 180 0 true;
    mkGlowPoint 40 30 5 150 90 (-1) true;
    mkGlowPoint 77 40 6 220 35 1 true;
    mkGlowPoint 120 50 3 100 100 0 true ].

(** A call to the glow engine. *)
Inductive Call :=
| CallGentleGlow (h brightness speed s numLeds : Z)
| CallAddGlowPoint (p h s intensity : Z)
| CallUpdateGlowPoint (index : nat) (speed : Z).

Definition call (c : Call) (glowPoints : list GlowPoint) : Rand (list GlowPoint) :=
  match c with
  | CallGentleGlow h b sp s n => gentleGlow glowPoints h b sp s n
  | CallAddGlowPoint p h s i => ret (snd (addGlowPoint glowPoints p h s i))
  | CallUpdateGlowPoint ix sp =>
      rand r <- updateGlowPoint glowPoints ix sp ;; ret (snd r)
  end.

Fixpoint calls (cs : list Call) (glowPoints : list GlowPoint)
    : Rand (list GlowPoint) :=
  match cs with
  | [] => ret glowPoints
  | c :: cs' => rand gp <- call c glowPoints ;; calls cs' gp
  end.

End Simplified.

(** ** LEDPatterns.cpp, the revision with a target buffer *)

Module Buffered.
Import FastLED.

Definition MAX_GLOW_POINTS : nat := 5.

(** [struct GlowPoint] of this revision: no [active] flag, a slot is free
    when [state == 0 && intensity == 0]; [speed] is the growth step. *)
Record GlowPoint := mkGlowPoint {
  position : Z;
  intensity : Z;
  maxIntensity : Z;
  state : Z;
  speed : Z;
  hue : Z
}.

Definition inactive (point : GlowPoint) : bool :=
  (state point =? 0) && (intensity point =? 0).

(** The slot [addGlowPoint(baseHue, brightness, speed)] initialises. *)
Definition newGlowPoint (baseHue brightness sp numLeds : Z) : Rand GlowPoint :=
  rand p <- random16_lim numLeds ;;
  rand h <- random8_lim 31 ;;
  ret (mkGlowPoint p 1
         (to_uint8 (Arduino.map brightness 0 255 100 255))
         1
         (to_uint8 (Arduino.map sp 1 255 2 15))
         (to_uint8 (baseHue + h - 15))).

(** The lifecycle part of [updateGlowPoint]: the returned flag and the slot
    afterwards.  (What follows it in the source writes the LED array.) *)
Definition updatePoint (point : GlowPoint) : bool * GlowPoint :=
  if inactive point then (false, point)
  else if state point =? 1 then
    let i := qadd8 (intensity point) (speed point) in
    if i >=? maxIntensity point
    then (true, mkGlowPoint (position point) (maxIntensity point)
                  (maxIntensity point) 0 (speed point) (hue point))
    else (true, mkGlowPoint (position point) i
                  (maxIntensity point) (state point) (speed point) (hue point))
  else if state point =? 0 then
    (true, mkGlowPoint (position point) (intensity point)
             (maxIntensity point) (-1) (speed point) (hue point))
  else if state point =? -1 then
    let i := qsub8 (intensity point) (to_uint8 (Z.quot (speed point) 2)) in
    if i <=? 1
    then (false, mkGlowPoint (position point) 0
                   (maxIntensity point) 0 (speed point) (hue point))
    else (true, mkGlowPoint (position point) i
                  (maxIntensity point) (state point) (speed point) (hue point))
  else (true, point).

(** The fields of a slot are bytes. *)
Definition wellFormed (point : GlowPoint) : Prop :=
  is_uint8 (intensity point) /\ is_uint8 (maxIntensity point) /\
  is_uint8 (speed point).

(** A fading point of intensity 4 with step 5, and a growing one. *)
Definition fadingPoint : GlowPoint := mkGlowPoint 12 4 180 (-1) 5 96.
Definition growingPoint : GlowPoint := mkGlowPoint 12 176 180 1 5 96.

(** *** Transitions *)

Record Transition := mkTransition {
  _leds : list CRGB;
  _targetLeds : list CRGB;
  _previousLeds : list CRGB;
  _numLeds : nat;
  _transitionStartTime : Z;
  _transitionDuration : Z;
  _isTransitioning : bool
}.

Definition blendColors (start end_ : CRGB) (progress : Z) : CRGB :=
  blend start end_ progress.

(** [_previousLeds[i] = _leds[i]] *)
Definition captureCurrentState (tr : Transition) : Transition :=
  mkTransition (_leds tr) (_targetLeds tr)
    (for_each_led (_numLeds tr) 0
       (fun i prev => match _leds tr !! i with
                      | Some c => <[i := c]> prev
                      | None => prev
                      end)
       (_previousLeds tr))
    (_numLeds tr) (_transitionStartTime tr) (_transitionDuration tr)
    (_isTransitioning tr).

Definition startTransition (tr : Transition) (duration now : Z) : Transition :=
  let tr := captureCurrentState tr in
  mkTransition (_leds tr) (_targetLeds tr) (_previousLeds tr) (_numLeds tr)
    now duration true.

(** [uint8_t progress = map(elapsed, 0, _transitionDuration, 0, 255)] *)
Definition progress (elapsed duration : Z) : Z :=
  to_uint8 (Arduino.map elapsed 0 duration 0 255).

Definition updateTransitions (tr : Transition) (now : Z) : bool * Transition :=
  if negb (_isTransitioning tr) then (false, tr)
  else
    let currentTime := now in
    let elapsed := to_uint32 (currentTime - _transitionStartTime tr) in
    if elapsed >=? _transitionDuration tr then
      (false, mkTransition
                (for_each_led (_numLeds tr) 0
                   (fun i a => match _targetLeds tr !! i with
                               | Some c => <[i := c]> a
                               | None => a
                               end)
                   (_leds tr))
                (_targetLeds tr) (_previousLeds tr) (_numLeds tr)
                (_transitionStartTime tr) (_transitionDuration tr) false)
    else
      let pr := progress elapsed (_transitionDuration tr) in
      (true, mkTransition
               (for_each_led (_numLeds tr) 0
                  (fun i a => match _previousLeds tr !! i, _targetLeds tr !! i with
                              | Some p, Some c => <[i := blendColors p c pr]> a
                              | _, _ => a
                              end)
                  (_leds tr))
               (_targetLeds tr) (_previousLeds tr) (_numLeds tr)
               (_transitionStartTime tr) (_transitionDuration tr)
               (_isTransitioning tr)).

(** Arrays of [_numLeds] pixels whose channels are bytes, and a duration
    that fits its 16 bits. *)
Definition buffered_ok (tr : Transition) : Prop :=
  length (_leds tr) = _numLeds tr /\
  length (_targetLeds tr) = _numLeds tr /\
  length (_previousLeds tr) = _numLeds tr /\
  Forall uint8_pixel (_targetLeds tr) /\
  Forall uint8_pixel (_previousLeds tr) /\
  0 <= _transitionDuration tr <= 65535.

(** A two-pixel strip in the middle of a transition started at time 0. *)
Definition startedTransition : Transition :=
  mkTransition [mkCRGB 7 7 7; mkCRGB 9 9 9]
               [mkCRGB 200 0 0; mkCRGB 0 100 255]
               [mkCRGB 0 0 0; mkCRGB 50 60 70] 2 0 1000 true.

End Buffered.

(** ** IEEE 754 single and double precision *)

Module IEEE.

(** A [float] or [double] value [v] is held as the integer [v * 2^1074]:
    every finite double, and so every finite float, is a whole number of
    units of [2^-1074].  The order of the values is the order of the
    integers.  Rounding is to nearest, ties to even, as on the target; no
    value of the computations below exceeds 255, so overflow is left out. *)
Definition UNIT : Z := 1074.

(** [n / 2^sh] rounded to the nearest integer, ties to the even one: the
    bits above position [sh], and the bits below it against one half. *)
Definition rne (n sh : Z) : Z :=
  let q := Z.shiftr n sh in
  let r := Z.land n (Z.ones sh) in
  let half := Z.shiftl 1 (sh - 1) in
  if r <? half then q
  else if half <? r then q + 1
  else if Z.even q then q else q + 1.

(** For [a > 0] in units of [2^-k]: the weight, in these units, of the last
    bit a format of [prec] bits and least exponent [emin] keeps of [a]. *)
Definition last_bit (prec emin k a : Z) : Z :=
  Z.max (Z.log2 a - (prec - 1)) (emin + k).

(** The number of the format nearest to [a], in units of [2^-k]. *)
Definition nearest (prec emin k a : Z) : Z :=
  let sh := last_bit prec emin k a in
  if sh <=? 0 then a else Z.shiftl (rne a sh) sh.

(** [n] units of [2^-k], with [k] at least [UNIT], rounded to the format;
    the result is in units of [2^-UNIT]. *)
Definition round (prec emin k n : Z) : Z :=
  if n =? 0 then 0
  else Z.sgn n * Z.shiftr (nearest prec emin k (Z.abs n)) (k - UNIT).

(** binary32 has 24 bits and least exponent -149, binary64 has 53 bits and
    least exponent -1074. *)
Definition to_float (n : Z) : Z := round 24 (-149) UNIT n.
Definition to_double (n : Z) : Z := round 53 (-1074) UNIT n.

(** The product of two values is exact in units of [2^-2148] and is
    rounded from there. *)
Definition mul_float (a b : Z) : Z := round 24 (-149) (2 * UNIT) (a * b).
Definition mul_double (a b : Z) : Z := round 53 (-1074) (2 * UNIT) (a * b).
Definition add_double (a b : Z) : Z := to_double (a + b).
Definition sub_double (a b : Z) : Z := to_double (a - b).

(** An integer as a floating-point value (exact below [2^24]). *)
Definition of_int (x : Z) : Z := x * 2 ^ UNIT.

Definition ONE : Z := of_int 1.

(** The value as a rational number; the cast of a value to an integer
    type truncates it, which for a value that is not negative is
    [Qfloor]. *)
Definition value (n : Z) : Q := Qmake n (Z.to_pos (2 ^ UNIT)).

(** [n] is a value of type [float]. *)
Definition binary32 (n : Z) : Prop := to_float n = n.

(** [(alpha * x) + ((1.0 - alpha) * s)] assigned to a [float], for a
    [float] constant [alpha], a [uint8_t] [x] and a [float] [s]: the first
    product is a [float] product; [1.0] is a [double], so the difference,
    the second product and the sum are [double] operations on the
    converted operands (a [float] is a [double] as it is); the assignment
    rounds the sum to [float]. *)
Definition smooth (alpha x s : Z) : Z :=
  to_float (add_double (mul_float alpha (of_int x))
                       (mul_double (sub_double ONE alpha) s)).

(** What the analysis of [smooth] uses of the constant [alpha] and of its
    products with the bytes, checked byte by byte: the difference
    [1.0 - alpha] is exact; [x] is a fixed point; from 0 the update gives
    the product [alpha * x]; the product is at most [x], and for [x >= 1]
    it is at least [2^-4], a multiple of [2^-27], and off by less than
    [alpha] times the distance from [x] to the next [float] below and
    above. *)
Definition byte_ok (alpha x : Z) : bool :=
  let X := of_int x in
  let P := mul_float alpha X in
  let l := Z.log2 X in
  (smooth alpha x X =? X) && (smooth alpha x 0 =? P) && (P <=? X)
  && ((x =? 0)
      || ((2 ^ (UNIT - 4) <=? P) && (Z.land P (Z.ones (UNIT - 27)) =? 0)
          && (alpha * (X - 2 ^ (l - 24)) <=? P * 2 ^ UNIT)
          && (P * 2 ^ UNIT <=? alpha * (X + 2 ^ (l - 23))))).

Definition alpha_ok (alpha : Z) : bool :=
  (0 <? alpha) && (alpha <? ONE) && (sub_double ONE alpha =? ONE - alpha)
  && forallb (fun x => byte_ok alpha (Z.of_nat x)) (seq 0 256).

End IEEE.

(** ** main.cpp, the revision with debouncing, smoothing and rate limiting *)

Module Main.

Definition PRESENCE_LOG_SCALE_FACTOR : Z := 60.
Definition MOTION_LOG_SCALE_FACTOR : Z := 70.
Definition PRESENCE_MIN_VALUE : Z := 70.
Definition MOTION_MIN_VALUE : Z := 70.
Definition DEBOUNCE_COUNT : Z := 3.
(** [const float SMOOTHING_FACTOR = 0.1]: the [float] nearest to 0.1 is
    [13421773 * 2^-27] (bit pattern 0x3DCCCCCD). *)
Definition SMOOTHING_FACTOR : Z := 13421773 * 2 ^ (IEEE.UNIT - 27).
Definition INTENSITY_LOW : Z := 64.
Definition INTENSITY_MEDIUM : Z := 128.
Definition INTENSITY_MAX : Z := 255.
Definition BRIGHTNESS_MIN : Z := 80.
Definition BRIGHTNESS_MAX : Z := 220.
Definition SPEED_MIN : Z := 20.
Definition SPEED_MAX : Z := 100.
Definition HUE_COOL : Z := 160.
Definition HUE_NEUTRAL : Z := 96.
Definition HUE_WARM : Z := 0.
Definition SPREAD_MIN : Z := 3.
Definition SPREAD_MAX : Z := 8.
Definition MIN_UPDATE_INTERVAL : Z := 250.

(** *** Signal conditioning in [loop] *)

(** The largest [k] with [10 ^ k <= m], for [m >= 1]. *)
Fixpoint ilog10_fuel (fuel : nat) (m : Z) : Z :=
  match fuel with
  | O => 0
  | S fuel' => if m <? 10 then 0 else 1 + ilog10_fuel fuel' (m / 10)
  end.

Definition ilog10 (m : Z) : Z := ilog10_fuel (S (Z.to_nat (Z.log2 m))) m.

(** The integer part of [log10(n) * scale], the value the source casts to
    [uint8_t].  The logarithm and the product are taken in exact
    arithmetic: the integer part of [scale * log10 n] is the largest [k]
    with [10 ^ k <= n ^ scale]. *)
Definition scaledLog10 (scale n : Z) : Z := ilog10 (n ^ scale).

(** [constrain((uint8_t)(log10(scaled + 1) * SCALE), 0, INTENSITY_MAX)] for
    [float scaled = abs(value)].  The cast comes first.  For a product of
    256 or more C++ leaves the cast undefined; the target converts to a
    32-bit integer and keeps the low 8 bits, which is what [to_uint8]
    does. *)
Definition logIntensity (scale value : Z) : Z :=
  let scaled := Z.abs value in
  Arduino.constrain (to_uint8 (scaledLog10 scale (scaled + 1))) 0 INTENSITY_MAX.

(** The four globals of one channel: [presenceDetected],
    [presenceIntensity], [presenceDetectionCount],
    [presenceNonDetectionCount], and the same for motion. *)
Record Channel := mkChannel {
  detected : bool;
  intensity : Z;
  detectionCount : Z;
  nonDetectionCount : Z
}.

Definition qualifies (minValue value : Z) (flag : bool) : bool :=
  let aboveThreshold := Z.abs value >? minValue in
  aboveThreshold && flag.

(** The debouncing block of [loop], written twice in the source with the
    presence and the motion constants. *)
Definition debounce (minValue scale : Z) (c : Channel) (value : Z) (flag : bool)
    : Channel :=
  if qualifies minValue value flag then
    let dc := Z.min (detectionCount c + 1) 255 in
    if dc >=? DEBOUNCE_COUNT
    then mkChannel true (logIntensity scale value) dc 0
    else mkChannel (detected c) (intensity c) dc 0
  else
    let ndc := Z.min (nonDetectionCount c + 1) 255 in
    if ndc >=? DEBOUNCE_COUNT
    then mkChannel false 0 0 ndc
    else mkChannel (detected c) (intensity c) 0 ndc.

Record Sensors := mkSensors { presence : Channel; motion : Channel }.

(** The sensor part of one pass of [loop]: [pres_flag], [mot_flag] and the
    two values are what the sensor reports. *)
Definition loop (s : Sensors) (presenceValue : Z) (pres_flag : bool)
    (motionValue : Z) (mot_flag : bool) : Sensors :=
  mkSensors
    (debounce PRESENCE_MIN_VALUE PRESENCE_LOG_SCALE_FACTOR (presence s)
       presenceValue pres_flag)
    (debounce MOTION_MIN_VALUE MOTION_LOG_SCALE_FACTOR (motion s)
       motionValue mot_flag).

(** Successive passes of [loop] as one channel sees them: a reading is
    the value and the hardware flag of a pass. *)
Fixpoint polls (minValue scale : Z) (c : Channel) (readings : list (Z * bool))
    : Channel :=
  match readings with
  | [] => c
  | r :: rest => polls minValue scale (debounce minValue scale c (fst r) (snd r)) rest
  end.

Definition qualifying (minValue : Z) (r : Z * bool) : Prop :=
  qualifies minValue (fst r) (snd r) = true.

Definition uint8_counters (c : Channel) : Prop :=
  is_uint8 (detectionCount c) /\ is_uint8 (nonDetectionCount c).

(** The globals as [main.cpp] initialises them. *)
Definition initialSensors : Sensors :=
  mkSensors (mkChannel false 0 0 0) (mkChannel false 0 0 0).

(** *** Parameter mapping in [updateLEDPattern] *)

(** [(alpha * x) + ((1.0 - alpha) * s)], in [float] and [double] as the
    expression is evaluated. *)
Definition smooth (alpha x s : Z) : Z := IEEE.smooth alpha x s.

Record Params := mkParams {
  newHue : Z;
  newBrightness : Z;
  newSpeed : Z;
  newSpread : Z
}.

(** The globals [updateLEDPattern] reads and writes. *)
Record Pattern := mkPattern {
  smoothedPresenceIntensity : Z;
  smoothedMotionIntensity : Z;
  lastHue : Z;
  lastBrightness : Z;
  lastSpeed : Z;
  lastSpread : Z;
  lastPatternChange : Z
}.

(** The parameters computed from the smoothed intensities. *)
Definition candidate (presence_ motion_ : bool) (sp sm : Q) : Params :=
  let smoothedPresenceInt := to_uint8 (Qfloor sp) in
  let smoothedMotionInt := to_uint8 (Qfloor sm) in
  let brightness :=
    to_uint8 (Arduino.map smoothedPresenceInt 0 INTENSITY_MAX BRIGHTNESS_MIN BRIGHTNESS_MAX) in
  let speed :=
    to_uint8 (Arduino.map smoothedMotionInt 0 INTENSITY_MAX SPEED_MIN SPEED_MAX) in
  let hue :=
    if motion_ && (smoothedMotionInt >? INTENSITY_MEDIUM) then
      to_uint8 (Arduino.map smoothedMotionInt INTENSITY_MEDIUM INTENSITY_MAX HUE_NEUTRAL HUE_WARM)
    else if presence_ && (smoothedPresenceInt >? INTENSITY_LOW) then
      to_uint8 (Arduino.map smoothedPresenceInt INTENSITY_LOW INTENSITY_MAX HUE_COOL HUE_NEUTRAL)
    else HUE_COOL in
  let combinedIntensity := Z.max smoothedPresenceInt smoothedMotionInt in
  let spread :=
    to_uint8 (Arduino.map combinedIntensity 0 INTENSITY_MAX SPREAD_MIN SPREAD_MAX) in
  if negb presence_ && negb motion_
  then mkParams hue (BRIGHTNESS_MIN + 20) (SPEED_MIN + 5) spread
  else mkParams hue brightness speed spread.

(** The test that sets [parametersChanged]. *)
Definition parametersChanged (p : Params) (st : Pattern) : bool :=
  (Z.abs (newHue p - lastHue st) >? 5)
  || (Z.abs (newBrightness p - lastBrightness st) >? 8)
  || (Z.abs (newSpeed p - lastSpeed st) >? 5)
  || (Z.abs (newSpread p - lastSpread st) >? 1).

(** [updateLEDPattern(presence, motion, presenceIntensity, motionIntensity)]
    with [now] for [millis()].  The second component is the parameter set
    handed to [gentleGlow] when the pattern is updated, [None] otherwise. *)
Definition updateLEDPattern (st : Pattern) (presence_ motion_ : bool)
    (presenceIntensity motionIntensity : Z) (now : Z) : Pattern * option Params :=
  let sp := smooth SMOOTHING_FACTOR presenceIntensity
              (smoothedPresenceIntensity st) in
  let sm := smooth SMOOTHING_FACTOR motionIntensity
              (smoothedMotionIntensity st) in
  let p := candidate presence_ motion_ (IEEE.value sp) (IEEE.value sm) in
  let st1 := mkPattern sp sm (lastHue st) (lastBrightness st) (lastSpeed st)
               (lastSpread st) (lastPatternChange st) in
  if parametersChanged p st then
    let timeSinceLastChange := to_uint32 (now - lastPatternChange st) in
    if timeSinceLastChange >? MIN_UPDATE_INTERVAL then
      (mkPattern sp sm (newHue p) (newBrightness p) (newSpeed p) (newSpread p) now,
       Some p)
    else (st1, None)
  else (st1, None).

(** The candidate parameters of a call. *)
Definition candidateOf (st : Pattern) (presence_ motion_ : bool)
    (presenceIntensity motionIntensity : Z) : Params :=
  candidate presence_ motion_
    (IEEE.value (smooth SMOOTHING_FACTOR presenceIntensity
                   (smoothedPresenceIntensity st)))
    (IEEE.value (smooth SMOOTHING_FACTOR motionIntensity
                   (smoothedMotionIntensity st))).

(** Some field of [p] differs from the snapshot in [st] by more than its
    threshold. *)
Definition significant (p : Params) (st : Pattern) : Prop :=
  Z.abs (newHue p - lastHue st) > 5 \/
  Z.abs (newBrightness p - lastBrightness st) > 8 \/
  Z.abs (newSpeed p - lastSpeed st) > 5 \/
  Z.abs (newSpread p - lastSpread st) > 1.

(** [n] calls of [updateLEDPattern] in a row with the same arguments and the
    same [millis()]: the globals afterwards and what each call emitted. *)
Fixpoint repeated (n : nat) (st : Pattern) (presence_ motion_ : bool)
    (presenceIntensity motionIntensity : Z) (now : Z)
    : Pattern * list (option Params) :=
  match n with
  | O => (st, [])
  | S n' =>
      let r := updateLEDPattern st presence_ motion_
                 presenceIntensity motionIntensity now in
      let rs := repeated n' (fst r) presence_ motion_
                  presenceIntensity motionIntensity now in
      (fst rs, snd r :: snd rs)
  end.

(** The globals as [main.cpp] initialises them. *)
Definition initialPattern : Pattern :=
  mkPattern 0 0 HUE_COOL BRIGHTNESS_MIN SPEED_MIN SPREAD_MIN 0.

End Main.

(** ** Rendering in the simplified revision *)

Definition to_int16 (x : Z) : Z := (x + 32768) mod 65536 - 32768.

Module SimplifiedFrame.
Import FastLED Simplified.

(** [CRGB::operator+=]: saturating addition, channel by channel. *)
Definition addCRGB (a b : CRGB) : CRGB :=
  mkCRGB (qadd8 (red a) (red b)) (qadd8 (green a) (green b))
         (qadd8 (blue a) (blue b)).

(** [fill_solid(leds, numLeds, color)] *)
Definition fill_solid (leds : list CRGB) (numLeds : nat) (color : CRGB)
    : list CRGB :=
  for_each_led numLeds 0 (fun i a => <[i := color]> a) leds.

(** [int16_t actualPos = (pos + i) % numLeds; if (actualPos < 0) actualPos
    += numLeds;] with C's remainder, which takes the sign of [pos + i]. *)
Definition actualPos (p i numLeds : Z) : Z :=
  let a := to_int16 (Z.rem (p + i) numLeds) in
  if a <? 0 then to_int16 (a + numLeds) else a.

(** The value [intensity * falloff] handed to [CHSV] as a byte, for
    [falloff = 1.0 - (float)(i * i) / (float)((spread + 1) * (spread + 1))],
    set to 0 when negative.  The quotient and the product are taken in
    exact arithmetic. *)
Definition falloffValue (intensity i s : Z) : Z :=
  let d := (s + 1) * (s + 1) in
  if d - i * i <? 0 then 0 else to_uint8 (intensity * (d - i * i) / d).

Section Render.

(** FastLED's conversion of [CHSV(hue, sat, val)] to [CRGB]. *)
Variable hsv2rgb_rainbow : Z -> Z -> Z -> CRGB.

(** The loop [for (int16_t i = -spread; i <= spread; i++)] of
    [renderGlowPoint], from offset [i] for [n] more offsets.  A position
    outside the array is undefined in C++ (it needs [numLeds = 0] or more
    than 32767 LEDs); here such a write is dropped. *)
Fixpoint renderLoop (n : nat) (i : Z) (g : GlowPoint) (numLeds : Z)
    (leds : list CRGB) : list CRGB :=
  match n with
  | O => leds
  | S n' =>
      let a := actualPos (pos g) i numLeds in
      let rgb := hsv2rgb_rainbow (hue g) 240
                   (falloffValue (currentIntensity g) i (spread g)) in
      let leds' :=
        if a <? 0 then leds
        else match leds !! Z.to_nat a with
             | Some c => <[Z.to_nat a := addCRGB c rgb]> leds
             | None => leds
             end in
      renderLoop n' (i + 1) g numLeds leds'
  end.

(** The body of [renderGlowPoint] for the slot it addresses. *)
Definition renderPoint (g : GlowPoint) (numLeds : Z) (leds : list CRGB)
    : list CRGB :=
  if negb (active g) then leds
  else renderLoop (Z.to_nat (2 * spread g + 1)) (- spread g) g numLeds leds.

(** [renderGlowPoint(index)] *)
Definition renderGlowPoint (glowPoints : list GlowPoint) (index : nat)
    (numLeds : Z) (leds : list CRGB) : list CRGB :=
  match glowPoints !! index with
  | Some g => renderPoint g numLeds leds
  | None => leds
  end.

(** First loop of [gentleGlow] with the LED array: update every active
    slot and render it when it is still active. *)
Fixpoint updateRender (n i : nat) (glowPoints : list GlowPoint)
    (leds : list CRGB) (speed numLeds : Z)
    : Rand (list GlowPoint * list CRGB) :=
  match n with
  | O => ret (glowPoints, leds)
  | S n' =>
      match glowPoints !! i with
      | Some g =>
          if active g then
            (rand r <- updateGlowPoint glowPoints i speed ;;
             let stillActive := fst r in
             let leds' :=
               if stillActive then renderGlowPoint (snd r) i numLeds leds
               else leds in
             updateRender n' (S i) (snd r) leds' speed numLeds)
          else updateRender n' (S i) glowPoints leds speed numLeds
      | None => updateRender n' (S i) glowPoints leds speed numLeds
      end
  end.

(** [gentleGlow(hue, brightness, speed, spread)] on the glow-point array
    and the LED array of [numLeds] pixels. *)
Definition gentleGlowFrame (glowPoints : list GlowPoint) (leds : list CRGB)
    (h brightness speed s numLeds : Z) : Rand (list GlowPoint * list CRGB) :=
  let leds0 := fill_solid leds (Z.to_nat numLeds) Black in
  rand r <- updateRender MAX_GLOW_POINTS 0 glowPoints leds0 speed numLeds ;;
  rand gp <- spawn (fst r) h brightness speed s numLeds ;;
  ret (gp, snd r).

End Render.

(** The positions one render of [g] writes. *)
Definition window (g : GlowPoint) (numLeds : Z) (j : nat) : Prop :=
  exists i, - spread g <= i <= spread g /\
            Z.of_nat j = actualPos (pos g) i numLeds.

(** [x] is at least as bright as [c] in every channel. *)
Definition brighter (c x : CRGB) : Prop :=
  red c <= red x /\ green c <= green x /\ blue c <= blue x.

(** A stand-in conversion for examples: a grey of the given value. *)
Definition grey (h s v : Z) : CRGB := mkCRGB (to_uint8 v) (to_uint8 v) (to_uint8 v).

End SimplifiedFrame.

(** ** The pool of the revision with a target buffer *)

Module BufferedPool.
Import FastLED Buffered.

(** The fields of [LEDPatterns] that the glow code of this revision reads
    and writes, but for the LED array. *)
Record Glow := mkGlow {
  _glowPoints : list GlowPoint;
  _lastGlowUpdate : Z;
  _activeGlowPoints : Z
}.

(** What the constructor leaves. *)
Definition constructed : Glow :=
  mkGlow (repeat (mkGlowPoint 0 0 0 0 0 0) MAX_GLOW_POINTS) 0 0.

(** [addGlowPoint(baseHue, brightness, speed)]: the loop over the slots,
    from slot [i] for [n] more slots. *)
Fixpoint addGlowPoint_loop (n i : nat) (pts : list GlowPoint)
    (baseHue brightness sp numLeds : Z) : Rand (bool * list GlowPoint) :=
  match n with
  | O => ret (false, pts)
  | S n' =>
      match pts !! i with
      | Some g =>
          if inactive g then
            (rand point <- newGlowPoint baseHue brightness sp numLeds ;;
             ret (true, <[i := point]> pts))
          else addGlowPoint_loop n' (S i) pts baseHue brightness sp numLeds
      | None => addGlowPoint_loop n' (S i) pts baseHue brightness sp numLeds
      end
  end.

Definition addGlowPoint (pts : list GlowPoint) (baseHue brightness sp numLeds : Z)
    : Rand (bool * list GlowPoint) :=
  addGlowPoint_loop MAX_GLOW_POINTS 0 pts baseHue brightness sp numLeds.

(** The slot after [gentleGlow] has cleared it: [state = 0; intensity = 0]. *)
Definition cleared (point : GlowPoint) : GlowPoint :=
  mkGlowPoint (position point) 0 (maxIntensity point) 0 (speed point) (hue point).

(** Second loop of [gentleGlow]: update every slot in use, clear the ones
    that have faded out and count them down.  (What [updateGlowPoint]
    draws goes to the LED array.) *)
Fixpoint updateLoop (n i : nat) (pts : list GlowPoint) (count : Z)
    : list GlowPoint * Z :=
  match n with
  | O => (pts, count)
  | S n' =>
      match pts !! i with
      | Some g =>
          if inactive g then updateLoop n' (S i) pts count
          else
            let r := updatePoint g in
            if negb (fst r)
            then updateLoop n' (S i) (<[i := cleared (snd r)]> pts)
                   (to_uint8 (Z.max 0 (count - 1)))
            else updateLoop n' (S i) (<[i := snd r]> pts) count
      | None => updateLoop n' (S i) pts count
      end
  end.

(** [gentleGlow(baseHue, brightness, speed, spread)] with [now] for
    [millis()], as far as the glow fields go. *)
Definition gentleGlow (o : Glow) (baseHue brightness sp numLeds now : Z)
    : Rand Glow :=
  let currentTime := now in
  if to_uint32 (currentTime - _lastGlowUpdate o) >=? 20 then
    (rand r <- random8 ;;
     rand added <-
       (if (r <? Arduino.map sp 1 255 5 40)
           && (_activeGlowPoints o <? Z.of_nat MAX_GLOW_POINTS)
        then
          (rand a <- addGlowPoint (_glowPoints o) baseHue brightness sp numLeds ;;
           ret (snd a, if fst a then to_uint8 (_activeGlowPoints o + 1)
                       else _activeGlowPoints o))
        else ret (_glowPoints o, _activeGlowPoints o)) ;;
     let u := updateLoop MAX_GLOW_POINTS 0 (fst added) (snd added) in
     ret (mkGlow (fst u) currentTime (snd u)))
  else ret o.

(** A call of [gentleGlow]: its arguments and the clock. *)
Record Frame := mkFrame {
  f_baseHue : Z; f_brightness : Z; f_speed : Z; f_numLeds : Z; f_now : Z
}.

Fixpoint frames (fs : list Frame) (o : Glow) : Rand Glow :=
  match fs with
  | [] => ret o
  | f :: rest =>
      rand o' <- gentleGlow o (f_baseHue f) (f_brightness f) (f_speed f)
                   (f_numLeds f) (f_now f) ;;
      frames rest o'
  end.

(** The number of slots in use. *)
Definition busy (pts : list GlowPoint) : nat :=
  length (filter (fun g => inactive g = false) pts).

(** [n] calls of [updateGlowPoint] on one slot. *)
Fixpoint updates (n : nat) (point : GlowPoint) : GlowPoint :=
  match n with
  | O => point
  | S n' => updates n' (snd (updatePoint point))
  end.

(** A slot as [addGlowPoint] and [updateGlowPoint] leave it: byte fields, a
    step of at least 2 and one of the three states. *)
Definition alive (point : GlowPoint) : Prop :=
  wellFormed point /\ 2 <= speed point /\
  (state point = 1 \/ state point = 0 \/ state point = -1).

(** The counter agrees with the array: it is the number of slots in use,
    the array has its [MAX_GLOW_POINTS] slots, and a slot in use has a
    target intensity other than 0. *)
Definition slots_ok (pts : list GlowPoint) : Prop :=
  Forall (fun g => inactive g = false -> maxIntensity g <> 0) pts.

Definition pool_ok (o : Glow) : Prop :=
  length (_glowPoints o) = MAX_GLOW_POINTS /\
  _activeGlowPoints o = Z.of_nat (busy (_glowPoints o)) /\
  slots_ok (_glowPoints o).

(** A bound on the number of [updateGlowPoint] calls a slot stays in use
    for. *)
Definition remaining (point : GlowPoint) : Z :=
  if inactive point then 0
  else if state point =? 1 then 513 - intensity point
  else if state point =? 0 then 257
  else intensity point + 1.

(** The arguments of a call are bytes. *)
Definition byte_frame (f : Frame) : Prop :=
  is_uint8 (f_brightness f) /\ is_uint8 (f_speed f).

(** The spreading loop of [updateGlowPoint], [for (uint8_t i = 1; i <=
    maxSpread; i++)]: its bound, the brightness it gives the two pixels at
    distance [i] (skipped when below 5), and their indices. *)
Definition maxSpread (spread : Z) : Z := to_uint8 (Arduino.map spread 1 10 2 8).

Definition falloff (intensity maxSpread i : Z) : Z :=
  to_uint8 (Z.quot (intensity * (maxSpread - i) * (maxSpread - i))
                   (maxSpread * maxSpread)).

Definition leftPos (position i numLeds : Z) : Z :=
  to_int16 (Z.rem (position - i + numLeds) numLeds).

Definition rightPos (position i numLeds : Z) : Z :=
  to_int16 (Z.rem (position + i) numLeds).

End BufferedPool.

(** ** Runs of [updateLEDPattern] *)

Module MainRuns.
Import Main.

(** The arguments of one call and the clock. *)
Record Tick := mkTick {
  t_presence : bool; t_motion : bool;
  t_presenceIntensity : Z; t_motionIntensity : Z; t_now : Z
}.

Definition tick (st : Pattern) (c : Tick) : Pattern * option Params :=
  updateLEDPattern st (t_presence c) (t_motion c)
    (t_presenceIntensity c) (t_motionIntensity c) (t_now c).

(** Successive calls: the globals afterwards and what each call emitted. *)
Fixpoint run (st : Pattern) (cs : list Tick) : Pattern * list (option Params) :=
  match cs with
  | [] => (st, [])
  | c :: rest =>
      let r := tick st c in
      let rs := run (fst r) rest in
      (fst rs, snd r :: snd rs)
  end.

Definition byte_tick (c : Tick) : Prop :=
  is_uint8 (t_presenceIntensity c) /\ is_uint8 (t_motionIntensity c).

(** Both smoothed intensities lie within 0 and 255. *)
Definition smoothed_in_range (st : Pattern) : Prop :=
  (0 <= IEEE.value (smoothedPresenceIntensity st) <= 255)%Q /\
  (0 <= IEEE.value (smoothedMotionIntensity st) <= 255)%Q.

(** The invariant of a debounced channel. *)
Definition channel_ok (c : Channel) : Prop :=
  uint8_counters c /\ is_uint8 (intensity c) /\
  (detected c = false -> intensity c = 0) /\
  (detectionCount c = 0 \/ nonDetectionCount c = 0).

(** The clock readings of a run never go back and do not wrap. *)
Definition steady_clock (cs : list Tick) : Prop :=
  forall i j ci cj, (i <= j)%nat -> cs !! i = Some ci -> cs !! j = Some cj ->
    0 <= t_now ci <= t_now cj /\ t_now cj < 4294967296.

End MainRuns.

(** ** main.cpp, the latest revision: [updateLEDPattern] with its
    transition guard *)

Module Head.
Import FastLED.

(** [const float SMOOTHING_FACTOR = 0.2]: the [float] nearest to 0.2 is
    [13421773 * 2^-26] (bit pattern 0x3E4CCCCD). *)
Definition SMOOTHING_FACTOR : Z := 13421773 * 2 ^ (IEEE.UNIT - 26).
Definition TRANSITION_DURATION : Z := 300.
Definition MIN_UPDATE_INTERVAL : Z := 150.
Definition MIN_TRANSITION_REST : Z := 350.

(** The globals and the function statics that [updateLEDPattern] reads and
    writes, with the [LEDPatterns] object: its transition fields with the
    LED array, and its glow points.  [transitionActive] is the static of
    [updateLEDPattern], not the field of the object. *)
Record Globals := mkGlobals {
  smoothedPresenceIntensity : Z;
  smoothedMotionIntensity : Z;
  lastUpdate : Z;
  lastTransitionStart : Z;
  transitionActive : bool;
  lastHue : Z;
  lastBrightness : Z;
  lastSpeed : Z;
  lastSpread : Z;
  lastPatternChange : Z;
  ledPatterns : Simplified.Transition;
  glowPoints : list Simplified.GlowPoint
}.

(** What [millis()] returns during one call: at the top of
    [updateLEDPattern], inside the first [updateTransitions], and inside
    [startTransition] or the second [updateTransitions]. *)
Record Clock := mkClock { now : Z; tickTime : Z; lastTime : Z }.

(** The test that sets [parametersChanged]. *)
Definition parametersChanged (p : Main.Params) (g : Globals) : bool :=
  (Z.abs (Main.newHue p - lastHue g) >? 5)
  || (Z.abs (Main.newBrightness p - lastBrightness g) >? 8)
  || (Z.abs (Main.newSpeed p - lastSpeed g) >? 5)
  || (Z.abs (Main.newSpread p - lastSpread g) >? 1).

Section Pattern.

(** FastLED's conversion of [CHSV(hue, sat, val)] to [CRGB]. *)
Variable hsv2rgb_rainbow : Z -> Z -> Z -> CRGB.

(** [updateLEDPattern(presence, motion, presenceIntensity, motionIntensity)].
    The second component is the parameter set handed to [gentleGlow] when
    the pattern is updated, [None] otherwise.  The computation of the
    parameters is that of the first revision, [Main.candidate]. *)
Definition updateLEDPattern (g : Globals) (presence_ motion_ : bool)
    (presenceIntensity motionIntensity : Z) (c : Clock)
    : Rand (Globals * option Main.Params) :=
  let sp := Main.smooth SMOOTHING_FACTOR presenceIntensity
              (smoothedPresenceIntensity g) in
  let sm := Main.smooth SMOOTHING_FACTOR motionIntensity
              (smoothedMotionIntensity g) in
  if to_uint32 (now c - lastUpdate g) <? MIN_UPDATE_INTERVAL then
    ret (mkGlobals sp sm (lastUpdate g) (lastTransitionStart g)
           (transitionActive g) (lastHue g) (lastBrightness g) (lastSpeed g)
           (lastSpread g) (lastPatternChange g) (ledPatterns g) (glowPoints g),
         None)
  else
    let r := Simplified.updateTransitions (ledPatterns g) (tickTime c) in
    let isInTransition := fst r in
    let active :=
      if isInTransition then true
      else if transitionActive g then false else transitionActive g in
    if active || (to_uint32 (now c - lastTransitionStart g) <? MIN_TRANSITION_REST)
    then
      ret (mkGlobals sp sm (lastUpdate g) (lastTransitionStart g) active
             (lastHue g) (lastBrightness g) (lastSpeed g) (lastSpread g)
             (lastPatternChange g) (snd r) (glowPoints g),
           None)
    else
      let p := Main.candidate presence_ motion_ (IEEE.value sp)
                 (IEEE.value sm) in
      if parametersChanged p g then
        let captured := Simplified.captureCurrentState (snd r) in
        (rand f <- SimplifiedFrame.gentleGlowFrame hsv2rgb_rainbow
                     (glowPoints g) (Simplified.leds captured)
                     (Main.newHue p) (Main.newBrightness p) (Main.newSpeed p)
                     (Main.newSpread p)
                     (Z.of_nat (Simplified.numLeds captured)) ;;
         let drawn :=
           Simplified.mkTransition (snd f) (Simplified.prevLeds captured)
             (Simplified.numLeds captured)
             (Simplified.transitionStartTime captured)
             (Simplified.transitionDuration captured)
             (Simplified.transitionActive captured) in
         let started :=
           Simplified.startTransition drawn TRANSITION_DURATION (lastTime c) in
         ret (mkGlobals sp sm (now c) (now c) true
                (Main.newHue p) (Main.newBrightness p) (Main.newSpeed p)
                (Main.newSpread p) (now c) started (fst f),
              Some p))
      else
        let r2 := Simplified.updateTransitions (snd r) (lastTime c) in
        ret (mkGlobals sp sm (lastUpdate g) (lastTransitionStart g) active
               (lastHue g) (lastBrightness g) (lastSpeed g) (lastSpread g)
               (lastPatternChange g) (snd r2) (glowPoints g),
             None).

(** The arguments of one call and its clock readings. *)
Record Call := mkCall {
  c_presence : bool; c_motion : bool;
  c_presenceIntensity : Z; c_motionIntensity : Z; c_clock : Clock
}.

Definition call (g : Globals) (c : Call) : Rand (Globals * option Main.Params) :=
  updateLEDPattern g (c_presence c) (c_motion c) (c_presenceIntensity c)
    (c_motionIntensity c) (c_clock c).

(** Successive calls: the globals afterwards and what each call emitted. *)
Fixpoint run (g : Globals) (cs : list Call)
    : Rand (Globals * list (option Main.Params)) :=
  match cs with
  | [] => ret (g, [])
  | c :: rest =>
      rand r <- call g c ;;
      rand rs <- run (fst r) rest ;;
      ret (fst rs, snd r :: snd rs)
  end.

End Pattern.

(** The globals as [main.cpp] initialises them, with the object as its
    constructor leaves it on the LED array [leds]. *)
Definition initial (leds : list CRGB) : Globals :=
  mkGlobals 0 0 0 0 false Main.HUE_COOL Main.BRIGHTNESS_MIN Main.SPEED_MIN
    Main.SPREAD_MIN 0
    (Simplified.mkTransition leds (repeat Black (length leds)) (length leds)
       0 0 false)
    Simplified.emptyPool.

(** The static flag agrees with the object's, and the three time stamps
    are one. *)
Definition synced (g : Globals) : Prop :=
  transitionActive g = Simplified.transitionActive (ledPatterns g) /\
  lastUpdate g = lastTransitionStart g /\
  lastPatternChange g = lastTransitionStart g.

(** The readings at the top of the calls never go back and do not wrap. *)
Definition steady_clock (cs : list Call) : Prop :=
  forall i j ci cj, (i <= j)%nat -> cs !! i = Some ci -> cs !! j = Some cj ->
    0 <= now (c_clock ci) <= now (c_clock cj) /\
    now (c_clock cj) < 4294967296.

End Head.

(** * Properties *)

Lemma to_uint8_range x : is_uint8 (to_uint8 x).
Proof. unfold is_uint8, to_uint8. pose proof (Z.mod_pos_bound x 256). lia. Qed.

Lemma to_uint8_id x : is_uint8 x -> to_uint8 x = x.
Proof. unfold is_uint8, to_uint8. intros H. apply Z.mod_small. lia. Qed.

(** * Properties of the simplified revision's glow-point pool *)

Module SimplifiedPool.
Import FastLED Simplified.

Ltac unrand := unfold bind, ret, random8, random8_lim, random16_lim, random16, draw in *.

Lemma addGlowPoint_loop_length n i gp p h s x :
  length (snd (addGlowPoint_loop n i gp p h s x)) = length gp.
Proof.
  revert i. induction n as [|n IH]; intros i; simpl; [reflexivity|].
  destruct (gp !! i) as [g|]; [|apply IH].
  destruct (active g); simpl; [apply IH|]. apply length_insert.
Qed.

Lemma updateGlowPoint_length gp ix sp t :
  length (snd (fst (updateGlowPoint gp ix sp t))) = length gp.
Proof.
  unfold updateGlowPoint. destruct (gp !! ix) as [g|]; [|reflexivity].
  unfold bind. destruct (updatePoint g sp t) as [[b g'] t']. simpl.
  apply length_insert.
Qed.

Lemma updateAll_length n i gp sp t :
  length (fst (updateAll n i gp sp t)) = length gp.
Proof.
  revert i gp t. induction n as [|n IH]; intros i gp t; simpl; [reflexivity|].
  destruct (gp !! i) as [g|]; [|apply IH].
  destruct (active g); [|apply IH].
  unfold bind. pose proof (updateGlowPoint_length gp i sp t) as Hl.
  destruct (updateGlowPoint gp i sp t) as [[b gp'] t']. simpl in *.
  rewrite IH. exact Hl.
Qed.

Lemma spawn_length gp h b sp s n t :
  length (fst (spawn gp h b sp s n t)) = length gp.
Proof.
  unfold spawn. destruct (activeCount gp <? MAX_GLOW_POINTS)%nat; [|reflexivity].
  unrand. destruct t as [|x t]; simpl.
  - destruct (_ >? _); simpl; [|reflexivity].
    unfold addGlowPoint. apply addGlowPoint_loop_length.
  - destruct (_ >? _); simpl; [|reflexivity].
    destruct t as [|x1 [|x2 [|x3 [|x4 t]]]]; simpl;
      unfold addGlowPoint; apply addGlowPoint_loop_length.
Qed.

Lemma gentleGlow_length gp h b sp s n t :
  length (fst (gentleGlow gp h b sp s n t)) = length gp.
Proof.
  unfold gentleGlow, bind.
  pose proof (updateAll_length MAX_GLOW_POINTS 0 gp sp t) as Hl.
  destruct (updateAll MAX_GLOW_POINTS 0 gp sp t) as [gp' t'].
  rewrite spawn_length. exact Hl.
Qed.

Lemma call_length c gp t : length (fst (call c gp t)) = length gp.
Proof.
  destruct c as [h b sp s n|p h s x|ix sp]; simpl.
  - apply gentleGlow_length.
  - unfold ret. cbn [fst]. apply addGlowPoint_loop_length.
  - unfold bind, ret. pose proof (updateGlowPoint_length gp ix sp t) as Hl.
    destruct (updateGlowPoint gp ix sp t) as [[b gp'] t']. exact Hl.
Qed.

Lemma calls_length cs gp t : length (fst (calls cs gp t)) = length gp.
Proof.
  revert gp t. induction cs as [|c cs IH]; intros gp t; simpl; [reflexivity|].
  unfold bind. pose proof (call_length c gp t) as Hl.
  destruct (call c gp t) as [gp' t']. rewrite IH. exact Hl.
Qed.

Lemma activeCount_le gp : (activeCount gp <= length gp)%nat.
Proof. unfold activeCount. apply length_filter. Qed.

(** When the count of active slots equals the size of the array, every
    slot is active. *)
Lemma activeCount_full gp :
  activeCount gp = length gp -> Forall (fun g => active g = true) gp.
Proof.
  unfold activeCount. induction gp as [|g gp IH]; intros H; [constructor|].
  rewrite filter_cons in H. destruct (decide (active g = true)) as [Ha|Ha].
  - simpl in H. constructor; [exact Ha|]. apply IH. lia.
  - exfalso. pose proof (length_filter (fun g => active g = true) gp).
    simpl in H. lia.
Qed.

Lemma addGlowPoint_loop_full n i gp p h s x :
  Forall (fun g => active g = true) gp ->
  addGlowPoint_loop n i gp p h s x = (-1, gp).
Proof.
  intros Hall. revert i. induction n as [|n IH]; intros i; simpl; [reflexivity|].
  destruct (gp !! i) as [g|] eqn:Hg; [|apply IH].
  rewrite Forall_lookup in Hall. rewrite (Hall _ _ Hg). simpl. apply IH.
Qed.

(** A free slot is taken: the first inactive slot becomes an active,
    growing point of intensity 0. *)
Lemma addGlowPoint_loop_free n i gp p h s x :
  (exists j g, (i <= j < i + n)%nat /\ gp !! j = Some g /\ active g = false) ->
  exists j, (i <= j < i + n)%nat /\
    addGlowPoint_loop n i gp p h s x
    = (Z.of_nat j, <[j := newGlowPoint p h s x]> gp).
Proof.
  revert i. induction n as [|n IH]; intros i (j & g & Hj & Hg & Ha); [lia|].
  simpl. destruct (gp !! i) as [g0|] eqn:Hg0.
  - destruct (active g0) eqn:Ha0; simpl.
    + destruct (IH (S i)) as (k & Hk & Hr).
      { exists j, g. repeat split; try assumption; try lia.
        destruct (decide (j = i)) as [->|]; [congruence|lia]. }
      exists k. split; [lia|exact Hr].
    + exists i. split; [lia|reflexivity].
  - destruct (IH (S i)) as (k & Hk & Hr).
    { exists j, g. repeat split; try assumption; try lia.
      destruct (decide (j = i)) as [->|]; [congruence|lia]. }
    exists k. split; [lia|exact Hr].
Qed.

(** [updateGlowPoint] on the array is [updatePoint] on the addressed slot
    and leaves the other slots alone. *)
Lemma updateGlowPoint_slot gp ix g sp t :
  gp !! ix = Some g ->
  snd (fst (updateGlowPoint gp ix sp t)) !! ix = Some (step g sp t) /\
  fst (fst (updateGlowPoint gp ix sp t)) = fst (fst (updatePoint g sp t)) /\
  forall j, j <> ix -> snd (fst (updateGlowPoint gp ix sp t)) !! j = gp !! j.
Proof.
  intros Hg. unfold updateGlowPoint, step. rewrite Hg. unfold bind, ret.
  destruct (updatePoint g sp t) as [[b g'] t']. simpl.
  split; [|split; [reflexivity|]].
  - apply list_lookup_insert_eq. apply lookup_lt_Some in Hg. exact Hg.
  - intros j Hj. apply list_lookup_insert_ne. congruence.
Qed.

End SimplifiedPool.

(** * The pool holds at most [MAX_GLOW_POINTS] active points *)

Module PoolCapacity.
Import FastLED Simplified SimplifiedPool.

(** C1. Whatever sequence of [gentleGlow], [addGlowPoint] and
    [updateGlowPoint] calls runs on the array of [MAX_GLOW_POINTS] slots,
    and whatever the random generator draws, the array keeps its
    [MAX_GLOW_POINTS] slots and so at most [MAX_GLOW_POINTS] of them are
    active; and once all of them are active, [addGlowPoint] returns -1 and
    the spawn step of [gentleGlow] draws nothing, both leaving the array as
    it is. *)
Theorem pool_capacity :
  forall (cs : list Call) (glowPoints : list GlowPoint) (t : list Z),
    length glowPoints = MAX_GLOW_POINTS ->
    let gp := fst (calls cs glowPoints t) in
    length gp = MAX_GLOW_POINTS /\
    (activeCount gp <= MAX_GLOW_POINTS)%nat /\
    (activeCount gp = MAX_GLOW_POINTS ->
     (forall p h s i, addGlowPoint gp p h s i = (-1, gp)) /\
     (forall h b sp s n t', spawn gp h b sp s n t' = (gp, t'))).
Proof.
  intros cs glowPoints t Hlen gp.
  assert (Hl : length gp = MAX_GLOW_POINTS).
  { unfold gp. rewrite calls_length. exact Hlen. }
  split; [exact Hl|]. split.
  - rewrite <- Hl. apply activeCount_le.
  - intros Hfull. split.
    + intros p h s i. unfold addGlowPoint.
      apply addGlowPoint_loop_full, activeCount_full. congruence.
    + intros h b sp s n t'. unfold spawn. rewrite Hfull.
      rewrite Nat.ltb_irrefl. reflexivity.
Qed.

Lemma pool_capacity_witness :
  length fullPool = MAX_GLOW_POINTS /\
  let gp := fst (calls [CallAddGlowPoint 9 9 9 9] fullPool []) in
  length gp = MAX_GLOW_POINTS /\
  (activeCount gp <= MAX_GLOW_POINTS)%nat /\
  (activeCount gp = MAX_GLOW_POINTS ->
   (forall p h s i, addGlowPoint gp p h s i = (-1, gp)) /\
   (forall h b sp s n t', spawn gp h b sp s n t' = (gp, t'))).
Proof.
  split; [reflexivity|].
  apply (pool_capacity [CallAddGlowPoint 9 9 9 9] fullPool []). reflexivity.
Defined.

End PoolCapacity.

(** * The life of one glow point in the simplified revision *)

Module GlowLife.
Import FastLED Simplified SimplifiedPool.

Lemma change_range speed : 0 <= change speed <= 255.
Proof. apply to_uint8_range. Qed.

Lemma change_uint8 speed : 0 <= speed <= 255 -> 1 <= change speed <= 12.
Proof.
  intros H. unfold change.
  rewrite to_uint8_id; unfold is_uint8; Z.quot_rem_to_equations; lia.
Qed.

Lemma newGlowPoint_wellFormed p h s i :
  is_uint8 i -> wellFormed (newGlowPoint p h s i).
Proof. unfold is_uint8, wellFormed. simpl. lia. Qed.

Ltac cases :=
  repeat match goal with
    | |- context [if ?b then _ else _] => destruct b eqn:?
    | H : context [if ?b then _ else _] |- _ => destruct b eqn:?
    end.

Lemma updatePoint_inactive g speed t :
  active g = false -> updatePoint g speed t = ((false, g), t).
Proof. intros Ha. unfold updatePoint. rewrite Ha. reflexivity. Qed.

Lemma updatePoint_growing g speed t :
  active g = true -> state g = 1 ->
  updatePoint g speed t =
    (let c := change speed in
     let n := if 255 - currentIntensity g >? c
              then to_uint8 (currentIntensity g + c) else 255 in
     let n := if n >? maxIntensity g then maxIntensity g else n in
     (true, mkGlowPoint (pos g) (hue g) (spread g) (maxIntensity g) n
              (if n >=? maxIntensity g then 0 else 1) true), t).
Proof.
  destruct g as [p h s m c st a]; simpl. intros -> ->. reflexivity.
Qed.

Lemma updatePoint_stable g speed t :
  active g = true -> state g = 0 ->
  updatePoint g speed t =
    (let r := fst (random8 t) in
     (true, if r <? 5
            then mkGlowPoint (pos g) (hue g) (spread g) (maxIntensity g)
                   (currentIntensity g) (-1) true
            else g), snd (random8 t)).
Proof.
  destruct g as [p h s m c st a]; simpl. intros -> ->.
  unfold updatePoint; simpl. unrand.
  destruct t as [|x t]; simpl; [reflexivity|].
  destruct (_ <? 5); reflexivity.
Qed.

Lemma updatePoint_fading g speed t :
  active g = true -> state g = -1 ->
  updatePoint g speed t =
    (if currentIntensity g <=? change speed
     then (false, mkGlowPoint (pos g) (hue g) (spread g) (maxIntensity g)
                    (currentIntensity g) (-1) false)
     else (true, mkGlowPoint (pos g) (hue g) (spread g) (maxIntensity g)
                   (to_uint8 (currentIntensity g - change speed)) (-1) true), t).
Proof.
  destruct g as [p h s m c st a]; simpl. intros -> ->.
  unfold updatePoint; simpl. unfold ret.
  destruct (c <=? change speed); reflexivity.
Qed.

Lemma step_spec g speed t :
  wellFormed g ->
  let g' := step g speed t in
  wellFormed g' /\
  maxIntensity g' = maxIntensity g /\
  (active g = false -> g' = g) /\
  (active g = true -> state g = 1 ->
     currentIntensity g <= currentIntensity g' /\ active g' = true /\
     (state g' = 1 \/ state g' = 0)) /\
  (active g = true -> state g = 0 ->
     currentIntensity g' = currentIntensity g /\ active g' = true /\
     (state g' = 0 \/ state g' = -1)) /\
  (active g = true -> state g = -1 ->
     currentIntensity g' <= currentIntensity g /\ state g' = -1 /\
     (active g' = false <-> currentIntensity g <= change speed)) /\
  (state g <> 1 -> state g' <> 1).
Proof.
  intros (Hc & Hm & Hs). unfold step.
  pose proof (change_range speed) as Hch.
  destruct (active g) eqn:Ha.
  2:{ rewrite updatePoint_inactive by exact Ha. simpl. unfold wellFormed.
      repeat split; try congruence; try lia; tauto. }
  destruct Hs as [Hs|[Hs|Hs]].
  - (* growing *)
    rewrite updatePoint_growing by assumption. cbv zeta. simpl.
    unfold wellFormed; simpl.
    destruct (255 - currentIntensity g >? change speed) eqn:E1.
    + rewrite (to_uint8_id (currentIntensity g + change speed))
        by (unfold is_uint8; lia).
      cases; simpl; repeat split; intros; try lia; try congruence; auto.
    + cases; simpl; repeat split; intros; try lia; try congruence; auto.
  - (* stable *)
    rewrite updatePoint_stable by assumption. cbv zeta. simpl.
    destruct (_ <? 5); unfold wellFormed; simpl; rewrite ?Hs;
      repeat split; intros; try lia; try congruence; auto.
  - (* fading *)
    rewrite updatePoint_fading by assumption.
    destruct (currentIntensity g <=? change speed) eqn:E1; simpl.
    + unfold wellFormed; simpl.
      repeat split; intros; try lia; try congruence; auto.
    + rewrite (to_uint8_id (currentIntensity g - change speed))
        by (unfold is_uint8; lia).
      unfold wellFormed; simpl.
      repeat split; intros; try lia; try congruence; auto.
Qed.

Lemma lifetime_cons g speed rest t :
  fst (lifetime g (speed :: rest) t)
  = g :: fst (lifetime (step g speed t) rest (snd (updatePoint g speed t))).
Proof.
  simpl. unfold bind, ret, step.
  destruct (updatePoint g speed t) as [[b g'] t1]. simpl.
  destruct (lifetime g' rest t1) as [tr t2]. reflexivity.
Qed.

Lemma lifetime_head g speeds t : fst (lifetime g speeds t) !! 0%nat = Some g.
Proof. destruct speeds; [reflexivity|]. rewrite lifetime_cons. reflexivity. Qed.

(** Neighbours in the trace are one [updateGlowPoint] call apart. *)
Lemma lifetime_adjacent speeds : forall g t k a b,
  fst (lifetime g speeds t) !! k = Some a ->
  fst (lifetime g speeds t) !! S k = Some b ->
  exists speed t', speeds !! k = Some speed /\ b = step a speed t'.
Proof.
  induction speeds as [|speed rest IH]; intros g t k a b Ha Hb.
  - simpl in Hb. discriminate.
  - rewrite lifetime_cons in Ha, Hb. destruct k as [|k].
    + simpl in Ha, Hb. inversion Ha; subst a.
      rewrite lifetime_head in Hb. inversion Hb. eauto.
    + simpl in Ha, Hb. simpl. eapply IH; eassumption.
Qed.

Lemma lifetime_wellFormed speeds g t k a :
  wellFormed g ->
  fst (lifetime g speeds t) !! k = Some a ->
  wellFormed a /\ maxIntensity a = maxIntensity g.
Proof.
  intros Hg. revert a. induction k as [|k IH]; intros a Ha.
  - rewrite lifetime_head in Ha. inversion Ha; subst. auto.
  - destruct (fst (lifetime g speeds t) !! k) as [a0|] eqn:Hk.
    + destruct (IH a0 eq_refl) as [Hw Hm].
      destruct (lifetime_adjacent _ _ _ _ _ _ Hk Ha) as (sp & t' & _ & ->).
      destruct (step_spec a0 sp t' Hw) as (Hw' & Hm' & _). split; [exact Hw'|congruence].
    + apply lookup_ge_None in Hk. apply lookup_lt_Some in Ha. lia.
Qed.

Lemma lifetime_not_growing speeds g t : wellFormed g -> forall d j a b,
  fst (lifetime g speeds t) !! j = Some a ->
  fst (lifetime g speeds t) !! (j + d)%nat = Some b ->
  state a <> 1 -> state b <> 1.
Proof.
  intros Hg. induction d as [|d IH]; intros j a b Ha Hb Hs.
  - rewrite Nat.add_0_r in Hb. congruence.
  - replace (j + S d)%nat with (S (j + d)) in Hb by lia.
    destruct (fst (lifetime g speeds t) !! (j + d)%nat) as [c|] eqn:Hc.
    + destruct (lifetime_adjacent _ _ _ _ _ _ Hc Hb) as (sp & t' & _ & ->).
      destruct (lifetime_wellFormed _ _ _ _ _ Hg Hc) as [Hw _].
      destruct (step_spec c sp t' Hw) as (_ & _ & _ & _ & _ & _ & Hn).
      apply Hn. apply (IH j a c); assumption.
    + apply lookup_ge_None in Hc. apply lookup_lt_Some in Hb. lia.
Qed.

(** What a call in the fading state does to the stored intensity. *)
Lemma step_fading g speed t :
  wellFormed g -> active g = true -> state g = -1 ->
  (active (step g speed t) = false <-> currentIntensity g <= change speed) /\
  (active (step g speed t) = false ->
     currentIntensity (step g speed t) = currentIntensity g) /\
  (active (step g speed t) = true ->
     currentIntensity (step g speed t) = currentIntensity g - change speed).
Proof.
  intros (Hc & Hm & _) Ha Hs. unfold step.
  pose proof (change_range speed) as Hch.
  rewrite updatePoint_fading by assumption.
  destruct (currentIntensity g <=? change speed) eqn:E; simpl.
  - apply Z.leb_le in E. repeat split; intros; try lia; try congruence.
  - apply Z.leb_gt in E.
    rewrite (to_uint8_id (currentIntensity g - change speed))
      by (unfold is_uint8; lia).
    repeat split; intros; try lia; try congruence.
Qed.

(** Once a point with a target above 0 has stopped growing, its stored
    intensity is above 0, and stays so. *)
Lemma step_positive g speed t :
  wellFormed g -> 0 < maxIntensity g ->
  (state g <> 1 -> 0 < currentIntensity g) ->
  state (step g speed t) <> 1 -> 0 < currentIntensity (step g speed t).
Proof.
  intros Hw Hmax Hpos.
  pose proof Hw as (Hc & Hm & Hs). unfold step.
  pose proof (change_range speed) as Hch.
  destruct (active g) eqn:Ha.
  2:{ rewrite updatePoint_inactive by exact Ha. simpl. exact Hpos. }
  destruct Hs as [Hs|[Hs|Hs]].
  - rewrite updatePoint_growing by assumption. cbv zeta. simpl.
    destruct (255 - currentIntensity g >? change speed) eqn:E1.
    + rewrite (to_uint8_id (currentIntensity g + change speed))
        by (unfold is_uint8; lia).
      cases; simpl; intros; try lia; try congruence.
    + cases; simpl; intros; try lia; try congruence.
  - rewrite updatePoint_stable by assumption. cbv zeta. simpl.
    destruct (_ <? 5); simpl; intros _; apply Hpos; lia.
  - rewrite updatePoint_fading by assumption.
    destruct (currentIntensity g <=? change speed) eqn:E1; simpl; intros _.
    + apply Hpos. lia.
    + apply Z.leb_gt in E1.
      rewrite (to_uint8_id (currentIntensity g - change speed))
        by (unfold is_uint8; lia).
      lia.
Qed.

Lemma lifetime_positive speeds g t k a :
  wellFormed g -> 0 < maxIntensity g -> state g = 1 ->
  fst (lifetime g speeds t) !! k = Some a ->
  state a <> 1 -> 0 < currentIntensity a.
Proof.
  intros Hg Hmax Hs1. revert a. induction k as [|k IH]; intros a Ha.
  - rewrite lifetime_head in Ha. inversion Ha; subst. congruence.
  - destruct (fst (lifetime g speeds t) !! k) as [a0|] eqn:Hk.
    + destruct (lifetime_wellFormed _ _ _ _ _ Hg Hk) as [Hw Hm].
      destruct (lifetime_adjacent _ _ _ _ _ _ Hk Ha) as (sp & t' & _ & ->).
      apply step_positive; [exact Hw|lia|exact (IH a0 eq_refl)].
    + apply lookup_ge_None in Hk. apply lookup_lt_Some in Ha. lia.
Qed.

(** C2, as the code has it.  A glow point spawned with a target intensity
    [target] starts at intensity 0 in the growing state.  Over any sequence
    of [updateGlowPoint] calls on it, with any speeds and any random draws:
    its stored intensity stays within 0 and [target], which never changes;
    a call in the growing state does not lower the intensity, a call in the
    stable state keeps it, a call in the fading state does not raise it.
    The point is deactivated only by a call in the fading state, and by
    that call exactly when it finds the intensity at or below the step
    [change speed = max(1, speed / 20)]: the call then leaves the stored
    intensity as it is, and otherwise lowers it by the step.  So the point
    does not deactivate at 0: for a target above 0 its stored intensity is
    above 0 from the end of the growth on, also when it is deactivated.
    An inactive point is left alone by further calls, and once its state
    is not growing it is never growing again. *)
Theorem glow_point_intensity_trace :
  forall (p h s target : Z) (speeds : list Z) (t : list Z),
    is_uint8 target ->
    let tr := fst (lifetime (newGlowPoint p h s target) speeds t) in
    (exists g0, tr !! 0%nat = Some g0 /\ currentIntensity g0 = 0 /\
                state g0 = 1 /\ active g0 = true) /\
    (forall k g, tr !! k = Some g ->
       maxIntensity g = target /\
       0 <= currentIntensity g <= target /\
       (0 < target -> state g <> 1 -> 0 < currentIntensity g)) /\
    (forall k g g' speed,
       tr !! k = Some g -> tr !! S k = Some g' -> speeds !! k = Some speed ->
       (active g = true -> state g = 1 ->
          currentIntensity g <= currentIntensity g' /\ active g' = true) /\
       (active g = true -> state g = 0 ->
          currentIntensity g' = currentIntensity g /\ active g' = true) /\
       (active g = true -> state g = -1 ->
          currentIntensity g' <= currentIntensity g /\
          (active g' = false <-> currentIntensity g <= change speed) /\
          (active g' = false -> currentIntensity g' = currentIntensity g) /\
          (active g' = true ->
             currentIntensity g' = currentIntensity g - change speed)) /\
       (active g = true -> active g' = false -> state g = -1) /\
       (active g = false -> g' = g)) /\
    (forall j k g g', (j <= k)%nat -> tr !! j = Some g -> tr !! k = Some g' ->
       state g <> 1 -> state g' <> 1).
Proof.
  intros p h s target speeds t Ht tr.
  pose proof (newGlowPoint_wellFormed p h s target Ht) as Hw0.
  split; [|split; [|split]].
  - exists (newGlowPoint p h s target). unfold tr. rewrite lifetime_head.
    repeat split; reflexivity.
  - intros k g Hg.
    destruct (lifetime_wellFormed _ _ _ _ _ Hw0 Hg) as [(Hc & Hm & _) Hmx].
    simpl in Hmx. split; [exact Hmx|]. split; [lia|].
    intros Hpos.
    apply (lifetime_positive speeds _ t k g Hw0); [simpl; lia|reflexivity|].
    exact Hg.
  - intros k g g' speed Hg Hg' Hsp.
    destruct (lifetime_adjacent _ _ _ _ _ _ Hg Hg') as (sp & t' & Hsp' & ->).
    assert (sp = speed) by congruence. subst sp.
    destruct (lifetime_wellFormed _ _ _ _ _ Hw0 Hg) as [Hw _].
    destruct (step_spec g speed t' Hw) as (Hw' & _ & Hi & Hgr & Hst & Hfa & _).
    split; [|split; [|split; [|split]]].
    + intros Ha Hs1. destruct (Hgr Ha Hs1) as (H1 & H2 & _). auto.
    + intros Ha Hs0. destruct (Hst Ha Hs0) as (H1 & H2 & _). auto.
    + intros Ha Hsf. destruct (Hfa Ha Hsf) as (H1 & _).
      destruct (step_fading g speed t' Hw Ha Hsf) as (F1 & F2 & F3). auto.
    + intros Ha Hna. destruct Hw as (_ & _ & [Hs|[Hs|Hs]]); [| |exact Hs].
      * destruct (Hgr Ha Hs) as (_ & H2 & _). congruence.
      * destruct (Hst Ha Hs) as (_ & H2 & _). congruence.
    + exact Hi.
  - intros j k g g' Hjk Hg Hg'. replace k with (j + (k - j))%nat in Hg' by lia.
    eapply lifetime_not_growing; eassumption.
Qed.

Lemma glow_point_intensity_trace_witness :
  is_uint8 100 /\
  let tr := fst (lifetime (newGlowPoint 7 160 5 100) [255; 255; 40] [9; 3]) in
  exists g0, tr !! 0%nat = Some g0 /\ currentIntensity g0 = 0 /\
             state g0 = 1 /\ active g0 = true.
Proof.
  assert (H : is_uint8 100) by (unfold is_uint8; lia).
  split; [exact H|].
  exact (proj1 (glow_point_intensity_trace 7 160 5 100 [255; 255; 40] [9; 3] H)).
Defined.

(** C2 fails at the end of the trace.  A point with target 10, updated at
    speed 255 (step 12), grows to 10, is stable, starts fading on a draw
    below 5, and is deactivated by the next call, which finds 10 <= 12: the
    intensity stored in the deactivated slot is 10, not 0. *)
Lemma deactivates_above_zero :
  is_uint8 10 /\ change 255 = 12 /\
  fst (lifetime (newGlowPoint 7 160 5 10) [255; 255; 255] [0])
  = [ mkGlowPoint 7 160 5 10 0 1 true;
      mkGlowPoint 7 160 5 10 10 0 true;
      mkGlowPoint 7 160 5 10 10 (-1) true;
      mkGlowPoint 7 160 5 10 10 (-1) false ].
Proof.
  split; [unfold is_uint8; lia|]. split; vm_compute; reflexivity.
Qed.

End GlowLife.

(** * Crossfade transitions *)

Module Crossfade.
Import FastLED.

(** ** The pixel loop *)

Lemma for_each_led_ext {A} (f g : nat -> list A -> list A) n :
  (forall i a, f i a = g i a) ->
  forall i a, for_each_led n i f a = for_each_led n i g a.
Proof.
  intros E. induction n as [|n IH]; intros i a; simpl; [reflexivity|].
  rewrite E. apply IH.
Qed.

Lemma pointwise_length {A} (v : nat -> option A -> option A) i a :
  length (pointwise v i a) = length a.
Proof. unfold pointwise. destruct (v i (a !! i)); [apply length_insert|reflexivity]. Qed.

Lemma pointwise_other {A} (v : nat -> option A -> option A) i j (a : list A) :
  i <> j -> pointwise v i a !! j = a !! j.
Proof.
  intros Hne. unfold pointwise.
  destruct (v i (a !! i)); [|reflexivity]. by apply list_lookup_insert_ne.
Qed.

Lemma for_each_led_length {A} (v : nat -> option A -> option A) n :
  forall i a, length (for_each_led n i (pointwise v) a) = length a.
Proof.
  induction n as [|n IH]; intros i a; simpl; [reflexivity|].
  rewrite IH. apply pointwise_length.
Qed.

Lemma for_each_led_before {A} (v : nat -> option A -> option A) n :
  forall i (a : list A) j, (j < i)%nat ->
    for_each_led n i (pointwise v) a !! j = a !! j.
Proof.
  induction n as [|n IH]; intros i a j Hj; simpl; [reflexivity|].
  rewrite IH by lia. apply pointwise_other. lia.
Qed.

(** Pixel [j] of the range is written once, from its value on entry. *)
Lemma for_each_led_lookup {A} (v : nat -> option A -> option A) n :
  forall i (a : list A) j c, (i <= j < i + n)%nat -> (j < length a)%nat ->
    v j (a !! j) = Some c ->
    for_each_led n i (pointwise v) a !! j = Some c.
Proof.
  induction n as [|n IH]; intros i a j c Hr Hl Hv; [lia|]. simpl.
  destruct (decide (j = i)) as [->|Hne].
  - rewrite for_each_led_before by lia. unfold pointwise. rewrite Hv.
    by apply list_lookup_insert_eq.
  - apply IH; [lia|rewrite pointwise_length; exact Hl|].
    rewrite pointwise_other by congruence. exact Hv.
Qed.

(** Copying a whole array pixel by pixel gives that array. *)
Lemma for_each_led_copy {A} (src a : list A) :
  length src = length a ->
  for_each_led (length a) 0
    (fun i a => match src !! i with Some c => <[i := c]> a | None => a end) a
  = src.
Proof.
  intros Hlen.
  rewrite (for_each_led_ext _ (pointwise (fun i _ => src !! i)))
    by reflexivity.
  apply list_eq. intros j.
  destruct (src !! j) as [c|] eqn:Hc.
  - apply for_each_led_lookup; [|rewrite <- Hlen|exact Hc];
      apply lookup_lt_Some in Hc; lia.
  - apply lookup_ge_None. rewrite for_each_led_length.
    apply lookup_ge_None in Hc. lia.
Qed.

(** [captureCurrentState] and [startTransition] of both revisions. *)
Lemma simplified_capture tr :
  length (Simplified.leds tr) = Simplified.numLeds tr ->
  length (Simplified.prevLeds tr) = Simplified.numLeds tr ->
  Simplified.prevLeds (Simplified.captureCurrentState tr) = Simplified.leds tr /\
  Simplified.leds (Simplified.captureCurrentState tr) = Simplified.leds tr.
Proof.
  intros Hl Hp. unfold Simplified.captureCurrentState. simpl.
  split; [|reflexivity]. rewrite <- Hp. apply for_each_led_copy. lia.
Qed.

Lemma buffered_startTransition tr duration now :
  length (Buffered._leds tr) = Buffered._numLeds tr ->
  length (Buffered._previousLeds tr) = Buffered._numLeds tr ->
  let tr' := Buffered.startTransition tr duration now in
  Buffered._previousLeds tr' = Buffered._leds tr /\
  Buffered._leds tr' = Buffered._leds tr /\
  Buffered._targetLeds tr' = Buffered._targetLeds tr /\
  Buffered._isTransitioning tr' = true /\
  Buffered._transitionStartTime tr' = now /\
  Buffered._transitionDuration tr' = duration.
Proof.
  intros Hl Hp. unfold Buffered.startTransition, Buffered.captureCurrentState.
  simpl. repeat split. rewrite <- Hp. apply for_each_led_copy. lia.
Qed.

(** ** [blend8] and [blend] *)

Lemma blend8_between a b amount :
  is_uint8 a -> is_uint8 b -> 0 <= amount <= 255 ->
  between a b (blend8 a b amount).
Proof.
  unfold is_uint8, between, blend8. intros Ha Hb Hm. cbv zeta.
  rewrite Z.shiftr_div_pow2 by lia. change (2 ^ 8) with 256.
  rewrite Z.mod_small by nia.
  split.
  - apply Z.div_le_lower_bound; [lia|]. nia.
  - assert (H : (a * (255 - amount) + a + b * amount + b) / 256
                < Z.max a b + 1); [|lia].
    apply Z.div_lt_upper_bound; [lia|]. nia.
Qed.

Lemma blend_between p c amount :
  uint8_pixel p -> uint8_pixel c -> 0 <= amount <= 255 ->
  pixel_between p c (blend p c amount).
Proof.
  intros (Hp1 & Hp2 & Hp3) (Hc1 & Hc2 & Hc3) Hm.
  unfold blend, pixel_between, between.
  destruct (amount =? 0); [lia|]. destruct (amount =? 255); [lia|].
  simpl. repeat split; apply blend8_between; assumption.
Qed.

Lemma blend_0 p c : blend p c 0 = p.
Proof. reflexivity. Qed.

(** ** The revision with a target buffer *)

Lemma progress_spec elapsed duration :
  0 <= elapsed < duration -> duration <= 65535 ->
  Buffered.progress elapsed duration = elapsed * 255 / duration /\
  0 <= Buffered.progress elapsed duration <= 254.
Proof.
  intros He Hd. unfold Buffered.progress, Arduino.map.
  rewrite !Z.sub_0_r, Z.add_0_r. rewrite Z.quot_div_nonneg by lia.
  assert (0 <= elapsed * 255 / duration < 255).
  { split; [apply Z.div_pos; lia|]. apply Z.div_lt_upper_bound; lia. }
  rewrite to_uint8_id by (unfold is_uint8; lia). lia.
Qed.

Lemma progress_0 duration : 0 < duration -> Buffered.progress 0 duration = 0.
Proof.
  intros Hd. unfold Buffered.progress, Arduino.map. simpl.
  rewrite Z.quot_0_l by lia. reflexivity.
Qed.

Lemma buffered_blend_loop (prev tgt a : list CRGB) pr n j p c :
  (j < n)%nat -> (j < length a)%nat ->
  prev !! j = Some p -> tgt !! j = Some c ->
  for_each_led n 0
    (fun i a => match prev !! i, tgt !! i with
                | Some p, Some c => <[i := Buffered.blendColors p c pr]> a
                | _, _ => a
                end) a !! j
  = Some (blend p c pr).
Proof.
  intros Hn Hl Hp Hc.
  rewrite (for_each_led_ext _
    (pointwise (fun i _ => match prev !! i, tgt !! i with
                           | Some p, Some c => Some (blend p c pr)
                           | _, _ => None
                           end))).
  - apply for_each_led_lookup; [lia|exact Hl|]. rewrite Hp, Hc. reflexivity.
  - intros i b. unfold pointwise, Buffered.blendColors.
    destruct (prev !! i); [destruct (tgt !! i)|]; reflexivity.
Qed.

Lemma buffered_blend_loop_length (prev tgt a : list CRGB) pr n :
  length (for_each_led n 0
    (fun i a => match prev !! i, tgt !! i with
                | Some p, Some c => <[i := Buffered.blendColors p c pr]> a
                | _, _ => a
                end) a) = length a.
Proof.
  rewrite (for_each_led_ext _
    (pointwise (fun i _ => match prev !! i, tgt !! i with
                           | Some p, Some c => Some (blend p c pr)
                           | _, _ => None
                           end))).
  - apply for_each_led_length.
  - intros i b. unfold pointwise, Buffered.blendColors.
    destruct (prev !! i); [destruct (tgt !! i)|]; reflexivity.
Qed.

Lemma buffered_tick (tr : Buffered.Transition) (now : Z) :
  Buffered.buffered_ok tr -> Buffered._isTransitioning tr = true ->
  let elapsed := to_uint32 (now - Buffered._transitionStartTime tr) in
  let duration := Buffered._transitionDuration tr in
  let r := Buffered.updateTransitions tr now in
  Buffered._previousLeds (snd r) = Buffered._previousLeds tr /\
  Buffered._targetLeds (snd r) = Buffered._targetLeds tr /\
  (elapsed < duration ->
     fst r = true /\ Buffered._isTransitioning (snd r) = true /\
     Buffered.progress elapsed duration = elapsed * 255 / duration /\
     (forall i p c,
        Buffered._previousLeds tr !! i = Some p ->
        Buffered._targetLeds tr !! i = Some c ->
        let x := blend p c (Buffered.progress elapsed duration) in
        Buffered._leds (snd r) !! i = Some x /\ pixel_between p c x) /\
     (elapsed = 0 -> Buffered.progress elapsed duration = 0) /\
     (Buffered.progress elapsed duration = 0 ->
        Buffered._leds (snd r) = Buffered._previousLeds tr)) /\
  (duration <= elapsed ->
     fst r = false /\ Buffered._isTransitioning (snd r) = false /\
     Buffered._leds (snd r) = Buffered._targetLeds tr).
Proof.
  intros (Hl & Ht & Hp & Ut & Up & Hd) Hact elapsed duration r.
  unfold r, Buffered.updateTransitions. rewrite Hact. simpl.
  fold elapsed. fold duration.
  destruct (elapsed >=? duration) eqn:E; simpl.
  - split; [reflexivity|]. split; [reflexivity|]. split; [lia|].
    intros _. repeat split. rewrite <- Hl. apply for_each_led_copy. lia.
  - split; [reflexivity|]. split; [reflexivity|]. split; [|lia].
    intros Hlt.
    assert (He : 0 <= elapsed < duration).
    { unfold elapsed, to_uint32 in *.
      pose proof (Z.mod_pos_bound (now - Buffered._transitionStartTime tr)
                    4294967296). lia. }
    destruct (progress_spec elapsed duration He) as [Hpr Hrg]; [lia|].
    split; [reflexivity|]. split; [reflexivity|]. split; [exact Hpr|]. split.
    + intros i p c Hpi Hci. cbv zeta. split.
      * apply buffered_blend_loop; try assumption;
          apply lookup_lt_Some in Hpi; lia.
      * apply blend_between; [| |lia].
        -- rewrite Forall_lookup in Up. eapply Up; eassumption.
        -- rewrite Forall_lookup in Ut. eapply Ut; eassumption.
    + split; [intros E0; rewrite E0; apply progress_0; lia|].
      intros E0. apply list_eq. intros j.
      destruct (Buffered._previousLeds tr !! j) as [p|] eqn:Hpj.
      * assert (Hj : (j < Buffered._numLeds tr)%nat)
          by (apply lookup_lt_Some in Hpj; lia).
        destruct (lookup_lt_is_Some_2 (Buffered._targetLeds tr) j) as [c Hcj];
          [lia|].
        rewrite (buffered_blend_loop _ _ _ _ _ _ p c) by (assumption || lia).
        rewrite E0. reflexivity.
      * apply lookup_ge_None. rewrite buffered_blend_loop_length.
        apply lookup_ge_None in Hpj. lia.
Qed.

(** ** The simplified revision *)

Lemma blendAmount_spec elapsed duration :
  0 <= elapsed < duration ->
  Simplified.blendAmount elapsed duration = elapsed * 255 / duration /\
  0 <= Simplified.blendAmount elapsed duration <= 254.
Proof.
  intros He. unfold Simplified.blendAmount.
  rewrite Z.quot_div_nonneg by lia.
  assert (0 <= elapsed * 255 / duration < 255).
  { split; [apply Z.div_pos; lia|]. apply Z.div_lt_upper_bound; lia. }
  rewrite to_uint8_id by (unfold is_uint8; lia). lia.
Qed.

Lemma simplified_blend_loop_ext (prev : list CRGB) amount n a :
  for_each_led n 0
    (fun i a => match prev !! i, a !! i with
                | Some p, Some c => <[i := blend p c amount]> a
                | _, _ => a
                end) a
  = for_each_led n 0
      (pointwise (fun i o => match prev !! i, o with
                             | Some p, Some c => Some (blend p c amount)
                             | _, _ => None
                             end)) a.
Proof.
  apply for_each_led_ext. intros i b. unfold pointwise.
  destruct (prev !! i); [destruct (b !! i)|]; reflexivity.
Qed.

Lemma simplified_tick (tr : Simplified.Transition) (now : Z) :
  Simplified.simplified_ok tr -> Simplified.transitionActive tr = true ->
  let elapsed := to_uint32 (now - Simplified.transitionStartTime tr) in
  let duration := Simplified.transitionDuration tr in
  let r := Simplified.updateTransitions tr now in
  Simplified.prevLeds (snd r) = Simplified.prevLeds tr /\
  (elapsed < duration ->
     fst r = true /\ Simplified.transitionActive (snd r) = true /\
     Simplified.blendAmount elapsed duration = elapsed * 255 / duration /\
     (forall i p c,
        Simplified.prevLeds tr !! i = Some p ->
        Simplified.leds tr !! i = Some c ->
        let x := blend p c (Simplified.blendAmount elapsed duration) in
        Simplified.leds (snd r) !! i = Some x /\ pixel_between p c x) /\
     (elapsed = 0 -> Simplified.blendAmount elapsed duration = 0) /\
     (Simplified.blendAmount elapsed duration = 0 ->
        Simplified.leds (snd r) = Simplified.prevLeds tr)) /\
  (duration <= elapsed ->
     fst r = false /\ Simplified.transitionActive (snd r) = false /\
     Simplified.leds (snd r) = Simplified.leds tr).
Proof.
  intros (Hl & Hp & Ul & Up & Hd) Hact elapsed duration r.
  unfold r, Simplified.updateTransitions. rewrite Hact. simpl.
  fold elapsed. fold duration.
  destruct (elapsed >=? duration) eqn:E; simpl.
  - split; [reflexivity|]. split; [lia|]. intros _. repeat split.
  - split; [reflexivity|]. split; [|lia]. intros Hlt.
    assert (He : 0 <= elapsed < duration).
    { unfold elapsed, to_uint32 in *.
      pose proof (Z.mod_pos_bound (now - Simplified.transitionStartTime tr)
                    4294967296). lia. }
    destruct (blendAmount_spec elapsed duration He) as [Ham Hrg].
    rewrite simplified_blend_loop_ext.
    split; [reflexivity|]. split; [reflexivity|]. split; [exact Ham|]. split.
    + intros i p c Hpi Hci. cbv zeta. split.
      * apply for_each_led_lookup.
        -- apply lookup_lt_Some in Hpi. lia.
        -- apply lookup_lt_Some in Hci. lia.
        -- rewrite Hpi, Hci. reflexivity.
      * apply blend_between; [| |lia].
        -- rewrite Forall_lookup in Up. eapply Up; eassumption.
        -- rewrite Forall_lookup in Ul. eapply Ul; eassumption.
    + split.
      { intros E0. rewrite E0. unfold Simplified.blendAmount. simpl.
        rewrite Z.quot_0_l by lia. reflexivity. }
      intros E0. apply list_eq. intros j.
      destruct (Simplified.prevLeds tr !! j) as [p|] eqn:Hpj.
      * assert (Hj : (j < Simplified.numLeds tr)%nat)
          by (apply lookup_lt_Some in Hpj; lia).
        destruct (lookup_lt_is_Some_2 (Simplified.leds tr) j) as [c Hcj];
          [lia|].
        apply for_each_led_lookup; [lia|lia|].
        rewrite Hpj, Hcj, E0. reflexivity.
      * apply lookup_ge_None. rewrite for_each_led_length.
        apply lookup_ge_None in Hpj. lia.
Qed.

(** C3, as the code has it.  A tick of an active transition takes
    [elapsed = now - start] (32-bit).  While [elapsed] is below the
    duration it blends with the amount [elapsed * 255 / duration], a byte
    below 255, and stays active: each pixel becomes FastLED's [blend] of
    the previous pixel and the pixel blended towards, every channel lying
    between the two; when the amount is 0, as it is at [elapsed = 0], the
    LED array equals the previous buffer.  Once [elapsed] reaches the duration the transition is marked
    inactive.  The pixel blended towards is that of the target buffer in
    the revision that has one, and there the finished transition copies
    the target buffer into the LED array; in the simplified revision it is
    the pixel currently in the LED array, and a finished transition leaves
    the LED array as it is. *)
Theorem crossfade_tick :
  (forall (tr : Buffered.Transition) (now : Z),
     Buffered.buffered_ok tr -> Buffered._isTransitioning tr = true ->
     let elapsed := to_uint32 (now - Buffered._transitionStartTime tr) in
     let duration := Buffered._transitionDuration tr in
     let r := Buffered.updateTransitions tr now in
     (elapsed < duration ->
        fst r = true /\ Buffered._isTransitioning (snd r) = true /\
        Buffered.progress elapsed duration = elapsed * 255 / duration /\
        (forall i p c,
           Buffered._previousLeds tr !! i = Some p ->
           Buffered._targetLeds tr !! i = Some c ->
           let x := blend p c (Buffered.progress elapsed duration) in
           Buffered._leds (snd r) !! i = Some x /\ pixel_between p c x) /\
        (elapsed = 0 -> Buffered.progress elapsed duration = 0) /\
        (Buffered.progress elapsed duration = 0 ->
           Buffered._leds (snd r) = Buffered._previousLeds tr)) /\
     (duration <= elapsed ->
        fst r = false /\ Buffered._isTransitioning (snd r) = false /\
        Buffered._leds (snd r) = Buffered._targetLeds tr)) /\
  (forall (tr : Simplified.Transition) (now : Z),
     Simplified.simplified_ok tr -> Simplified.transitionActive tr = true ->
     let elapsed := to_uint32 (now - Simplified.transitionStartTime tr) in
     let duration := Simplified.transitionDuration tr in
     let r := Simplified.updateTransitions tr now in
     (elapsed < duration ->
        fst r = true /\ Simplified.transitionActive (snd r) = true /\
        Simplified.blendAmount elapsed duration = elapsed * 255 / duration /\
        (forall i p c,
           Simplified.prevLeds tr !! i = Some p ->
           Simplified.leds tr !! i = Some c ->
           let x := blend p c (Simplified.blendAmount elapsed duration) in
           Simplified.leds (snd r) !! i = Some x /\ pixel_between p c x) /\
        (elapsed = 0 -> Simplified.blendAmount elapsed duration = 0) /\
        (Simplified.blendAmount elapsed duration = 0 ->
           Simplified.leds (snd r) = Simplified.prevLeds tr)) /\
     (duration <= elapsed ->
        fst r = false /\ Simplified.transitionActive (snd r) = false /\
        Simplified.leds (snd r) = Simplified.leds tr)).
Proof.
  split.
  - intros tr now Hok Hact. apply (buffered_tick tr now Hok Hact).
  - intros tr now Hok Hact. apply (simplified_tick tr now Hok Hact).
Qed.

Lemma buffered_sample_ok : Buffered.buffered_ok Buffered.startedTransition.
Proof.
  unfold Buffered.buffered_ok, uint8_pixel, is_uint8. simpl.
  repeat split; try lia; repeat constructor; simpl; lia.
Defined.

Lemma simplified_sample_ok :
  Simplified.simplified_ok Simplified.startedTransition.
Proof.
  unfold Simplified.simplified_ok, uint8_pixel, is_uint8. simpl.
  repeat split; try lia; repeat constructor; simpl; lia.
Defined.

Lemma crossfade_tick_witness :
  (Buffered.buffered_ok Buffered.startedTransition /\
   Buffered._isTransitioning Buffered.startedTransition = true /\
   1000 <= to_uint32 (1000 - 0) /\
   Buffered._leds (snd (Buffered.updateTransitions Buffered.startedTransition 1000))
   = Buffered._targetLeds Buffered.startedTransition) /\
  (Simplified.simplified_ok Simplified.startedTransition /\
   Simplified.transitionActive Simplified.startedTransition = true /\
   to_uint32 (0 - 0) = 0 /\
   Simplified.leds (snd (Simplified.updateTransitions Simplified.startedTransition 0))
   = Simplified.prevLeds Simplified.startedTransition).
Proof.
  split.
  - split; [exact buffered_sample_ok|]. split; [reflexivity|].
    split; [vm_compute; discriminate|].
    destruct (proj1 crossfade_tick Buffered.startedTransition 1000
                buffered_sample_ok eq_refl) as [_ H].
    apply H. vm_compute. discriminate.
  - split; [exact simplified_sample_ok|]. split; [reflexivity|].
    split; [reflexivity|].
    destruct (proj2 crossfade_tick Simplified.startedTransition 0
                simplified_sample_ok eq_refl) as [H _].
    apply H; [vm_compute; reflexivity|]. vm_compute. reflexivity.
Defined.

(** C3 fails on the simplified revision, which blends into the LED array
    itself.  The array holds the rendered red frame when the transition of
    1000 ms starts at time 0.  The tick at 500 ms overwrites it with the
    half-way blend; the tick at 1000 ms ends the transition and writes
    nothing: the array is left at the half-way blend, not at the frame the
    transition was started towards. *)
Lemma crossfade_simplified_residual :
  let target := Simplified.leds Simplified.startedTransition in
  let tr1 := snd (Simplified.updateTransitions Simplified.startedTransition 500) in
  let r := Simplified.updateTransitions tr1 1000 in
  Simplified.startedTransition
  = Simplified.startTransition
      (Simplified.mkTransition [mkCRGB 200 0 0]
         (Simplified.prevLeds
            (Simplified.captureCurrentState
               (Simplified.mkTransition [Black] [mkCRGB 9 9 9] 1 0 0 false)))
         1 0 0 false)
      1000 0 /\
  target = [mkCRGB 200 0 0] /\
  Simplified.leds tr1 = [mkCRGB 100 0 0] /\
  fst r = false /\
  Simplified.transitionActive (snd r) = false /\
  Simplified.leds (snd r) = [mkCRGB 100 0 0] /\
  Simplified.leds (snd r) <> target.
Proof. vm_compute. repeat split; discriminate. Qed.

End Crossfade.

(** * One lifecycle step, in both revisions *)

Module LifecycleStep.
Import FastLED.

Lemma simplified_step (g : Simplified.GlowPoint) (speed : Z) (t : list Z) :
  Simplified.wellFormed g -> Simplified.active g = true ->
  0 <= speed <= 255 ->
  let c := Simplified.change speed in
  let g' := Simplified.step g speed t in
  c = Z.max 1 (speed / 20) /\
  (Simplified.state g = 1 ->
     Simplified.currentIntensity g'
     = Z.min (Simplified.currentIntensity g + c) (Simplified.maxIntensity g) /\
     Simplified.active g' = true /\
     (Simplified.state g' = 0 <->
      Simplified.currentIntensity g' = Simplified.maxIntensity g) /\
     (Simplified.state g' = 1 \/ Simplified.state g' = 0)) /\
  (Simplified.state g = -1 ->
     Simplified.state g' = -1 /\
     (Simplified.currentIntensity g <= c -> Simplified.active g' = false) /\
     (c < Simplified.currentIntensity g ->
        Simplified.active g' = true /\
        Simplified.currentIntensity g' = Simplified.currentIntensity g - c)).
Proof.
  intros (Hc & Hm & Hs) Ha Hsp c g'.
  assert (Hcv : c = Z.max 1 (speed / 20)).
  { unfold c, Simplified.change. rewrite Z.quot_div_nonneg by lia.
    apply to_uint8_id. unfold is_uint8.
    assert (0 <= speed / 20 < 13); [|lia].
    split; [apply Z.div_pos; lia|apply Z.div_lt_upper_bound; lia]. }
  assert (Hcr : 1 <= c <= 12).
  { apply GlowLife.change_uint8. exact Hsp. }
  split; [exact Hcv|]. split.
  - intros Hg. unfold g', Simplified.step.
    rewrite GlowLife.updatePoint_growing by assumption. cbv zeta. simpl.
    fold c.
    destruct (255 - Simplified.currentIntensity g >? c) eqn:E1.
    + rewrite (to_uint8_id (Simplified.currentIntensity g + c))
        by (unfold is_uint8; lia).
      destruct (_ >? Simplified.maxIntensity g) eqn:E2;
        destruct (_ >=? Simplified.maxIntensity g) eqn:E3;
        repeat split; intros; try lia; try discriminate; auto.
    + destruct (255 >? Simplified.maxIntensity g) eqn:E2;
        destruct (_ >=? Simplified.maxIntensity g) eqn:E3;
        repeat split; intros; try lia; try discriminate; auto.
  - intros Hf. unfold g', Simplified.step.
    rewrite GlowLife.updatePoint_fading by assumption. fold c.
    destruct (Simplified.currentIntensity g <=? c) eqn:E1; simpl.
    + repeat split; intros; try lia; auto.
    + rewrite (to_uint8_id (Simplified.currentIntensity g - c))
        by (unfold is_uint8; lia).
      repeat split; intros; try lia; auto.
Qed.

Lemma buffered_step (point : Buffered.GlowPoint) :
  Buffered.wellFormed point ->
  let r := Buffered.updatePoint point in
  let point' := snd r in
  (Buffered.state point = 1 ->
     fst r = true /\
     Buffered.intensity point'
     = Z.min (Buffered.intensity point + Buffered.speed point)
             (Buffered.maxIntensity point) /\
     (Buffered.state point' = 0 <->
      Buffered.intensity point' = Buffered.maxIntensity point) /\
     (Buffered.state point' = 1 \/ Buffered.state point' = 0)) /\
  (Buffered.state point = -1 ->
     let i := Z.max 0 (Buffered.intensity point - Buffered.speed point / 2) in
     (i <= 1 -> fst r = false /\ Buffered.inactive point' = true) /\
     (1 < i -> fst r = true /\ Buffered.intensity point' = i /\
               Buffered.state point' = -1)).
Proof.
  unfold Buffered.wellFormed, is_uint8. intros (Hi & Hm & Hsp).
  destruct point as [p i m st sp h]; simpl in *. split.
  - intros ->. unfold Buffered.updatePoint, Buffered.inactive, qadd8. simpl.
    destruct (i + sp >? 255) eqn:E1.
    + destruct (255 >=? m) eqn:E2; simpl;
        repeat split; intros; try lia; try discriminate; auto.
    + destruct (i + sp >=? m) eqn:E2; simpl;
        repeat split; intros; try lia; try discriminate; auto.
  - intros ->. unfold Buffered.updatePoint, Buffered.inactive, qsub8. simpl.
    rewrite Z.quot_div_nonneg by lia.
    assert (0 <= sp / 2 <= 127).
    { split; [apply Z.div_pos; lia|].
      assert (sp / 2 < 128); [apply Z.div_lt_upper_bound; lia|lia]. }
    rewrite (to_uint8_id (sp / 2)) by (unfold is_uint8; lia).
    destruct (i - sp / 2 <? 0) eqn:E1.
    + simpl. repeat split; intros; try lia; auto.
    + destruct (i - sp / 2 <=? 1) eqn:E2; simpl;
        repeat split; intros; try lia; auto.
Qed.

(** C4, as the code has it.  In the simplified revision the step of a call
    with speed [speed] is [max(1, speed / 20)]; a growing point gains the
    step, capped at its own target, and turns stable exactly when it
    reaches the target; a fading point is deactivated when its intensity
    is at most the step and otherwise loses the whole step.  In the
    revision with a target buffer the step is the speed stored in the
    point; a growing point gains it, capped at its target, and turns
    stable exactly when it reaches the target; a fading point loses half
    the step, not going below 0, and its slot is freed when the result is
    at most 1. *)
Theorem lifecycle_step :
  (forall (g : Simplified.GlowPoint) (speed : Z) (t : list Z),
     Simplified.wellFormed g -> Simplified.active g = true ->
     0 <= speed <= 255 ->
     let c := Simplified.change speed in
     let g' := Simplified.step g speed t in
     c = Z.max 1 (speed / 20) /\
     (Simplified.state g = 1 ->
        Simplified.currentIntensity g'
        = Z.min (Simplified.currentIntensity g + c) (Simplified.maxIntensity g) /\
        Simplified.active g' = true /\
        (Simplified.state g' = 0 <->
         Simplified.currentIntensity g' = Simplified.maxIntensity g) /\
        (Simplified.state g' = 1 \/ Simplified.state g' = 0)) /\
     (Simplified.state g = -1 ->
        Simplified.state g' = -1 /\
        (Simplified.currentIntensity g <= c -> Simplified.active g' = false) /\
        (c < Simplified.currentIntensity g ->
           Simplified.active g' = true /\
           Simplified.currentIntensity g' = Simplified.currentIntensity g - c))) /\
  (forall (point : Buffered.GlowPoint),
     Buffered.wellFormed point ->
     let r := Buffered.updatePoint point in
     let point' := snd r in
     (Buffered.state point = 1 ->
        fst r = true /\
        Buffered.intensity point'
        = Z.min (Buffered.intensity point + Buffered.speed point)
                (Buffered.maxIntensity point) /\
        (Buffered.state point' = 0 <->
         Buffered.intensity point' = Buffered.maxIntensity point) /\
        (Buffered.state point' = 1 \/ Buffered.state point' = 0)) /\
     (Buffered.state point = -1 ->
        let i := Z.max 0 (Buffered.intensity point - Buffered.speed point / 2) in
        (i <= 1 -> fst r = false /\ Buffered.inactive point' = true) /\
        (1 < i -> fst r = true /\ Buffered.intensity point' = i /\
                  Buffered.state point' = -1))).
Proof.
  split.
  - intros g speed t Hw Ha Hsp. apply (simplified_step g speed t Hw Ha Hsp).
  - intros point Hw. apply (buffered_step point Hw).
Qed.

Lemma simplified_fadingPoint_ok : Simplified.wellFormed Simplified.fadingPoint.
Proof. unfold Simplified.wellFormed. simpl. lia. Defined.

Lemma buffered_growingPoint_ok : Buffered.wellFormed Buffered.growingPoint.
Proof. unfold Buffered.wellFormed, is_uint8. simpl. lia. Defined.

Lemma lifecycle_step_witness :
  (Simplified.wellFormed Simplified.fadingPoint /\
   Simplified.active Simplified.fadingPoint = true /\
   0 <= 100 <= 255 /\
   Simplified.change 100 = Z.max 1 (100 / 20)) /\
  (Buffered.wellFormed Buffered.growingPoint /\
   Buffered.state Buffered.growingPoint = 1 /\
   fst (Buffered.updatePoint Buffered.growingPoint) = true).
Proof.
  split.
  - assert (H100 : 0 <= 100 <= 255) by lia.
    split; [exact simplified_fadingPoint_ok|]. split; [reflexivity|].
    split; [exact H100|].
    exact (proj1 (proj1 lifecycle_step Simplified.fadingPoint 100 []
                    simplified_fadingPoint_ok eq_refl H100)).
  - split; [exact buffered_growingPoint_ok|]. split; [reflexivity|].
    exact (proj1 (proj1 (proj2 lifecycle_step Buffered.growingPoint
                           buffered_growingPoint_ok) eq_refl)).
Defined.

(** C4 fails in both revisions.  In the simplified one a fading point of
    intensity 100 updated with speed 100 (step 5) drops to 95: it loses
    the whole step and not half of it.  In the revision with a target
    buffer a fading point of intensity 4 with step 5 is at or below its
    step, yet it stays in use, with intensity 2. *)
Lemma fading_step_counterexample :
  (Simplified.change 100 = 5 /\
   Simplified.currentIntensity (Simplified.step Simplified.fadingPoint 100 []) = 95 /\
   Simplified.currentIntensity (Simplified.step Simplified.fadingPoint 100 [])
   <> Simplified.currentIntensity Simplified.fadingPoint
      - Z.quot (Simplified.change 100) 2) /\
  (Buffered.intensity Buffered.fadingPoint <= Buffered.speed Buffered.fadingPoint /\
   Buffered.updatePoint Buffered.fadingPoint
   = (true, Buffered.mkGlowPoint 12 2 180 (-1) 5 96) /\
   Buffered.inactive (snd (Buffered.updatePoint Buffered.fadingPoint)) = false).
Proof. vm_compute. repeat split; discriminate. Qed.

End LifecycleStep.

(** * Debouncing and intensity in [loop] *)

Module Debounce.
Import Main.

Section Channel.
Variables minValue scale : Z.

Abbreviation polls := (polls minValue scale).
Abbreviation debounce := (debounce minValue scale).

Lemma polls_app c a b : polls c (a ++ b) = polls (polls c a) b.
Proof. revert c. induction a as [|r a IH]; intros c; simpl; [reflexivity|apply IH]. Qed.

Lemma debounce_qualifying c r :
  qualifying minValue r ->
  debounce c (fst r) (snd r) =
    let dc := Z.min (detectionCount c + 1) 255 in
    if dc >=? DEBOUNCE_COUNT
    then mkChannel true (logIntensity scale (fst r)) dc 0
    else mkChannel (detected c) (intensity c) dc 0.
Proof. unfold qualifying, Main.debounce. intros ->. reflexivity. Qed.

Lemma debounce_not_qualifying c r :
  ~ qualifying minValue r ->
  debounce c (fst r) (snd r) =
    let ndc := Z.min (nonDetectionCount c + 1) 255 in
    if ndc >=? DEBOUNCE_COUNT
    then mkChannel false 0 0 ndc
    else mkChannel (detected c) (intensity c) 0 ndc.
Proof.
  unfold qualifying, Main.debounce. intros H.
  destruct (qualifies minValue (fst r) (snd r)); [congruence|reflexivity].
Qed.

(** The detection counter is the length of the run of qualifying polls,
    up to 255. *)
Lemma detectionCount_run rs : forall c,
  Forall (qualifying minValue) rs -> is_uint8 (detectionCount c) ->
  detectionCount (polls c rs)
  = Z.min (detectionCount c + Z.of_nat (length rs)) 255.
Proof.
  unfold is_uint8.
  induction rs as [|r rs IH]; intros c Hq Hc; simpl polls.
  - simpl. lia.
  - inversion Hq as [|? ? Hr Hrs]; subst.
    rewrite IH; [|exact Hrs|];
      rewrite debounce_qualifying by exact Hr; cbv zeta;
      destruct (_ >=? DEBOUNCE_COUNT); simpl detectionCount;
      rewrite ?length_cons; lia.
Qed.

Lemma nonDetectionCount_run rs : forall c,
  Forall (fun r => ~ qualifying minValue r) rs ->
  is_uint8 (nonDetectionCount c) ->
  nonDetectionCount (polls c rs)
  = Z.min (nonDetectionCount c + Z.of_nat (length rs)) 255.
Proof.
  unfold is_uint8.
  induction rs as [|r rs IH]; intros c Hq Hc; simpl polls.
  - simpl. lia.
  - inversion Hq as [|? ? Hr Hrs]; subst.
    rewrite IH; [|exact Hrs|];
      rewrite debounce_not_qualifying by exact Hr; cbv zeta;
      destruct (_ >=? DEBOUNCE_COUNT); simpl nonDetectionCount;
      rewrite ?length_cons; lia.
Qed.

(** A run that brings the counter to [DEBOUNCE_COUNT] sets the flag, and
    the intensity is that of the last reading. *)
Lemma run_detects rs r c :
  Forall (qualifying minValue) (rs ++ [r]) -> is_uint8 (detectionCount c) ->
  DEBOUNCE_COUNT <= detectionCount c + Z.of_nat (length (rs ++ [r])) ->
  detected (polls c (rs ++ [r])) = true /\
  intensity (polls c (rs ++ [r])) = logIntensity scale (fst r) /\
  nonDetectionCount (polls c (rs ++ [r])) = 0.
Proof.
  intros Hq Hc Hn. apply Forall_app in Hq as [Hrs Hr].
  inversion Hr as [|? ? Hr' _]; subst.
  rewrite polls_app. simpl polls.
  rewrite debounce_qualifying by exact Hr'. cbv zeta.
  rewrite detectionCount_run by assumption.
  rewrite length_app in Hn. simpl length in Hn. unfold is_uint8 in Hc.
  unfold DEBOUNCE_COUNT in *.
  destruct (_ >=? 3) eqn:E; [simpl; auto|]. lia.
Qed.

Lemma run_clears rs r c :
  Forall (fun r => ~ qualifying minValue r) (rs ++ [r]) ->
  is_uint8 (nonDetectionCount c) ->
  DEBOUNCE_COUNT <= nonDetectionCount c + Z.of_nat (length (rs ++ [r])) ->
  detected (polls c (rs ++ [r])) = false /\
  intensity (polls c (rs ++ [r])) = 0 /\
  detectionCount (polls c (rs ++ [r])) = 0.
Proof.
  intros Hq Hc Hn. apply Forall_app in Hq as [Hrs Hr].
  inversion Hr as [|? ? Hr' _]; subst.
  rewrite polls_app. simpl polls.
  rewrite debounce_not_qualifying by exact Hr'. cbv zeta.
  rewrite nonDetectionCount_run by assumption.
  rewrite length_app in Hn. simpl length in Hn. unfold is_uint8 in Hc.
  unfold DEBOUNCE_COUNT in *.
  destruct (_ >=? 3) eqn:E; [simpl; auto|]. lia.
Qed.

(** A run that keeps the counter below [DEBOUNCE_COUNT] changes neither
    the flag nor the intensity. *)
Lemma short_run_qualifying rs : forall c,
  Forall (qualifying minValue) rs ->
  detectionCount c + Z.of_nat (length rs) < DEBOUNCE_COUNT ->
  detected (polls c rs) = detected c /\ intensity (polls c rs) = intensity c.
Proof.
  unfold DEBOUNCE_COUNT.
  induction rs as [|r rs IH]; intros c Hq Hn; simpl polls; [auto|].
  inversion Hq as [|? ? Hr Hrs]; subst. rewrite length_cons in Hn.
  rewrite debounce_qualifying by exact Hr. cbv zeta. unfold DEBOUNCE_COUNT.
  destruct (_ >=? 3) eqn:E; [lia|].
  destruct (IH (mkChannel (detected c) (intensity c)
                  (Z.min (detectionCount c + 1) 255) 0) Hrs) as [H1 H2];
    [simpl; lia|]. auto.
Qed.

Lemma short_run_not_qualifying rs : forall c,
  Forall (fun r => ~ qualifying minValue r) rs ->
  nonDetectionCount c + Z.of_nat (length rs) < DEBOUNCE_COUNT ->
  detected (polls c rs) = detected c /\ intensity (polls c rs) = intensity c.
Proof.
  unfold DEBOUNCE_COUNT.
  induction rs as [|r rs IH]; intros c Hq Hn; simpl polls; [auto|].
  inversion Hq as [|? ? Hr Hrs]; subst. rewrite length_cons in Hn.
  rewrite debounce_not_qualifying by exact Hr. cbv zeta. unfold DEBOUNCE_COUNT.
  destruct (_ >=? 3) eqn:E; [lia|].
  destruct (IH (mkChannel (detected c) (intensity c) 0
                  (Z.min (nonDetectionCount c + 1) 255)) Hrs) as [H1 H2];
    [simpl; lia|]. auto.
Qed.

End Channel.

Lemma loop_presence s pv pf mv mf :
  presence (loop s pv pf mv mf)
  = debounce PRESENCE_MIN_VALUE PRESENCE_LOG_SCALE_FACTOR (presence s) pv pf.
Proof. reflexivity. Qed.

Lemma loop_motion s pv pf mv mf :
  motion (loop s pv pf mv mf)
  = debounce MOTION_MIN_VALUE MOTION_LOG_SCALE_FACTOR (motion s) mv mf.
Proof. reflexivity. Qed.

(** C5. For either channel (any floor and scale factor) and any prior state
    of its flag, intensity and two byte counters: a run of qualifying polls
    that is [DEBOUNCE_COUNT] long or longer ends with the flag set, and a
    run of non-qualifying polls that long ends with the flag cleared and
    the intensity 0; a poll of one kind resets the counter of the other
    kind, so that a counter is the length of the current run; and a run
    that leaves its counter below [DEBOUNCE_COUNT] changes neither the flag
    nor the intensity. *)
Theorem debounce_hysteresis :
  forall (minValue scale : Z) (c : Channel) (rs : list (Z * bool)),
    uint8_counters c ->
    (Forall (qualifying minValue) rs ->
       (DEBOUNCE_COUNT <= Z.of_nat (length rs) ->
          detected (polls minValue scale c rs) = true) /\
       (detectionCount c + Z.of_nat (length rs) < DEBOUNCE_COUNT ->
          detected (polls minValue scale c rs) = detected c /\
          intensity (polls minValue scale c rs) = intensity c)) /\
    (Forall (fun r => ~ qualifying minValue r) rs ->
       (DEBOUNCE_COUNT <= Z.of_nat (length rs) ->
          detected (polls minValue scale c rs) = false /\
          intensity (polls minValue scale c rs) = 0) /\
       (nonDetectionCount c + Z.of_nat (length rs) < DEBOUNCE_COUNT ->
          detected (polls minValue scale c rs) = detected c /\
          intensity (polls minValue scale c rs) = intensity c)) /\
    (forall r, qualifying minValue r ->
       nonDetectionCount (debounce minValue scale c (fst r) (snd r)) = 0) /\
    (forall r, ~ qualifying minValue r ->
       detectionCount (debounce minValue scale c (fst r) (snd r)) = 0).
Proof.
  intros minValue scale c rs [Hd Hn].
  split; [|split; [|split]].
  - intros Hq. split.
    + intros Hlen. destruct rs as [|r rs'] using rev_ind.
      * unfold DEBOUNCE_COUNT in Hlen. simpl in Hlen. lia.
      * apply run_detects; [exact Hq|exact Hd|]. unfold is_uint8 in Hd. lia.
    + intros Hlen. apply short_run_qualifying; assumption.
  - intros Hq. split.
    + intros Hlen. destruct rs as [|r rs'] using rev_ind.
      * unfold DEBOUNCE_COUNT in Hlen. simpl in Hlen. lia.
      * destruct (run_clears minValue scale rs' r c Hq Hn) as (H1 & H2 & _);
          [unfold is_uint8 in Hn; lia|]. auto.
    + intros Hlen. apply short_run_not_qualifying; assumption.
  - intros r Hr. rewrite debounce_qualifying by exact Hr. cbv zeta.
    destruct (_ >=? DEBOUNCE_COUNT); reflexivity.
  - intros r Hr. rewrite debounce_not_qualifying by exact Hr. cbv zeta.
    destruct (_ >=? DEBOUNCE_COUNT); reflexivity.
Qed.

Lemma initial_counters : uint8_counters (presence initialSensors).
Proof. unfold uint8_counters, is_uint8. simpl. lia. Defined.

Lemma debounce_hysteresis_witness :
  uint8_counters (presence initialSensors) /\
  Forall (qualifying PRESENCE_MIN_VALUE) [(150, true); (-90, true); (71, true)] /\
  DEBOUNCE_COUNT <= Z.of_nat (length [(150, true); (-90, true); (71, true)]) /\
  detected (polls PRESENCE_MIN_VALUE PRESENCE_LOG_SCALE_FACTOR
              (presence initialSensors) [(150, true); (-90, true); (71, true)])
  = true.
Proof.
  assert (Hq : Forall (qualifying PRESENCE_MIN_VALUE)
                 [(150, true); (-90, true); (71, true)])
    by (repeat constructor).
  assert (Hl : DEBOUNCE_COUNT
               <= Z.of_nat (length [(150, true); (-90, true); (71, true)]))
    by (vm_compute; discriminate).
  split; [exact initial_counters|]. split; [exact Hq|]. split; [exact Hl|].
  exact (proj1 (proj1 (debounce_hysteresis PRESENCE_MIN_VALUE
                         PRESENCE_LOG_SCALE_FACTOR (presence initialSensors)
                         [(150, true); (-90, true); (71, true)]
                         initial_counters) Hq) Hl).
Defined.

(** C6. With the presence floor 70 and scale factor 60, a reading of -200
    with the hardware flag set qualifies; after three passes of [loop] with
    that reading, from any state of the presence channel and whatever the
    motion channel reads, presence is detected with intensity 138.  138 is
    both the integer part and the rounding of [60 * log10 201]:
    [10^275 <= 201^120 < 10^277], and it is left alone by the clamp to
    0..255. *)
Theorem presence_scenario :
  forall (s : Sensors) (mv1 mv2 mv3 : Z) (mf1 mf2 mf3 : bool),
    uint8_counters (presence s) ->
    let s3 := loop (loop (loop s (-200) true mv1 mf1) (-200) true mv2 mf2)
                (-200) true mv3 mf3 in
    qualifies PRESENCE_MIN_VALUE (-200) true = true /\
    detected (presence s3) = true /\
    intensity (presence s3) = 138 /\
    scaledLog10 PRESENCE_LOG_SCALE_FACTOR 201 = 138 /\
    10 ^ 275 <= 201 ^ 120 < 10 ^ 277 /\
    Arduino.constrain 138 0 INTENSITY_MAX = 138.
Proof.
  intros s mv1 mv2 mv3 mf1 mf2 mf3 [Hd _] s3.
  assert (Hq : Forall (qualifying PRESENCE_MIN_VALUE)
                 ([(-200, true); (-200, true)] ++ [(-200, true)]))
    by (repeat constructor).
  destruct (run_detects PRESENCE_MIN_VALUE PRESENCE_LOG_SCALE_FACTOR
              [(-200, true); (-200, true)] (-200, true) (presence s) Hq Hd)
    as (H1 & H2 & _).
  { unfold is_uint8 in Hd. unfold DEBOUNCE_COUNT. simpl. lia. }
  split; [reflexivity|]. split; [exact H1|]. split.
  - unfold s3. rewrite !loop_presence. simpl in H2. rewrite H2.
    vm_compute. reflexivity.
  - split; [vm_compute; reflexivity|]. split; [|reflexivity].
    split; vm_compute; [discriminate|reflexivity].
Qed.

Lemma presence_scenario_witness :
  uint8_counters (presence initialSensors) /\
  intensity (presence
    (loop (loop (loop initialSensors (-200) true 0 false) (-200) true 0 false)
       (-200) true 0 false)) = 138.
Proof.
  split; [exact initial_counters|].
  exact (proj1 (proj2 (proj2
    (presence_scenario initialSensors 0 0 0 false false false initial_counters)))).
Defined.

End Debounce.

(** * The logarithmic intensity *)

Module Intensity.
Import Main.

Lemma ilog10_fuel_spec fuel : forall m,
  1 <= m < 2 ^ Z.of_nat fuel ->
  0 <= ilog10_fuel fuel m /\
  10 ^ ilog10_fuel fuel m <= m < 10 ^ (ilog10_fuel fuel m + 1).
Proof.
  induction fuel as [|fuel IH]; intros m Hm.
  - simpl in Hm. lia.
  - simpl ilog10_fuel. destruct (m <? 10) eqn:E.
    + simpl. lia.
    + assert (Hq : 1 <= m / 10 < 2 ^ Z.of_nat fuel).
      { rewrite Nat2Z.inj_succ, Z.pow_succ_r in Hm by lia.
        split; [apply Z.div_le_lower_bound; lia|].
        apply Z.div_lt_upper_bound; lia. }
      destruct (IH (m / 10) Hq) as (Hk & Hlo & Hhi).
      set (k := ilog10_fuel fuel (m / 10)) in *.
      pose proof (Z.mul_div_le m 10 ltac:(lia)).
      pose proof (Z.mul_succ_div_gt m 10 ltac:(lia)).
      replace (1 + k + 1) with (Z.succ (k + 1)) by lia.
      replace (1 + k) with (Z.succ k) by lia.
      rewrite !Z.pow_succ_r by lia. lia.
Qed.

(** [ilog10 m] is the integer part of the decimal logarithm of [m]. *)
Lemma ilog10_spec m :
  1 <= m -> 0 <= ilog10 m /\ 10 ^ ilog10 m <= m < 10 ^ (ilog10 m + 1).
Proof.
  intros Hm. unfold ilog10. apply ilog10_fuel_spec.
  split; [exact Hm|].
  rewrite Nat2Z.inj_succ, Z2Nat.id by apply Z.log2_nonneg.
  apply Z.log2_spec. lia.
Qed.

Lemma ilog10_mono m1 m2 : 1 <= m1 <= m2 -> ilog10 m1 <= ilog10 m2.
Proof.
  intros H.
  destruct (ilog10_spec m1) as (H1 & L1 & U1); [lia|].
  destruct (ilog10_spec m2) as (H2 & L2 & U2); [lia|].
  assert (Hlt : 10 ^ ilog10 m1 < 10 ^ (ilog10 m2 + 1)) by lia.
  apply Z.pow_lt_mono_r_iff in Hlt; lia.
Qed.

(** [scaledLog10 scale n] is the integer part of [scale * log10 n]. *)
Lemma scaledLog10_spec scale n :
  0 <= scale -> 1 <= n ->
  10 ^ scaledLog10 scale n <= n ^ scale < 10 ^ (scaledLog10 scale n + 1).
Proof.
  intros Hs Hn. unfold scaledLog10. apply ilog10_spec.
  assert (0 < n ^ scale) by (apply Z.pow_pos_nonneg; lia). lia.
Qed.

Lemma scaledLog10_mono scale n1 n2 :
  0 <= scale -> 1 <= n1 <= n2 -> scaledLog10 scale n1 <= scaledLog10 scale n2.
Proof.
  intros Hs Hn. unfold scaledLog10. apply ilog10_mono. split.
  - assert (0 < n1 ^ scale) by (apply Z.pow_pos_nonneg; lia). lia.
  - apply Z.pow_le_mono_l. lia.
Qed.

(** As long as the scaled logarithm of the larger reading fits a byte, the
    intensity follows the magnitude of the reading. *)
Lemma logIntensity_mono_in_range scale r1 r2 :
  0 <= scale -> Z.abs r1 <= Z.abs r2 ->
  scaledLog10 scale (Z.abs r2 + 1) <= 255 ->
  logIntensity scale r1 <= logIntensity scale r2.
Proof.
  intros Hs Hr Hfit.
  pose proof (scaledLog10_mono scale (Z.abs r1 + 1) (Z.abs r2 + 1) Hs) as Hm.
  assert (0 <= scaledLog10 scale (Z.abs r1 + 1)).
  { unfold scaledLog10. apply ilog10_spec.
    assert (0 < (Z.abs r1 + 1) ^ scale) by (apply Z.pow_pos_nonneg; lia). lia. }
  unfold logIntensity, Arduino.constrain, INTENSITY_MAX. cbv zeta.
  rewrite !to_uint8_id by (unfold is_uint8; lia).
  repeat match goal with
         | |- context [if ?b then _ else _] => destruct b eqn:?
         end; lia.
Qed.

(** C7 fails on the code.  The intensity is cast to [uint8_t] before
    [constrain] clamps it, so the clamp never acts: once
    [log10(|raw| + 1) * 60] reaches 256 the byte starts again from 0.  The
    readings 18000 and 20000 both qualify, and the intensity of the smaller
    one is 255 while that of the larger one is 2; three passes of [loop]
    leave these values in [presenceIntensity]. *)
Lemma intensity_not_monotone :
  Z.abs 18000 <= Z.abs 20000 /\
  -32768 <= 18000 <= 32767 /\ -32768 <= 20000 <= 32767 /\
  qualifies PRESENCE_MIN_VALUE 18000 true = true /\
  qualifies PRESENCE_MIN_VALUE 20000 true = true /\
  scaledLog10 PRESENCE_LOG_SCALE_FACTOR (Z.abs 18000 + 1) = 255 /\
  scaledLog10 PRESENCE_LOG_SCALE_FACTOR (Z.abs 20000 + 1) = 258 /\
  logIntensity PRESENCE_LOG_SCALE_FACTOR 18000 = 255 /\
  logIntensity PRESENCE_LOG_SCALE_FACTOR 20000 = 2 /\
  intensity (polls PRESENCE_MIN_VALUE PRESENCE_LOG_SCALE_FACTOR
               (presence initialSensors)
               [(18000, true); (18000, true); (18000, true)]) = 255 /\
  intensity (polls PRESENCE_MIN_VALUE PRESENCE_LOG_SCALE_FACTOR
               (presence initialSensors)
               [(20000, true); (20000, true); (20000, true)]) = 2.
Proof.
  vm_compute. repeat split; try discriminate; reflexivity.
Qed.

End Intensity.

(** * The parameter mapper *)

Module ParameterMapper.
Import Main.

Local Open Scope Z_scope.

Lemma parametersChanged_significant p st :
  parametersChanged p st = true <-> significant p st.
Proof.
  unfold parametersChanged, significant.
  rewrite !orb_true_iff, !Z.gtb_gt. tauto.
Qed.

Lemma updateLEDPattern_emits st pr mo pI mI now :
  let r := updateLEDPattern st pr mo pI mI now in
  let p := candidateOf st pr mo pI mI in
  let elapsed := to_uint32 (now - lastPatternChange st) in
  (snd r = Some p <-> significant p st /\ elapsed > MIN_UPDATE_INTERVAL) /\
  (snd r = None <-> ~ (significant p st /\ elapsed > MIN_UPDATE_INTERVAL)) /\
  (snd r = Some p ->
     lastHue (fst r) = newHue p /\ lastBrightness (fst r) = newBrightness p /\
     lastSpeed (fst r) = newSpeed p /\ lastSpread (fst r) = newSpread p /\
     lastPatternChange (fst r) = now) /\
  (snd r = None ->
     lastHue (fst r) = lastHue st /\ lastBrightness (fst r) = lastBrightness st /\
     lastSpeed (fst r) = lastSpeed st /\ lastSpread (fst r) = lastSpread st /\
     lastPatternChange (fst r) = lastPatternChange st).
Proof.
  intros r p elapsed. unfold r, updateLEDPattern. fold (candidateOf st pr mo pI mI).
  fold p. fold elapsed.
  pose proof (parametersChanged_significant p st) as Hs.
  destruct (parametersChanged p st) eqn:Ec.
  - destruct (elapsed >? MIN_UPDATE_INTERVAL) eqn:Et; simpl.
    + apply Z.gtb_gt in Et. repeat split; intros; try tauto; try discriminate.
    + assert (~ elapsed > MIN_UPDATE_INTERVAL).
      { intros H. apply Z.gtb_gt in H. congruence. }
      repeat split; intros; try tauto; try discriminate.
  - assert (~ significant p st) by (intros H; apply Hs in H; discriminate).
    simpl. repeat split; intros; try tauto; try discriminate.
Qed.

Lemma repeated_quiet n : forall st pr mo pI mI now,
  to_uint32 (now - lastPatternChange st) <= MIN_UPDATE_INTERVAL ->
  Forall (fun e => e = None) (snd (repeated n st pr mo pI mI now)) /\
  lastPatternChange (fst (repeated n st pr mo pI mI now)) = lastPatternChange st.
Proof.
  induction n as [|n IH]; intros st pr mo pI mI now Hel; simpl.
  - split; [constructor|reflexivity].
  - destruct (updateLEDPattern_emits st pr mo pI mI now) as (_ & Hn & _ & Hk).
    cbv zeta in Hn, Hk.
    assert (Hnone : snd (updateLEDPattern st pr mo pI mI now) = None).
    { apply Hn. intros [_ H]. lia. }
    destruct (Hk Hnone) as (_ & _ & _ & _ & Hts).
    destruct (IH (fst (updateLEDPattern st pr mo pI mI now)) pr mo pI mI now)
      as [Hall Hlast]; [rewrite Hts; exact Hel|].
    split; [constructor; assumption|]. rewrite Hlast. exact Hts.
Qed.

(** Once the smoothed values have settled, so that a call that hands over
    nothing leaves the globals as they were, every repeat does the same. *)
Lemma repeated_settled n : forall st pr mo pI mI now,
  updateLEDPattern st pr mo pI mI now = (st, None) ->
  Forall (fun e => e = None) (snd (repeated n st pr mo pI mI now)) /\
  fst (repeated n st pr mo pI mI now) = st.
Proof.
  induction n as [|n IH]; intros st pr mo pI mI now E; cbn [repeated].
  - split; [constructor|reflexivity].
  - cbv zeta. rewrite E. cbn [fst snd].
    destruct (IH st pr mo pI mI now E) as [Hall Hst].
    split; [constructor; [reflexivity|exact Hall]|exact Hst].
Qed.

(** C8, as the code has it.  A call of [updateLEDPattern] hands new
    parameters to the pattern exactly when some field of the candidate
    differs from the last applied snapshot by more than its threshold (hue
    5, brightness 8, speed 5, spread 1) and strictly more than
    [MIN_UPDATE_INTERVAL] ms have passed since the last applied change: at
    exactly [MIN_UPDATE_INTERVAL] ms nothing is handed over.  The
    parameters handed over are the candidate, and the snapshot and the time
    stamp are then set to the candidate and to now; otherwise both stay as
    they were.  Repeating a call with the same arguments at the same
    [millis()] hands over nothing as long as at most [MIN_UPDATE_INTERVAL]
    ms have passed since the last applied change, so in particular after a
    call that handed parameters over, and as long as the smoothed values
    have settled; it can hand over parameters otherwise, since every call
    moves the smoothed values: see [repeat_can_emit_later]. *)
Theorem mapper_emission :
  forall (st : Pattern) (pr mo : bool) (pI mI now : Z),
    let r := updateLEDPattern st pr mo pI mI now in
    let p := candidateOf st pr mo pI mI in
    let elapsed := to_uint32 (now - lastPatternChange st) in
    (snd r = Some p <-> significant p st /\ elapsed > MIN_UPDATE_INTERVAL) /\
    (snd r = None <-> ~ (significant p st /\ elapsed > MIN_UPDATE_INTERVAL)) /\
    (elapsed = MIN_UPDATE_INTERVAL -> snd r = None) /\
    (snd r = Some p ->
       lastHue (fst r) = newHue p /\ lastBrightness (fst r) = newBrightness p /\
       lastSpeed (fst r) = newSpeed p /\ lastSpread (fst r) = newSpread p /\
       lastPatternChange (fst r) = now) /\
    (snd r = None ->
       lastHue (fst r) = lastHue st /\ lastBrightness (fst r) = lastBrightness st /\
       lastSpeed (fst r) = lastSpeed st /\ lastSpread (fst r) = lastSpread st /\
       lastPatternChange (fst r) = lastPatternChange st) /\
    (forall n, elapsed <= MIN_UPDATE_INTERVAL ->
       Forall (fun e => e = None) (snd (repeated n st pr mo pI mI now))) /\
    (forall n, snd r = Some p ->
       Forall (fun e => e = None) (snd (repeated n (fst r) pr mo pI mI now))) /\
    (forall n, r = (st, None) ->
       Forall (fun e => e = None) (snd (repeated n st pr mo pI mI now))).
Proof.
  intros st pr mo pI mI now r p elapsed.
  destruct (updateLEDPattern_emits st pr mo pI mI now) as (H1 & H2 & H3 & H4).
  split; [exact H1|]. split; [exact H2|]. split; [|split; [exact H3|]].
  { intros E. apply H2. intros [_ Hgt]. fold elapsed in Hgt. lia. }
  split; [exact H4|]. split; [|split].
  - intros n Hle. apply repeated_quiet. exact Hle.
  - intros n Hs. destruct (H3 Hs) as (_ & _ & _ & _ & Hts).
    apply repeated_quiet. unfold r. rewrite Hts, Z.sub_diag.
    vm_compute. discriminate.
  - intros n E. apply repeated_settled. exact E.
Qed.

Lemma mapper_emission_witness :
  let idle := fst (updateLEDPattern initialPattern false false 0 0 1000) in
  snd (updateLEDPattern initialPattern true false 255 0 1000)
  = Some (candidateOf initialPattern true false 255 0) /\
  lastPatternChange (fst (updateLEDPattern initialPattern true false 255 0 1000))
  = 1000 /\
  Forall (fun e => e = None)
    (snd (repeated 3 (fst (updateLEDPattern initialPattern true false 255 0 1000))
            true false 255 0 1000)) /\
  updateLEDPattern idle false false 0 0 2000 = (idle, None) /\
  Forall (fun e => e = None) (snd (repeated 3 idle false false 0 0 2000)).
Proof.
  intros idle.
  assert (E : snd (updateLEDPattern initialPattern true false 255 0 1000)
              = Some (candidateOf initialPattern true false 255 0))
    by (vm_compute; reflexivity).
  assert (E0 : updateLEDPattern idle false false 0 0 2000 = (idle, None))
    by (vm_compute; reflexivity).
  pose proof (mapper_emission initialPattern true false 255 0 1000) as H.
  pose proof (mapper_emission idle false false 0 0 2000) as H0.
  cbv zeta in H, H0.
  destruct H as (_ & _ & _ & Hsnap & _ & _ & Hafter & _).
  destruct H0 as (_ & _ & _ & _ & _ & _ & _ & Hsettled).
  split; [exact E|]. split; [exact (proj2 (proj2 (proj2 (proj2 (Hsnap E)))))|].
  split; [exact (Hafter 3%nat E)|]. split; [exact E0|].
  exact (Hsettled 3%nat E0).
Defined.

(** A call that crosses a threshold long after the last change does hand
    over parameters. *)
Example mapper_emits_example :
  snd (updateLEDPattern initialPattern true false 255 0 1000)
  = Some (mkParams 160 93 20 3).
Proof. vm_compute. reflexivity. Qed.

(** C8 fails for repeated calls in general.  Every call moves the smoothed
    values, and with them the candidate: of two calls with the same
    arguments at the same [millis()], long after the last change, the first
    stays below the thresholds (brightness 88 against 80) and hands over
    nothing, the second crosses them (brightness 95) and hands parameters
    over. *)
Lemma repeat_can_emit_later :
  to_uint32 (1000 - lastPatternChange initialPattern) > MIN_UPDATE_INTERVAL /\
  newBrightness (candidateOf initialPattern true false 150 0) = 88 /\
  snd (repeated 2 initialPattern true false 150 0 1000)
  = [None; Some (mkParams 160 95 20 3)].
Proof.
  split; [vm_compute; reflexivity|]. split; vm_compute; reflexivity.
Qed.

(** Exactly [MIN_UPDATE_INTERVAL] ms after the last change nothing is handed
    over, whatever the change; one millisecond later it is. *)
Example interval_is_strict :
  snd (updateLEDPattern initialPattern true false 255 0 250) = None /\
  snd (updateLEDPattern initialPattern true false 255 0 251)
  = Some (mkParams 160 93 20 3).
Proof. split; vm_compute; reflexivity. Qed.

End ParameterMapper.

(** * Rounding to [float] and [double] *)

Module FloatRounding.
Import IEEE.

Lemma pow2_pos n : 0 <= n -> 0 < 2 ^ n.
Proof. intros H. apply Z.pow_pos_nonneg; lia. Qed.

Lemma pow2_split a b : 0 <= a -> 0 <= b -> 2 ^ (a + b) = 2 ^ a * 2 ^ b.
Proof. intros Ha Hb. apply Z.pow_add_r; assumption. Qed.

Lemma pow2_le a b : 0 <= a <= b -> 2 ^ a <= 2 ^ b.
Proof. intros H. apply Z.pow_le_mono_r; lia. Qed.

(** A multiple of a smaller power of two. *)
Lemma pow2_multiple m j i : 0 <= i <= j -> m * 2 ^ j = (m * 2 ^ (j - i)) * 2 ^ i.
Proof.
  intros H. rewrite <- Z.mul_assoc, <- pow2_split by lia. f_equal. f_equal. lia.
Qed.

Lemma multiple_floor d m b : 0 < d -> m * d <= b -> m * d <= b / d * d.
Proof.
  intros Hd H. apply Z.mul_le_mono_nonneg_r; [lia|].
  apply Z.div_le_lower_bound; lia.
Qed.

Lemma multiple_ceil d m a : 0 < d -> a < m * d -> (a / d + 1) * d <= m * d.
Proof.
  intros Hd H. apply Z.mul_le_mono_nonneg_r; [lia|].
  assert (a / d < m) by (apply Z.div_lt_upper_bound; lia). lia.
Qed.

(** Two multiples of [d] that differ are at least [d] apart. *)
Lemma multiples_apart d m n : 0 < d -> m * d < n * d -> m * d + d <= n * d.
Proof.
  intros Hd H. assert (m < n) by (apply (Z.mul_lt_mono_pos_r d); assumption).
  replace (m * d + d) with ((m + 1) * d) by ring.
  apply Z.mul_le_mono_nonneg_r; lia.
Qed.

(** [rne] in terms of quotient and remainder. *)
Lemma rne_div n sh :
  0 < sh ->
  rne n sh =
    if n mod 2 ^ sh <? 2 ^ (sh - 1) then n / 2 ^ sh
    else if 2 ^ (sh - 1) <? n mod 2 ^ sh then n / 2 ^ sh + 1
    else if Z.even (n / 2 ^ sh) then n / 2 ^ sh else n / 2 ^ sh + 1.
Proof.
  intros Hs. unfold rne.
  rewrite Z.shiftr_div_pow2, Z.land_ones, Z.shiftl_1_l by lia. reflexivity.
Qed.

Lemma rne_bounds n sh : 0 < sh -> n / 2 ^ sh <= rne n sh <= n / 2 ^ sh + 1.
Proof.
  intros Hs. rewrite rne_div by exact Hs.
  destruct (_ <? _); [lia|]. destruct (_ <? _); [lia|].
  destruct (Z.even _); lia.
Qed.

Lemma rne_exact n sh : 0 < sh -> n mod 2 ^ sh = 0 -> rne n sh = n / 2 ^ sh.
Proof.
  intros Hs Hm. rewrite rne_div by exact Hs. rewrite Hm.
  pose proof (pow2_pos (sh - 1) ltac:(lia)) as Hh.
  destruct (Z.ltb_spec 0 (2 ^ (sh - 1))); [reflexivity|lia].
Qed.

Lemma rne_mono a b sh : 0 < sh -> 0 <= a <= b -> rne a sh <= rne b sh.
Proof.
  intros Hs Hab.
  pose proof (pow2_pos sh ltac:(lia)) as Hd.
  assert (Hq : a / 2 ^ sh <= b / 2 ^ sh) by (apply Z.div_le_mono; lia).
  destruct (Z.eq_dec (a / 2 ^ sh) (b / 2 ^ sh)) as [E|E].
  - assert (Hr : a mod 2 ^ sh <= b mod 2 ^ sh).
    { pose proof (Z.div_mod a (2 ^ sh) ltac:(lia)).
      pose proof (Z.div_mod b (2 ^ sh) ltac:(lia)). rewrite E in *. lia. }
    rewrite !rne_div by exact Hs. rewrite E.
    destruct (Z.ltb_spec (a mod 2 ^ sh) (2 ^ (sh - 1)));
      destruct (Z.ltb_spec (b mod 2 ^ sh) (2 ^ (sh - 1)));
      destruct (Z.ltb_spec (2 ^ (sh - 1)) (a mod 2 ^ sh));
      destruct (Z.ltb_spec (2 ^ (sh - 1)) (b mod 2 ^ sh));
      destruct (Z.even (b / 2 ^ sh)); lia.
  - pose proof (rne_bounds a sh Hs). pose proof (rne_bounds b sh Hs). lia.
Qed.

Lemma nearest_mul prec emin k a :
  nearest prec emin k a =
    if last_bit prec emin k a <=? 0 then a
    else rne a (last_bit prec emin k a) * 2 ^ last_bit prec emin k a.
Proof.
  unfold nearest. destruct (Z.leb_spec (last_bit prec emin k a) 0);
    [reflexivity|apply Z.shiftl_mul_pow2; lia].
Qed.

Section Format.

Variables prec emin k : Z.
Hypothesis Hprec : 1 <= prec.
Hypothesis Hkmin : 0 <= emin + k.

Lemma last_bit_ge a : emin + k <= last_bit prec emin k a /\
                      Z.log2 a - (prec - 1) <= last_bit prec emin k a.
Proof. unfold last_bit. lia. Qed.

Lemma below_next_binade a :
  0 < a -> a < 2 ^ (last_bit prec emin k a + prec).
Proof.
  intros Ha. destruct (last_bit_ge a) as [_ H].
  destruct (Z.log2_spec a Ha) as [_ Hlt].
  eapply Z.lt_le_trans; [exact Hlt|]. apply pow2_le.
  pose proof (Z.log2_nonneg a). lia.
Qed.

Lemma nearest_multiple a :
  0 < a -> exists m, nearest prec emin k a = m * 2 ^ last_bit prec emin k a.
Proof.
  intros Ha. rewrite nearest_mul. destruct (last_bit_ge a) as [H _].
  destruct (Z.leb_spec (last_bit prec emin k a) 0) as [H0|H0].
  - exists a. replace (last_bit prec emin k a) with 0 by lia. lia.
  - eexists. reflexivity.
Qed.

Lemma nearest_bounds a :
  0 < a ->
  a / 2 ^ last_bit prec emin k a * 2 ^ last_bit prec emin k a
  <= nearest prec emin k a
  <= (a / 2 ^ last_bit prec emin k a + 1) * 2 ^ last_bit prec emin k a.
Proof.
  intros Ha. rewrite nearest_mul. destruct (last_bit_ge a) as [H _].
  pose proof (pow2_pos (last_bit prec emin k a) ltac:(lia)) as Hd.
  destruct (Z.leb_spec (last_bit prec emin k a) 0) as [H0|H0].
  - replace (last_bit prec emin k a) with 0 by lia.
    rewrite Z.pow_0_r, Z.div_1_r. lia.
  - pose proof (rne_bounds a _ H0). nia.
Qed.

Lemma nearest_nonneg a : 0 < a -> 0 <= nearest prec emin k a.
Proof.
  intros Ha. destruct (nearest_bounds a Ha) as [H _].
  destruct (last_bit_ge a) as [H0 _].
  pose proof (pow2_pos (last_bit prec emin k a) ltac:(lia)) as Hd.
  assert (0 <= a / 2 ^ last_bit prec emin k a) by (apply Z.div_pos; lia). nia.
Qed.

(** A number of the format is its own nearest number. *)
Lemma nearest_fix a m j :
  0 < a -> a = m * 2 ^ j -> emin + k <= j -> a < 2 ^ (j + prec) ->
  nearest prec emin k a = a.
Proof.
  intros Ha Em Hj Hlt. rewrite nearest_mul.
  assert (Hsh : last_bit prec emin k a <= j).
  { unfold last_bit. apply Z.max_lub; [|exact Hj].
    assert (Z.log2 a < j + prec) by (apply Z.log2_lt_pow2; assumption). lia. }
  destruct (last_bit_ge a) as [H0 _].
  destruct (Z.leb_spec (last_bit prec emin k a) 0) as [Hz|Hz]; [reflexivity|].
  set (sh := last_bit prec emin k a) in *.
  pose proof (pow2_pos sh ltac:(lia)) as Hd.
  assert (Hmul : a = (m * 2 ^ (j - sh)) * 2 ^ sh).
  { rewrite Em. apply pow2_multiple. lia. }
  assert (Hmod : a mod 2 ^ sh = 0) by (rewrite Hmul; apply Z.mod_mul; lia).
  rewrite rne_exact by assumption.
  rewrite Hmul at 1. rewrite Z.div_mul by lia. symmetry. exact Hmul.
Qed.

Lemma nearest_mono a b :
  0 < a -> a <= b -> nearest prec emin k a <= nearest prec emin k b.
Proof.
  intros Ha Hab.
  assert (Hl : Z.log2 a <= Z.log2 b) by (apply Z.log2_le_mono; exact Hab).
  assert (Hs : last_bit prec emin k a <= last_bit prec emin k b)
    by (unfold last_bit; lia).
  destruct (last_bit_ge a) as [H0a _]. destruct (last_bit_ge b) as [H0b _].
  destruct (Z.eq_dec (last_bit prec emin k a) (last_bit prec emin k b)) as [E|E].
  - rewrite !nearest_mul. rewrite <- E.
    destruct (Z.leb_spec (last_bit prec emin k a) 0) as [Hz|Hz]; [exact Hab|].
    apply Z.mul_le_mono_nonneg_r; [apply Z.pow_nonneg; lia|].
    apply rne_mono; lia.
  - (* [b] lies in a higher binade: the power of two between them is a
       number of both grids *)
    assert (Hb : 0 < b) by lia.
    assert (Hsb : last_bit prec emin k b = Z.log2 b - (prec - 1))
      by (unfold last_bit in *; lia).
    assert (Hlt : Z.log2 a < Z.log2 b) by (unfold last_bit in *; lia).
    set (M := 2 ^ Z.log2 b).
    assert (HM : nearest prec emin k a <= M /\ M <= nearest prec emin k b);
      [|lia].
    pose proof (Z.log2_nonneg a) as Hla.
    split.
    + destruct (nearest_bounds a Ha) as [_ Hup].
      eapply Z.le_trans; [exact Hup|].
      set (sa := last_bit prec emin k a) in *.
      assert (EM : M = 2 ^ (Z.log2 b - sa) * 2 ^ sa).
      { unfold M. rewrite <- pow2_split by lia. f_equal. lia. }
      rewrite EM. apply multiple_ceil; [apply pow2_pos; lia|].
      rewrite <- EM. destruct (Z.log2_spec a Ha) as [_ Hlt2].
      eapply Z.lt_le_trans; [exact Hlt2|]. apply pow2_le. lia.
    + destruct (nearest_bounds b Hb) as [Hlow _].
      eapply Z.le_trans; [|exact Hlow].
      set (sb := last_bit prec emin k b) in *.
      assert (EM : M = 2 ^ (Z.log2 b - sb) * 2 ^ sb).
      { unfold M. rewrite <- pow2_split by lia. f_equal. lia. }
      rewrite EM. apply multiple_floor; [apply pow2_pos; lia|].
      rewrite <- EM. destruct (Z.log2_spec b Hb) as [Hge _]. exact Hge.
Qed.

(** Rounding twice is rounding once. *)
Lemma nearest_idem a :
  0 < a -> 0 < nearest prec emin k a ->
  nearest prec emin k (nearest prec emin k a) = nearest prec emin k a.
Proof.
  intros Ha Hc. destruct (nearest_multiple a Ha) as [m Em].
  destruct (last_bit_ge a) as [H0 _].
  set (sh := last_bit prec emin k a) in *.
  pose proof (pow2_pos sh ltac:(lia)) as Hd.
  assert (Hup : nearest prec emin k a <= 2 ^ (sh + prec)).
  { destruct (nearest_bounds a Ha) as [_ Hup]. fold sh in Hup.
    eapply Z.le_trans; [exact Hup|].
    rewrite (Z.add_comm sh prec), pow2_split by lia.
    apply multiple_ceil; [exact Hd|].
    rewrite <- pow2_split, (Z.add_comm prec sh) by lia.
    apply below_next_binade. exact Ha. }
  destruct (Z.eq_dec (nearest prec emin k a) (2 ^ (sh + prec))) as [E|E].
  - apply (nearest_fix _ 1 (sh + prec)); [exact Hc|lia|lia|].
    rewrite E. apply Z.pow_lt_mono_r; lia.
  - apply (nearest_fix _ m sh); [exact Hc|exact Em|lia|lia].
Qed.

End Format.

Section Round.

Variables prec emin k : Z.
Hypothesis Hprec : 1 <= prec.
Hypothesis Hkmin : 0 <= emin + k.
Hypothesis Hk : UNIT <= k.

Lemma round_pos n :
  0 < n -> round prec emin k n = nearest prec emin k n / 2 ^ (k - UNIT).
Proof.
  intros Hn. unfold round. destruct (Z.eqb_spec n 0); [lia|].
  rewrite Z.sgn_pos, Z.abs_eq, Z.shiftr_div_pow2 by lia. apply Z.mul_1_l.
Qed.

Lemma round_nonneg n : 0 <= n -> 0 <= round prec emin k n.
Proof.
  intros Hn. destruct (Z.eq_dec n 0) as [->|Hne]; [reflexivity|].
  rewrite round_pos by lia. apply Z.div_pos; [|apply pow2_pos; lia].
  apply nearest_nonneg; assumption || lia.
Qed.

Lemma round_mono n1 n2 :
  0 <= n1 <= n2 -> round prec emin k n1 <= round prec emin k n2.
Proof.
  intros H. destruct (Z.eq_dec n1 0) as [->|Hne].
  - apply round_nonneg. lia.
  - rewrite !round_pos by lia. apply Z.div_le_mono; [apply pow2_pos; lia|].
    apply nearest_mono; assumption || lia.
Qed.

(** A value of the format, given in the units of the argument, is
    returned as it is. *)
Lemma round_fix v m j :
  0 < v -> v * 2 ^ (k - UNIT) = m * 2 ^ j -> emin + k <= j ->
  v * 2 ^ (k - UNIT) < 2 ^ (j + prec) ->
  round prec emin k (v * 2 ^ (k - UNIT)) = v.
Proof.
  intros Hv Em Hj Hlt.
  pose proof (pow2_pos (k - UNIT) ltac:(lia)) as Hd.
  rewrite round_pos by nia.
  rewrite (nearest_fix prec emin k _ m j); try assumption; [|nia].
  apply Z.div_mul. lia.
Qed.

End Round.

Lemma UNIT_eq : UNIT = 1074.
Proof. reflexivity. Qed.

Lemma to_float_mono n1 n2 : 0 <= n1 <= n2 -> to_float n1 <= to_float n2.
Proof. apply round_mono; rewrite ?UNIT_eq; lia. Qed.

Lemma to_double_mono n1 n2 : 0 <= n1 <= n2 -> to_double n1 <= to_double n2.
Proof. apply round_mono; rewrite ?UNIT_eq; lia. Qed.

Lemma to_float_nonneg n : 0 <= n -> 0 <= to_float n.
Proof. apply round_nonneg; rewrite ?UNIT_eq; lia. Qed.

Lemma to_double_nonneg n : 0 <= n -> 0 <= to_double n.
Proof. apply round_nonneg; rewrite ?UNIT_eq; lia. Qed.

Lemma to_float_pos n : 0 < n -> to_float n = nearest 24 (-149) UNIT n.
Proof.
  intros Hn. unfold to_float. rewrite round_pos by (rewrite ?UNIT_eq; lia).
  rewrite Z.sub_diag. apply Z.div_1_r.
Qed.

Lemma to_double_pos n : 0 < n -> to_double n = nearest 53 (-1074) UNIT n.
Proof.
  intros Hn. unfold to_double. rewrite round_pos by (rewrite ?UNIT_eq; lia).
  rewrite Z.sub_diag. apply Z.div_1_r.
Qed.

(** A [float] is a multiple of the weight of its last bit. *)
Lemma binary32_multiple s :
  binary32 s -> 0 < s -> exists m, s = m * 2 ^ last_bit 24 (-149) UNIT s.
Proof.
  intros Hs Hpos. unfold binary32 in Hs. rewrite to_float_pos in Hs by exact Hpos.
  destruct (nearest_multiple 24 (-149) UNIT ltac:(rewrite UNIT_eq; lia) s Hpos)
    as [m Em].
  exists m. congruence.
Qed.

Lemma binary32_below_binade s :
  0 < s -> s < 2 ^ (last_bit 24 (-149) UNIT s + 24).
Proof. apply below_next_binade. Qed.

(** The result of a conversion to [float] is a [float]. *)
Lemma to_float_binary32 n : 0 <= n -> binary32 (to_float n).
Proof.
  intros Hn. unfold binary32.
  destruct (Z.eq_dec n 0) as [->|Hne]; [reflexivity|].
  pose proof (to_float_nonneg n Hn) as H0.
  destruct (Z.eq_dec (to_float n) 0) as [E|E]; [rewrite E; reflexivity|].
  rewrite (to_float_pos (to_float n)) by lia.
  rewrite (to_float_pos n) in * by lia.
  apply nearest_idem; [lia|rewrite UNIT_eq; lia|lia|lia].
Qed.

(** A [float] is a [double] as it is. *)
Lemma binary32_double s : binary32 s -> 0 <= s -> to_double s = s.
Proof.
  intros Hs Hpos. destruct (Z.eq_dec s 0) as [->|Hne]; [reflexivity|].
  destruct (binary32_multiple s Hs ltac:(lia)) as [m Em].
  pose proof (binary32_below_binade s ltac:(lia)) as Hlt.
  destruct (last_bit_ge 24 (-149) UNIT s) as [Hj _].
  set (j := last_bit 24 (-149) UNIT s) in *.
  rewrite to_double_pos by lia.
  apply (nearest_fix 53 (-1074) UNIT s m j);
    [lia|exact Em|rewrite UNIT_eq in *; lia|].
  eapply Z.lt_le_trans; [exact Hlt|]. apply pow2_le. rewrite UNIT_eq in Hj. lia.
Qed.

(** A [double] product: a value of the format between the exact product
    and the target bounds the rounded product. *)
Lemma mul_double_fix v m j :
  0 < v -> v = m * 2 ^ j -> 0 <= j -> v < 2 ^ (j + 53) ->
  round 53 (-1074) (2 * UNIT) (v * 2 ^ UNIT) = v.
Proof.
  intros Hv Em Hj Hlt.
  pose proof (pow2_pos UNIT ltac:(rewrite UNIT_eq; lia)) as Hd.
  assert (EU : 2 * UNIT - UNIT = UNIT) by lia.
  assert (E : v * 2 ^ UNIT = v * 2 ^ (2 * UNIT - UNIT)) by (rewrite EU; reflexivity).
  rewrite E.
  apply (round_fix 53 (-1074) (2 * UNIT)) with (m := m) (j := j + UNIT).
  - lia.
  - rewrite UNIT_eq; lia.
  - rewrite UNIT_eq; lia.
  - exact Hv.
  - rewrite EU, Em, pow2_split by (rewrite ?UNIT_eq; lia). ring.
  - rewrite UNIT_eq. lia.
  - rewrite EU. replace (j + UNIT + 53) with ((j + 53) + UNIT) by lia.
    rewrite (pow2_split (j + 53)) by (rewrite ?UNIT_eq; lia).
    apply Z.mul_lt_mono_pos_r; assumption.
Qed.

Lemma mul_double_ge v m j n :
  0 < v -> v = m * 2 ^ j -> 0 <= j -> v < 2 ^ (j + 53) ->
  v * 2 ^ UNIT <= n -> v <= round 53 (-1074) (2 * UNIT) n.
Proof.
  intros Hv Em Hj Hlt Hn.
  pose proof (pow2_pos UNIT ltac:(rewrite UNIT_eq; lia)) as Hd.
  apply Z.le_trans with (round 53 (-1074) (2 * UNIT) (v * 2 ^ UNIT)).
  - rewrite (mul_double_fix v m j Hv Em Hj Hlt). lia.
  - apply round_mono; [lia|rewrite UNIT_eq; lia|rewrite UNIT_eq; lia|]. nia.
Qed.

Lemma mul_double_le v m j n :
  0 < v -> v = m * 2 ^ j -> 0 <= j -> v < 2 ^ (j + 53) ->
  0 <= n <= v * 2 ^ UNIT -> round 53 (-1074) (2 * UNIT) n <= v.
Proof.
  intros Hv Em Hj Hlt Hn.
  apply Z.le_trans with (round 53 (-1074) (2 * UNIT) (v * 2 ^ UNIT)).
  - apply round_mono; [lia|rewrite UNIT_eq; lia|rewrite UNIT_eq; lia|]. lia.
  - rewrite (mul_double_fix v m j Hv Em Hj Hlt). lia.
Qed.

Lemma of_int_bound x : 0 <= x <= 255 -> 0 <= of_int x < 2 ^ (UNIT + 8).
Proof.
  intros Hx. unfold of_int.
  pose proof (pow2_pos UNIT ltac:(rewrite UNIT_eq; lia)) as Hd.
  rewrite (Z.add_comm UNIT 8), pow2_split by (rewrite ?UNIT_eq; lia).
  change (2 ^ 8) with 256. nia.
Qed.

Lemma of_int_log2 x :
  1 <= x <= 255 ->
  UNIT <= Z.log2 (of_int x) <= UNIT + 7 /\
  2 ^ Z.log2 (of_int x) <= of_int x.
Proof.
  intros Hx. unfold of_int.
  rewrite Z.log2_mul_pow2 by (rewrite ?UNIT_eq; lia).
  pose proof (Z.log2_nonneg x).
  assert (Z.log2 x < 8) by (apply Z.log2_lt_pow2; [lia|change (2 ^ 8) with 256; lia]).
  split; [lia|].
  rewrite (Z.add_comm UNIT), pow2_split by (rewrite ?UNIT_eq; lia).
  apply Z.mul_le_mono_nonneg_r; [apply Z.pow_nonneg; lia|].
  apply Z.log2_spec. lia.
Qed.

(** The next [float] below and above a byte. *)
Lemma float_below s x :
  binary32 s -> 0 < s -> 1 <= x <= 255 -> s < of_int x ->
  s <= of_int x - 2 ^ (Z.log2 (of_int x) - 24).
Proof.
  intros Hs Hpos Hx Hlt.
  destruct (of_int_log2 x Hx) as [Hl Hge].
  set (l := Z.log2 (of_int x)) in *.
  assert (HU : UNIT = 1074) by reflexivity.
  destruct (Z_lt_le_dec s (2 ^ (l - 1))) as [Hsmall|Hbig].
  - assert (E : 2 ^ l = 2 * 2 ^ (l - 1)).
    { replace l with (1 + (l - 1)) at 1 by lia. rewrite pow2_split by lia.
      reflexivity. }
    assert (2 ^ (l - 24) <= 2 ^ (l - 1)) by (apply pow2_le; lia). lia.
  - destruct (binary32_multiple s Hs Hpos) as [m Em].
    destruct (last_bit_ge 24 (-149) UNIT s) as [_ Hj].
    assert (Hls : l - 1 <= Z.log2 s) by (apply Z.log2_le_pow2; assumption).
    set (j := last_bit 24 (-149) UNIT s) in *.
    set (g := 2 ^ (l - 24)).
    assert (Hg : 0 < g) by (apply pow2_pos; lia).
    assert (Es : s = (m * 2 ^ (j - (l - 24))) * g).
    { rewrite Em. apply pow2_multiple. lia. }
    assert (Ex : of_int x = (x * 2 ^ (UNIT - (l - 24))) * g).
    { unfold of_int. apply pow2_multiple. lia. }
    rewrite Es, Ex in Hlt |- *.
    pose proof (multiples_apart g _ _ Hg Hlt). lia.
Qed.

Lemma float_above s x :
  binary32 s -> 1 <= x <= 255 -> of_int x < s ->
  of_int x + 2 ^ (Z.log2 (of_int x) - 23) <= s.
Proof.
  intros Hs Hx Hlt.
  destruct (of_int_log2 x Hx) as [Hl Hge].
  set (l := Z.log2 (of_int x)) in *.
  assert (HU : UNIT = 1074) by reflexivity.
  assert (Hpos : 0 < s).
  { pose proof (pow2_pos l ltac:(lia)). lia. }
  destruct (binary32_multiple s Hs Hpos) as [m Em].
  destruct (last_bit_ge 24 (-149) UNIT s) as [_ Hj].
  assert (Hls : l <= Z.log2 s) by (apply Z.log2_le_pow2; lia).
  set (j := last_bit 24 (-149) UNIT s) in *.
  set (g := 2 ^ (l - 23)).
  assert (Hg : 0 < g) by (apply pow2_pos; lia).
  assert (Es : s = (m * 2 ^ (j - (l - 23))) * g).
  { rewrite Em. apply pow2_multiple. lia. }
  assert (Ex : of_int x = (x * 2 ^ (UNIT - (l - 23))) * g).
  { unfold of_int. apply pow2_multiple. lia. }
  rewrite Es, Ex in Hlt |- *.
  pose proof (multiples_apart g _ _ Hg Hlt). lia.
Qed.

(** A [float] that is at least [2^(j + 23)] is a multiple of [2^j]. *)
Lemma binary32_grid s j :
  binary32 s -> 0 <= j -> 2 ^ (j + 23) <= s -> exists m, s = m * 2 ^ j.
Proof.
  intros Hs Hj Hge.
  assert (Hpos : 0 < s) by (pose proof (pow2_pos (j + 23) ltac:(lia)); lia).
  destruct (binary32_multiple s Hs Hpos) as [m Em].
  destruct (last_bit_ge 24 (-149) UNIT s) as [_ Hl].
  assert (j + 23 <= Z.log2 s) by (apply Z.log2_le_pow2; assumption).
  exists (m * 2 ^ (last_bit 24 (-149) UNIT s - j)).
  rewrite Em at 1. apply pow2_multiple. lia.
Qed.

Ltac format_side := try lia; try (rewrite UNIT_eq; lia).

Section Smooth.

Variable alpha : Z.
Hypothesis Hok : alpha_ok alpha = true.

Lemma alpha_props :
  0 < alpha < ONE /\ sub_double ONE alpha = ONE - alpha /\
  forall x, 0 <= x <= 255 -> byte_ok alpha x = true.
Proof.
  unfold alpha_ok in Hok.
  apply andb_true_iff in Hok as [H1 Hall].
  apply andb_true_iff in H1 as [H1 Hsub].
  apply andb_true_iff in H1 as [H0 H1].
  apply Z.ltb_lt in H0, H1. apply Z.eqb_eq in Hsub.
  split; [lia|]. split; [exact Hsub|].
  intros x Hx. rewrite forallb_forall in Hall.
  rewrite <- (Z2Nat.id x) by lia. apply Hall. apply in_seq. lia.
Qed.

Lemma byte_props x :
  0 <= x <= 255 ->
  smooth alpha x (of_int x) = of_int x /\
  smooth alpha x 0 = mul_float alpha (of_int x) /\
  0 <= mul_float alpha (of_int x) <= of_int x /\
  (1 <= x ->
   2 ^ (UNIT - 4) <= mul_float alpha (of_int x) /\
   (exists m, mul_float alpha (of_int x) = m * 2 ^ (UNIT - 27)) /\
   alpha * (of_int x - 2 ^ (Z.log2 (of_int x) - 24))
   <= mul_float alpha (of_int x) * 2 ^ UNIT /\
   mul_float alpha (of_int x) * 2 ^ UNIT
   <= alpha * (of_int x + 2 ^ (Z.log2 (of_int x) - 23))).
Proof.
  intros Hx. destruct alpha_props as (Ha & _ & Hall).
  pose proof (Hall x Hx) as Hb. unfold byte_ok in Hb. cbv zeta in Hb.
  apply andb_true_iff in Hb as [Hb Hrest].
  apply andb_true_iff in Hb as [Hb HPX].
  apply andb_true_iff in Hb as [Hfix H0].
  apply Z.eqb_eq in Hfix, H0. apply Z.leb_le in HPX.
  split; [exact Hfix|]. split; [exact H0|]. split.
  - split; [|exact HPX]. unfold mul_float.
    destruct (of_int_bound x Hx).
    apply round_nonneg; format_side; apply Z.mul_nonneg_nonneg; lia.
  - intros H1. apply orb_true_iff in Hrest as [Hz|Hrest];
      [apply Z.eqb_eq in Hz; lia|].
    apply andb_true_iff in Hrest as [Hrest H6].
    apply andb_true_iff in Hrest as [Hrest H5].
    apply andb_true_iff in Hrest as [Hlow Hmod].
    apply Z.leb_le in Hlow, H5, H6. apply Z.eqb_eq in Hmod.
    split; [exact Hlow|]. split; [|split; assumption].
    rewrite Z.land_ones in Hmod by (rewrite UNIT_eq; lia).
    exists (mul_float alpha (of_int x) / 2 ^ (UNIT - 27)).
    rewrite Z.mul_comm. apply Z.div_exact; [|exact Hmod].
    pose proof (pow2_pos (UNIT - 27) ltac:(rewrite UNIT_eq; lia)). lia.
Qed.

Lemma smooth_mono x s1 s2 :
  0 <= x <= 255 -> 0 <= s1 <= s2 -> smooth alpha x s1 <= smooth alpha x s2.
Proof.
  intros Hx Hs. destruct alpha_props as (Ha & Hsub & _).
  destruct (byte_props x Hx) as (_ & _ & [HP _] & _).
  unfold smooth, add_double, mul_double. rewrite Hsub.
  assert (HT : forall s, 0 <= s -> 0 <= round 53 (-1074) (2 * UNIT) ((ONE - alpha) * s)).
  { intros s H. apply round_nonneg; format_side;
      apply Z.mul_nonneg_nonneg; lia. }
  assert (Hmono : round 53 (-1074) (2 * UNIT) ((ONE - alpha) * s1)
                  <= round 53 (-1074) (2 * UNIT) ((ONE - alpha) * s2)).
  { apply round_mono; format_side.
    split; [apply Z.mul_nonneg_nonneg; lia|apply Z.mul_le_mono_nonneg_l; lia]. }
  pose proof (HT s1 ltac:(lia)).
  apply to_float_mono. split; [apply to_double_nonneg; lia|].
  apply to_double_mono. lia.
Qed.

(** Past the last two conversions: a [float] below (above) the [double]
    sum stays below (above) the result. *)
Lemma smooth_ge x s t :
  binary32 s -> 0 <= s ->
  s <= mul_float alpha (of_int x) + mul_double (sub_double ONE alpha) t ->
  s <= smooth alpha x t.
Proof.
  intros Hs Hpos Hle. unfold smooth, add_double.
  pose proof (binary32_double s Hs Hpos) as Hd. unfold binary32 in Hs.
  apply Z.le_trans with (to_float s); [lia|].
  apply to_float_mono. split; [exact Hpos|].
  apply Z.le_trans with (to_double s); [lia|]. apply to_double_mono. lia.
Qed.

Lemma smooth_le x s t :
  binary32 s -> 0 <= s ->
  0 <= mul_float alpha (of_int x) + mul_double (sub_double ONE alpha) t <= s ->
  smooth alpha x t <= s.
Proof.
  intros Hs Hpos Hle. unfold smooth, add_double.
  pose proof (binary32_double s Hs Hpos) as Hd. unfold binary32 in Hs.
  apply Z.le_trans with (to_float s); [|lia].
  apply to_float_mono. split; [apply to_double_nonneg; lia|].
  apply Z.le_trans with (to_double s); [|lia]. apply to_double_mono. lia.
Qed.

(** One update stays between the smoothed value and the new intensity. *)
Lemma smooth_between x s :
  0 <= x <= 255 -> binary32 s -> 0 <= s <= of_int 255 ->
  binary32 (smooth alpha x s) /\
  Z.min s (of_int x) <= smooth alpha x s <= Z.max s (of_int x).
Proof.
  intros Hx Hs Hr.
  destruct alpha_props as (Ha & Hsub & _).
  destruct (byte_props x Hx) as (Hfix & H0 & [HP0 HPX] & Hbig).
  pose proof (of_int_bound 255 ltac:(lia)) as H255.
  pose proof (pow2_pos UNIT ltac:(rewrite UNIT_eq; lia)) as HU.
  assert (HONE : ONE = 2 ^ UNIT) by (unfold ONE, of_int; lia).
  assert (HT : 0 <= mul_double (sub_double ONE alpha) s).
  { unfold mul_double. rewrite Hsub.
    apply round_nonneg; format_side; apply Z.mul_nonneg_nonneg; lia. }
  split.
  { unfold smooth, add_double. apply to_float_binary32.
    apply to_double_nonneg. lia. }
  destruct (Z.lt_trichotomy s (of_int x)) as [Hlt|[Heq|Hgt]].
  - (* the smoothed value rises towards [x] *)
    assert (Hup : smooth alpha x s <= of_int x).
    { apply Z.le_trans with (smooth alpha x (of_int x)); [|lia].
      apply smooth_mono; lia. }
    assert (Hlow : s <= smooth alpha x s); [|lia].
    destruct (Z_le_gt_dec s (mul_float alpha (of_int x))) as [HsP|HsP].
    { apply Z.le_trans with (smooth alpha x 0); [lia|]. apply smooth_mono; lia. }
    assert (H1 : 1 <= x).
    { destruct (Z.eq_dec x 0) as [->|]; [|lia]. unfold of_int in Hlt. lia. }
    destruct (Hbig H1) as (Hlow4 & [mp Emp] & H5 & _).
    destruct (binary32_grid s (UNIT - 27) Hs ltac:(rewrite UNIT_eq; lia))
      as [ms Ems].
    { replace (UNIT - 27 + 23) with (UNIT - 4) by lia. lia. }
    pose proof (float_below s x Hs ltac:(lia) ltac:(lia) Hlt) as Hgap.
    apply smooth_ge; [exact Hs|lia|].
    assert (s - mul_float alpha (of_int x)
            <= mul_double (sub_double ONE alpha) s); [|lia].
    unfold mul_double. rewrite Hsub.
    apply (mul_double_ge _ (ms - mp) (UNIT - 27)).
    + lia.
    + rewrite Emp. rewrite Ems at 1. ring.
    + rewrite UNIT_eq. lia.
    + apply Z.lt_le_trans with (2 ^ (UNIT + 8)); [lia|].
      apply pow2_le. rewrite UNIT_eq. lia.
    + assert (alpha * s
              <= alpha * (of_int x - 2 ^ (Z.log2 (of_int x) - 24)))
        by (apply Z.mul_le_mono_nonneg_l; lia).
      rewrite HONE.
      replace ((s - mul_float alpha (of_int x)) * 2 ^ UNIT)
        with (s * 2 ^ UNIT - mul_float alpha (of_int x) * 2 ^ UNIT) by ring.
      replace ((2 ^ UNIT - alpha) * s) with (s * 2 ^ UNIT - alpha * s) by ring.
      lia.
  - rewrite Heq, Hfix. lia.
  - (* the smoothed value falls towards [x] *)
    assert (Hlow : of_int x <= smooth alpha x s).
    { apply Z.le_trans with (smooth alpha x (of_int x)); [lia|].
      apply smooth_mono; lia. }
    destruct (of_int_bound x Hx) as [HX0 _].
    assert (Hup : smooth alpha x s <= s); [|lia].
    apply smooth_le; [exact Hs|lia|]. split; [lia|].
    assert (mul_double (sub_double ONE alpha) s
            <= s - mul_float alpha (of_int x)); [|lia].
    unfold mul_double. rewrite Hsub.
    assert (Hprod : 0 <= (ONE - alpha) * s) by (apply Z.mul_nonneg_nonneg; lia).
    destruct (Z.eq_dec x 0) as [E0|E0].
    + (* [alpha * 0 = 0]: the bound is [s] itself *)
      assert (EP : mul_float alpha (of_int x) = 0).
      { subst x. unfold of_int in *. lia. }
      rewrite EP, Z.sub_0_r.
      destruct (binary32_multiple s Hs ltac:(lia)) as [m Em].
      destruct (last_bit_ge 24 (-149) UNIT s) as [Hj _].
      apply (mul_double_le _ m (last_bit 24 (-149) UNIT s)).
      * lia.
      * exact Em.
      * pose proof UNIT_eq. lia.
      * eapply Z.lt_le_trans; [apply binary32_below_binade; lia|].
        apply pow2_le. pose proof UNIT_eq. lia.
      * split; [exact Hprod|]. rewrite HONE.
        replace ((2 ^ UNIT - alpha) * s) with (s * 2 ^ UNIT - alpha * s) by ring.
        assert (0 <= alpha * s) by (apply Z.mul_nonneg_nonneg; lia). lia.
    + assert (H1 : 1 <= x) by lia.
      destruct (Hbig H1) as (Hlow4 & [mp Emp] & _ & H6).
      destruct (of_int_log2 x ltac:(lia)) as [Hl Hge].
      destruct (binary32_grid s (UNIT - 27) Hs ltac:(rewrite UNIT_eq; lia))
        as [ms Ems].
      { replace (UNIT - 27 + 23) with (UNIT - 4) by lia. lia. }
      pose proof (float_above s x Hs ltac:(lia) Hgt) as Hgap.
      apply (mul_double_le _ (ms - mp) (UNIT - 27)).
      * lia.
      * rewrite Emp. rewrite Ems at 1. ring.
      * rewrite UNIT_eq. lia.
      * apply Z.lt_le_trans with (2 ^ (UNIT + 8)); [lia|].
        apply pow2_le. rewrite UNIT_eq. lia.
      * split; [exact Hprod|].
        assert (alpha * (of_int x + 2 ^ (Z.log2 (of_int x) - 23))
                <= alpha * s)
          by (apply Z.mul_le_mono_nonneg_l; lia).
        rewrite HONE.
        replace ((s - mul_float alpha (of_int x)) * 2 ^ UNIT)
          with (s * 2 ^ UNIT - mul_float alpha (of_int x) * 2 ^ UNIT) by ring.
        replace ((2 ^ UNIT - alpha) * s) with (s * 2 ^ UNIT - alpha * s) by ring.
        lia.
Qed.

(** One update stays within 0 and 255, whatever value within 0 and 255 it
    starts from. *)
Lemma smooth_range x s :
  0 <= x <= 255 -> 0 <= s <= of_int 255 ->
  0 <= smooth alpha x s <= of_int 255.
Proof.
  intros Hx Hs. destruct alpha_props as (Ha & Hsub & _).
  destruct (byte_props x Hx) as (_ & _ & [HP0 _] & _).
  split.
  - unfold smooth, add_double. apply to_float_nonneg, to_double_nonneg.
    assert (0 <= mul_double (sub_double ONE alpha) s); [|lia].
    unfold mul_double. rewrite Hsub.
    apply round_nonneg; format_side; apply Z.mul_nonneg_nonneg; lia.
  - apply Z.le_trans with (smooth alpha x (of_int 255));
      [apply smooth_mono; lia|].
    assert (H255 : binary32 (of_int 255)) by (vm_compute; reflexivity).
    destruct (smooth_between x (of_int 255) Hx H255 ltac:(lia)) as [_ [_ Hup]].
    assert (of_int x <= of_int 255)
      by (unfold of_int; apply Z.mul_le_mono_nonneg_r;
          [apply Z.pow_nonneg|]; lia).
    lia.
Qed.

End Smooth.

Lemma value_range n :
  (0 <= value n <= 255)%Q <-> 0 <= n <= of_int 255.
Proof.
  pose proof (pow2_pos UNIT ltac:(rewrite UNIT_eq; lia)) as HU.
  unfold value, Qle, of_int. cbn [Qnum Qden].
  rewrite Z2Pos.id by exact HU. lia.
Qed.

End FloatRounding.

(** * Exponential smoothing *)

Module Smoothing.
Import Main.

Lemma updateLEDPattern_smooths st pr mo pI mI now :
  smoothedPresenceIntensity (fst (updateLEDPattern st pr mo pI mI now))
  = smooth SMOOTHING_FACTOR pI (smoothedPresenceIntensity st) /\
  smoothedMotionIntensity (fst (updateLEDPattern st pr mo pI mI now))
  = smooth SMOOTHING_FACTOR mI (smoothedMotionIntensity st).
Proof.
  unfold updateLEDPattern.
  destruct (parametersChanged _ st); [destruct (_ >? _)%Z|]; split; reflexivity.
Qed.

Lemma factor_ok : IEEE.alpha_ok SMOOTHING_FACTOR = true.
Proof. vm_compute. reflexivity. Qed.





End Smoothing.

(** * The jitter of a spawned point's target intensity *)

Module SpawnJitter.
Import FastLED Simplified.

Lemma random8_lim_range lim t :
  0 < lim <= 256 -> 0 <= fst (random8_lim lim t) < lim.
Proof.
  intros Hl. unfold random8_lim, random8, bind, ret, draw.
  destruct t as [|x t]; simpl.
  - change (0 mod 256) with 0. rewrite Z.mul_0_l, Z.shiftr_0_l. lia.
  - rewrite Z.shiftr_div_pow2 by lia. change (2 ^ 8) with 256.
    pose proof (Z.mod_pos_bound (x mod 65536) 256 ltac:(lia)).
    split; [apply Z.div_pos; nia|]. apply Z.div_lt_upper_bound; nia.
Qed.

(** C10. The jitter [random8(20)] that [gentleGlow] subtracts from the
    brightness lies in 0..19, and the difference is stored in a byte.  For
    the brightness 10 and draws that spawn a point with jitter 15, the
    point spawned into the empty pool has the target intensity
    [(10 - 15) mod 256 = 251], which is above the brightness asked for. *)
Theorem spawn_target_wraps :
  (forall t, 0 <= fst (random8_lim 20 t) <= 19) /\
  exists (brightness : Z) (t : list Z) (g : GlowPoint),
    0 <= brightness < 20 /\
    fst (gentleGlow emptyPool 100 brightness 50 5 150 t) !! 0%nat = Some g /\
    active g = true /\ state g = 1 /\ currentIntensity g = 0 /\
    fst (random8_lim 20 [200]) = 15 /\
    maxIntensity g = to_uint8 (brightness - 15) /\
    maxIntensity g = 251 /\
    maxIntensity g > brightness.
Proof.
  split.
  - intros t. pose proof (random8_lim_range 20 t). lia.
  - exists 10, [255; 100; 30; 200; 200], (mkGlowPoint 0 96 5 251 0 1 true).
    vm_compute. repeat split; try discriminate; reflexivity.
Qed.

End SpawnJitter.

(** * More on the simplified revision's pool *)

Module PoolOperations.
Import FastLED Simplified SimplifiedPool.

Lemma activeCount_app l1 l2 :
  activeCount (l1 ++ l2) = (activeCount l1 + activeCount l2)%nat.
Proof. unfold activeCount. rewrite filter_app, length_app. reflexivity. Qed.

Lemma activeCount_cons g l :
  activeCount (g :: l) = ((if active g then 1 else 0) + activeCount l)%nat.
Proof.
  unfold activeCount. rewrite filter_cons.
  destruct (active g) eqn:E; destruct (decide _) as [H|H]; simpl;
    congruence.
Qed.

(** Replacing slot [i] changes the count by the difference of the two
    flags. *)
Lemma activeCount_insert gp i g g' :
  gp !! i = Some g ->
  (activeCount (<[i := g']> gp) + (if active g then 1 else 0)
   = activeCount gp + (if active g' then 1 else 0))%nat.
Proof.
  intros Hg. rewrite insert_take_drop by (apply lookup_lt_Some in Hg; exact Hg).
  rewrite <- (take_drop_middle gp i g Hg) at 3.
  rewrite !activeCount_app, !activeCount_cons. lia.
Qed.

Lemma addGlowPoint_loop_first n : forall i gp p h s x j g,
  (i <= j < i + n)%nat -> gp !! j = Some g -> active g = false ->
  (forall k g', (i <= k < j)%nat -> gp !! k = Some g' -> active g' = true) ->
  (j < length gp)%nat ->
  addGlowPoint_loop n i gp p h s x
  = (Z.of_nat j, <[j := newGlowPoint p h s x]> gp).
Proof.
  induction n as [|n IH]; intros i gp p h s x j g Hj Hg Ha Hbefore Hlen; [lia|].
  simpl. destruct (decide (i = j)) as [->|Hne].
  - rewrite Hg, Ha. reflexivity.
  - destruct (lookup_lt_is_Some_2 gp i) as [g0 Hg0]; [lia|].
    rewrite Hg0, (Hbefore i g0) by (lia || assumption). simpl.
    apply (IH (S i) gp p h s x j g); try assumption; try lia.
    intros k g' Hk. apply Hbefore. lia.
Qed.

(** X1. [addGlowPoint] takes the free slot of lowest index: when slot [j]
    is inactive and every slot before it is active, the call returns [j],
    writes the new growing point of intensity 0 there, leaves every other
    slot as it was, and the pool has one more active point. *)
Theorem addGlowPoint_first_free :
  forall (gp : list GlowPoint) (p h s x : Z) (j : nat) (g : GlowPoint),
    (j < MAX_GLOW_POINTS)%nat ->
    gp !! j = Some g -> active g = false ->
    (forall k g', (k < j)%nat -> gp !! k = Some g' -> active g' = true) ->
    let r := addGlowPoint gp p h s x in
    fst r = Z.of_nat j /\
    snd r !! j = Some (newGlowPoint p h s x) /\
    (forall k, k <> j -> snd r !! k = gp !! k) /\
    activeCount (snd r) = S (activeCount gp).
Proof.
  intros gp p h s x j g Hj Hg Ha Hbefore r.
  assert (Hlen : (j < length gp)%nat) by (apply lookup_lt_Some in Hg; exact Hg).
  assert (Hr : r = (Z.of_nat j, <[j := newGlowPoint p h s x]> gp)).
  { unfold r, addGlowPoint.
    apply (addGlowPoint_loop_first _ _ _ _ _ _ _ _ g); try assumption; try lia.
    intros k g' Hk. apply Hbefore. lia. }
  rewrite Hr. simpl. split; [reflexivity|]. split; [|split].
  - apply list_lookup_insert_eq. exact Hlen.
  - intros k Hk. apply list_lookup_insert_ne. congruence.
  - pose proof (activeCount_insert gp j g (newGlowPoint p h s x) Hg) as H.
    rewrite Ha in H. simpl in H. lia.
Qed.

Lemma addGlowPoint_first_free_witness :
  let r := addGlowPoint (<[2%nat := mkGlowPoint 40 30 5 150 0 (-1) false]> fullPool)
             7 8 9 10 in
  fst r = 2 /\ activeCount (snd r) = 5%nat.
Proof.
  assert (H0 : (2 < MAX_GLOW_POINTS)%nat) by (unfold MAX_GLOW_POINTS; lia).
  assert (Hb : forall k g',
             (k < 2)%nat ->
             <[2%nat := mkGlowPoint 40 30 5 150 0 (-1) false]> fullPool !! k = Some g' ->
             active g' = true).
  { intros k g' Hk. destruct k as [|[|k]]; simpl; intros E;
      [inversion E; reflexivity|inversion E; reflexivity|lia]. }
  assert (Hg : <[2%nat := mkGlowPoint 40 30 5 150 0 (-1) false]> fullPool !! 2%nat
               = Some (mkGlowPoint 40 30 5 150 0 (-1) false)) by reflexivity.
  destruct (addGlowPoint_first_free
              (<[2%nat := mkGlowPoint 40 30 5 150 0 (-1) false]> fullPool)
              7 8 9 10 2 (mkGlowPoint 40 30 5 150 0 (-1) false)
              H0 Hg eq_refl Hb) as (H1 & _ & _ & H4).
  split; [exact H1|exact H4].
Defined.

Lemma updatePoint_never_activates g speed t :
  active (step g speed t) = true -> active g = true.
Proof.
  unfold step. destruct (active g) eqn:Ha; [reflexivity|].
  rewrite GlowLife.updatePoint_inactive by exact Ha. simpl. congruence.
Qed.

(** X2. [updateGlowPoint(index, speed)] changes the addressed slot only,
    and never turns an inactive slot active; on an inactive slot it
    returns false, draws nothing and leaves the whole array as it is. *)
Theorem updateGlowPoint_local :
  forall (gp : list GlowPoint) (ix : nat) (g : GlowPoint) (speed : Z) (t : list Z),
    gp !! ix = Some g ->
    let r := updateGlowPoint gp ix speed t in
    (forall j, j <> ix -> snd (fst r) !! j = gp !! j) /\
    length (snd (fst r)) = length gp /\
    (activeCount (snd (fst r)) <= activeCount gp)%nat /\
    (active g = false -> r = ((false, gp), t)).
Proof.
  intros gp ix g speed t Hg r.
  destruct (updateGlowPoint_slot gp ix g speed t Hg) as (Hs & _ & Ho).
  split; [exact Ho|]. split; [apply updateGlowPoint_length|]. split.
  - unfold r, updateGlowPoint. rewrite Hg. unfold bind, ret.
    pose proof (updatePoint_never_activates g speed t) as Hn. unfold step in Hn.
    destruct (updatePoint g speed t) as [[b g'] t']. simpl in *.
    pose proof (activeCount_insert gp ix g g' Hg) as H.
    destruct (active g'); [rewrite Hn in H by reflexivity|destruct (active g)]; lia.
  - intros Ha. unfold r, updateGlowPoint. rewrite Hg.
    unfold bind, ret. rewrite GlowLife.updatePoint_inactive by exact Ha.
    simpl. rewrite list_insert_id by exact Hg. reflexivity.
Qed.

Lemma updateGlowPoint_local_witness :
  (activeCount (snd (fst (updateGlowPoint fullPool 2 255 []))) <= activeCount fullPool)%nat.
Proof.
  assert (Hg : fullPool !! 2%nat = Some (mkGlowPoint 40 30 5 150 90 (-1) true))
    by reflexivity.
  exact (proj1 (proj2 (proj2
    (updateGlowPoint_local fullPool 2 (mkGlowPoint 40 30 5 150 90 (-1) true) 255 []
       Hg)))).
Defined.

Lemma updateAll_activeCount n : forall i gp sp t,
  (activeCount (fst (updateAll n i gp sp t)) <= activeCount gp)%nat.
Proof.
  induction n as [|n IH]; intros i gp sp t; simpl; [lia|].
  destruct (gp !! i) as [g|] eqn:Hg; [|apply IH].
  destruct (active g); [|apply IH].
  unfold bind.
  destruct (updateGlowPoint_local gp i g sp t Hg) as (_ & _ & Hc & _).
  destruct (updateGlowPoint gp i sp t) as [[b gp'] t']. simpl in *.
  etransitivity; [apply IH|exact Hc].
Qed.

Lemma addGlowPoint_loop_activeCount n : forall i gp p h s x,
  (activeCount (snd (addGlowPoint_loop n i gp p h s x)) <= S (activeCount gp))%nat.
Proof.
  induction n as [|n IH]; intros i gp p h s x; simpl; [lia|].
  destruct (gp !! i) as [g|] eqn:Hg; [|apply IH].
  destruct (active g) eqn:Ha; simpl; [apply IH|].
  pose proof (activeCount_insert gp i g (newGlowPoint p h s x) Hg) as H.
  rewrite Ha in H. simpl in H. lia.
Qed.

(** X3. One call of [gentleGlow] adds at most one active point to the pool,
    whatever is drawn: the number of active slots afterwards is at most the
    number before plus one. *)
Theorem gentleGlow_adds_at_most_one :
  forall (gp : list GlowPoint) (h brightness speed s numLeds : Z) (t : list Z),
    (activeCount (fst (gentleGlow gp h brightness speed s numLeds t))
     <= S (activeCount gp))%nat.
Proof.
  intros gp h b sp s n t. unfold gentleGlow, bind.
  pose proof (updateAll_activeCount MAX_GLOW_POINTS 0 gp sp t) as Hu.
  destruct (updateAll MAX_GLOW_POINTS 0 gp sp t) as [gp1 t1]. simpl in Hu.
  assert (Hs : (activeCount (fst (spawn gp1 h b sp s n t1)) <= S (activeCount gp1))%nat).
  { unfold spawn. destruct (activeCount gp1 <? MAX_GLOW_POINTS)%nat; [|simpl; lia].
    unfold bind, ret, random8, random8_lim, random16_lim, random16, draw.
    destruct t1 as [|x0 t1]; simpl.
    - destruct (_ >? _); simpl; [apply addGlowPoint_loop_activeCount|lia].
    - destruct (_ >? _); simpl; [|lia].
      destruct t1 as [|x1 [|x2 [|x3 [|x4 t1]]]]; simpl;
        apply addGlowPoint_loop_activeCount. }
  lia.
Qed.

End PoolOperations.

(** * How long a point grows and fades in the simplified revision *)

Module GlowDuration.
Import FastLED Simplified SimplifiedPool.

Lemma lifetime_tail g speed rest t k :
  fst (lifetime g (speed :: rest) t) !! S k
  = fst (lifetime (step g speed t) rest (snd (updatePoint g speed t))) !! k.
Proof. rewrite GlowLife.lifetime_cons. reflexivity. Qed.

Lemma lifetime_inactive speeds : forall g t k gk,
  active g = false ->
  fst (lifetime g speeds t) !! k = Some gk -> gk = g.
Proof.
  induction speeds as [|speed rest IH]; intros g t k gk Ha Hk.
  - destruct k; simpl in Hk; [congruence|discriminate].
  - destruct k as [|k].
    + rewrite GlowLife.lifetime_head in Hk. congruence.
    + rewrite lifetime_tail in Hk.
      assert (Hs : step g speed t = g).
      { unfold step. rewrite GlowLife.updatePoint_inactive by exact Ha. reflexivity. }
      rewrite Hs in Hk. eapply IH; eassumption.
Qed.

Lemma growing_bound speeds : forall g t k gk,
  wellFormed g -> active g = true -> state g = 1 ->
  Forall is_uint8 speeds ->
  fst (lifetime g speeds t) !! k = Some gk ->
  maxIntensity g - currentIntensity g < Z.of_nat k ->
  state gk <> 1.
Proof.
  induction speeds as [|speed rest IH]; intros g t k gk Hw Ha Hs Hb Hk Hlt.
  - destruct k; simpl in Hk; [|discriminate].
    destruct Hw as (Hc & _). simpl in Hlt. lia.
  - destruct k as [|k].
    { destruct Hw as (Hc & _). simpl in Hlt. lia. }
    rewrite lifetime_tail in Hk.
    inversion Hb as [|? ? Hsp Hrest]; subst.
    destruct (LifecycleStep.simplified_step g speed t Hw Ha Hsp)
      as (Hcv & Hgrow & _).
    destruct (Hgrow Hs) as (Hci & Hact & Hst & Hor).
    destruct (GlowLife.step_spec g speed t Hw) as (Hw' & Hmax & _).
    destruct Hor as [H1|H0].
    + (* still growing, strictly closer to the target *)
      assert (Hnot : currentIntensity (step g speed t) <> maxIntensity g).
      { intros E. apply Hst in E. congruence. }
      pose proof (GlowLife.change_uint8 speed Hsp) as Hch.
      apply (IH (step g speed t) _ k gk Hw' Hact H1 Hrest Hk).
      rewrite Hmax. lia.
    + (* stable: never growing again *)
      apply (GlowLife.lifetime_not_growing rest (step g speed t)
               (snd (updatePoint g speed t)) Hw' k 0%nat (step g speed t) gk).
      * apply GlowLife.lifetime_head.
      * exact Hk.
      * congruence.
Qed.

Lemma fading_bound speeds : forall g t k gk,
  wellFormed g -> active g = true -> state g = -1 ->
  Forall is_uint8 speeds ->
  fst (lifetime g speeds t) !! k = Some gk ->
  Z.max 1 (currentIntensity g) <= Z.of_nat k ->
  active gk = false.
Proof.
  induction speeds as [|speed rest IH]; intros g t k gk Hw Ha Hs Hb Hk Hle.
  - destruct k; simpl in Hk; [|discriminate]. simpl in Hle. lia.
  - destruct k as [|k]; [simpl in Hle; lia|].
    rewrite lifetime_tail in Hk.
    inversion Hb as [|? ? Hsp Hrest]; subst.
    destruct (LifecycleStep.simplified_step g speed t Hw Ha Hsp)
      as (Hcv & _ & Hfade).
    destruct (Hfade Hs) as (Hst & Hoff & Hon).
    destruct (GlowLife.step_spec g speed t Hw) as (Hw' & _).
    pose proof (GlowLife.change_uint8 speed Hsp) as Hch.
    destruct (Z_le_gt_dec (currentIntensity g) (change speed)) as [Hsmall|Hbig].
    + pose proof (Hoff Hsmall) as Hin.
      rewrite (lifetime_inactive rest _ _ k gk Hin Hk). exact Hin.
    + destruct (Hon ltac:(lia)) as (Hact & Hci).
      apply (IH (step g speed t) _ k gk Hw' Hact Hst Hrest Hk). lia.
Qed.

(** X4. With speeds in 0..255, a growing point whose intensity is [d] below
    its target has stopped growing after more than [d] calls of
    [updateGlowPoint] (so after [d + 1] calls at the latest), whatever is
    drawn, and is never growing again. *)
Theorem growing_ends :
  forall (g : GlowPoint) (speeds : list Z) (t : list Z) (k : nat) (gk : GlowPoint),
    wellFormed g -> active g = true -> state g = 1 ->
    Forall is_uint8 speeds ->
    fst (lifetime g speeds t) !! k = Some gk ->
    maxIntensity g - currentIntensity g < Z.of_nat k ->
    state gk <> 1.
Proof.
  intros g speeds t k gk Hw Ha Hs Hb Hk Hlt.
  eapply growing_bound; eassumption.
Qed.

Lemma growingPoint_ok : wellFormed growingPoint.
Proof. unfold wellFormed. simpl. lia. Defined.

Lemma speeds_ok : Forall is_uint8 [20; 20; 20; 20].
Proof. repeat constructor; unfold is_uint8; lia. Defined.

Lemma growing_ends_witness :
  wellFormed growingPoint /\ Forall is_uint8 [20; 20; 20; 20] /\
  maxIntensity growingPoint - currentIntensity growingPoint < Z.of_nat 4 /\
  exists gk,
    fst (lifetime growingPoint [20; 20; 20; 20] []) !! 4%nat = Some gk /\
    state gk <> 1.
Proof.
  assert (Hlt : maxIntensity growingPoint - currentIntensity growingPoint
                < Z.of_nat 4) by (simpl; lia).
  split; [exact growingPoint_ok|]. split; [exact speeds_ok|].
  split; [exact Hlt|].
  eexists. split; [vm_compute; reflexivity|].
  refine (growing_ends growingPoint [20; 20; 20; 20] [] 4 _
            growingPoint_ok eq_refl eq_refl speeds_ok _ Hlt).
  vm_compute. reflexivity.
Defined.

(** X5. With speeds in 0..255, a fading point of intensity [c] is inactive
    after [max 1 c] calls of [updateGlowPoint] at the latest, and stays
    inactive: fading always ends and frees the slot. *)
Theorem fading_ends :
  forall (g : GlowPoint) (speeds : list Z) (t : list Z) (k : nat) (gk : GlowPoint),
    wellFormed g -> active g = true -> state g = -1 ->
    Forall is_uint8 speeds ->
    fst (lifetime g speeds t) !! k = Some gk ->
    Z.max 1 (currentIntensity g) <= Z.of_nat k ->
    active gk = false.
Proof.
  intros g speeds t k gk Hw Ha Hs Hb Hk Hle.
  eapply fading_bound; eassumption.
Qed.

Lemma fadingPoint_ok : wellFormed fadingPoint.
Proof. unfold wellFormed. simpl. lia. Defined.

Lemma fast_speeds_ok : Forall is_uint8 (repeat 255 100).
Proof.
  apply Forall_forall. intros x Hx.
  apply list_elem_of_In, repeat_spec in Hx. subst. unfold is_uint8. lia.
Defined.

Lemma fading_ends_witness :
  wellFormed fadingPoint /\ Forall is_uint8 (repeat 255 100) /\
  Z.max 1 (currentIntensity fadingPoint) <= Z.of_nat 100 /\
  exists gk,
    fst (lifetime fadingPoint (repeat 255 100) []) !! 100%nat = Some gk /\
    active gk = false.
Proof.
  assert (Hle : Z.max 1 (currentIntensity fadingPoint) <= Z.of_nat 100)
    by (vm_compute; discriminate).
  split; [exact fadingPoint_ok|]. split; [exact fast_speeds_ok|].
  split; [exact Hle|].
  eexists. split; [vm_compute; reflexivity|].
  refine (fading_ends fadingPoint (repeat 255 100) [] 100 _
            fadingPoint_ok eq_refl eq_refl fast_speeds_ok _ Hle).
  vm_compute. reflexivity.
Defined.

End GlowDuration.

(** * More on the signal conditioning of [loop] *)

Module Conditioning.
Import Main MainRuns.

Lemma logIntensity_byte scale value : is_uint8 (logIntensity scale value).
Proof.
  unfold logIntensity, Arduino.constrain, INTENSITY_MAX. cbv zeta.
  pose proof (to_uint8_range (scaledLog10 scale (Z.abs value + 1))) as H.
  unfold is_uint8 in *.
  destruct (_ <? 0) eqn:E1; [lia|]. destruct (_ >? 255) eqn:E2; lia.
Qed.

Lemma debounce_ok minValue scale c value flag :
  channel_ok c -> channel_ok (debounce minValue scale c value flag).
Proof.
  unfold channel_ok, uint8_counters, is_uint8.
  intros ((Hd & Hn) & Hi & Hz & Hone).
  pose proof (logIntensity_byte scale value) as Hlog. unfold is_uint8 in Hlog.
  unfold debounce, DEBOUNCE_COUNT.
  destruct (qualifies minValue value flag);
    destruct (_ >=? 3) eqn:E; simpl;
    repeat split; intros; try lia; try discriminate; auto.
Qed.

(** X6. Whatever the sensor reads, a channel of [loop] keeps its
    invariants: both debounce counters stay within 0..255 and after a poll
    one of them is 0, the intensity is a byte, and a channel that is not
    detected has intensity 0. *)
Theorem channel_invariant :
  forall (minValue scale : Z) (c : Channel) (rs : list (Z * bool)),
    channel_ok c -> channel_ok (polls minValue scale c rs).
Proof.
  intros minValue scale c rs. revert c.
  induction rs as [|r rs IH]; intros c Hc; simpl; [exact Hc|].
  apply IH, debounce_ok, Hc.
Qed.

Lemma initial_channel_ok : channel_ok (presence initialSensors).
Proof.
  unfold channel_ok, uint8_counters, is_uint8. simpl.
  repeat split; intros; try lia; auto.
Defined.

Lemma channel_invariant_witness :
  channel_ok (presence initialSensors) /\
  channel_ok (polls PRESENCE_MIN_VALUE PRESENCE_LOG_SCALE_FACTOR
                (presence initialSensors)
                [(300, true); (300, true); (300, true); (10, false)]).
Proof.
  split; [exact initial_channel_ok|].
  exact (channel_invariant PRESENCE_MIN_VALUE PRESENCE_LOG_SCALE_FACTOR
           (presence initialSensors)
           [(300, true); (300, true); (300, true); (10, false)]
           initial_channel_ok).
Defined.

(** X7. Below the wrap of the byte cast the intensity follows the magnitude
    of the reading: for presence (scale 60) up to [|raw| = 18477] and for
    motion (scale 70) up to [|raw| = 4539], a reading of larger magnitude
    never gets a smaller intensity; and a reading above the floor of 70
    gets at least 111 (presence) or 130 (motion). *)
Theorem intensity_monotone_below_wrap :
  forall r1 r2 : Z,
    Z.abs r1 <= Z.abs r2 ->
    (Z.abs r2 <= 18477 ->
       logIntensity PRESENCE_LOG_SCALE_FACTOR r1
       <= logIntensity PRESENCE_LOG_SCALE_FACTOR r2 /\
       (PRESENCE_MIN_VALUE < Z.abs r1 ->
          111 <= logIntensity PRESENCE_LOG_SCALE_FACTOR r1)) /\
    (Z.abs r2 <= 4539 ->
       logIntensity MOTION_LOG_SCALE_FACTOR r1
       <= logIntensity MOTION_LOG_SCALE_FACTOR r2 /\
       (MOTION_MIN_VALUE < Z.abs r1 ->
          130 <= logIntensity MOTION_LOG_SCALE_FACTOR r1)).
Proof.
  intros r1 r2 Hle. split; intros Hr2.
  - assert (Hfit : forall r, Z.abs r <= 18477 ->
              scaledLog10 PRESENCE_LOG_SCALE_FACTOR (Z.abs r + 1) <= 255).
    { intros r Hr.
      transitivity (scaledLog10 PRESENCE_LOG_SCALE_FACTOR 18478);
        [|vm_compute; discriminate].
      apply Intensity.scaledLog10_mono; [unfold PRESENCE_LOG_SCALE_FACTOR|]; lia. }
    split.
    + apply Intensity.logIntensity_mono_in_range;
        [unfold PRESENCE_LOG_SCALE_FACTOR; lia|exact Hle|apply Hfit; exact Hr2].
    + intros Hfloor. unfold PRESENCE_MIN_VALUE in Hfloor.
      change 111 with (logIntensity PRESENCE_LOG_SCALE_FACTOR 71).
      apply Intensity.logIntensity_mono_in_range;
        [unfold PRESENCE_LOG_SCALE_FACTOR; lia|simpl; lia|apply Hfit; lia].
  - assert (Hfit : forall r, Z.abs r <= 4539 ->
              scaledLog10 MOTION_LOG_SCALE_FACTOR (Z.abs r + 1) <= 255).
    { intros r Hr.
      transitivity (scaledLog10 MOTION_LOG_SCALE_FACTOR 4540);
        [|vm_compute; discriminate].
      apply Intensity.scaledLog10_mono; [unfold MOTION_LOG_SCALE_FACTOR|]; lia. }
    split.
    + apply Intensity.logIntensity_mono_in_range;
        [unfold MOTION_LOG_SCALE_FACTOR; lia|exact Hle|apply Hfit; exact Hr2].
    + intros Hfloor. unfold MOTION_MIN_VALUE in Hfloor.
      change 130 with (logIntensity MOTION_LOG_SCALE_FACTOR 71).
      apply Intensity.logIntensity_mono_in_range;
        [unfold MOTION_LOG_SCALE_FACTOR; lia|simpl; lia|apply Hfit; lia].
Qed.

Lemma intensity_monotone_below_wrap_witness :
  Z.abs (-200) <= Z.abs 1500 /\ Z.abs 1500 <= 18477 /\
  logIntensity PRESENCE_LOG_SCALE_FACTOR (-200)
  <= logIntensity PRESENCE_LOG_SCALE_FACTOR 1500.
Proof.
  assert (H1 : Z.abs (-200) <= Z.abs 1500) by (simpl; lia).
  assert (H2 : Z.abs 1500 <= 18477) by (simpl; lia).
  split; [exact H1|]. split; [exact H2|].
  exact (proj1 (proj1 (intensity_monotone_below_wrap (-200) 1500 H1) H2)).
Defined.

End Conditioning.

(** * More on [updateLEDPattern] *)

Module MapperRuns.
Import Main MainRuns.

Lemma map_range_up x in_min in_max out_min out_max :
  in_min <= x <= in_max -> in_min < in_max -> out_min <= out_max ->
  out_min <= Arduino.map x in_min in_max out_min out_max <= out_max.
Proof.
  intros Hx Hin Hout. unfold Arduino.map.
  rewrite Z.quot_div_nonneg by nia.
  assert (0 <= (x - in_min) * (out_max - out_min) / (in_max - in_min)
          <= out_max - out_min); [|lia].
  split; [apply Z.div_pos; nia|].
  apply Z.div_le_upper_bound; nia.
Qed.

Lemma map_range_down x in_min in_max out_min out_max :
  in_min <= x <= in_max -> in_min < in_max -> out_max <= out_min ->
  out_max <= Arduino.map x in_min in_max out_min out_max <= out_min.
Proof.
  intros Hx Hin Hout. unfold Arduino.map.
  replace ((x - in_min) * (out_max - out_min))
    with (- ((x - in_min) * (out_min - out_max))) by ring.
  rewrite Z.quot_opp_l by lia.
  rewrite Z.quot_div_nonneg by nia.
  assert (0 <= (x - in_min) * (out_min - out_max) / (in_max - in_min)
          <= out_min - out_max); [|lia].
  split; [apply Z.div_pos; nia|].
  apply Z.div_le_upper_bound; nia.
Qed.

(** X8. Whatever the smoothed intensities and the detection flags, the
    parameters [updateLEDPattern] computes stay in their ranges: hue within
    0..160, brightness within 80..220, speed within 20..100 and spread
    within 3..8; and with neither presence nor motion detected they are
    the idle values: hue 160, brightness 100 and speed 25. *)
Theorem candidate_ranges :
  forall (pr mo : bool) (sp sm : Q),
    let p := candidate pr mo sp sm in
    HUE_WARM <= newHue p <= HUE_COOL /\
    BRIGHTNESS_MIN <= newBrightness p <= BRIGHTNESS_MAX /\
    SPEED_MIN <= newSpeed p <= SPEED_MAX /\
    SPREAD_MIN <= newSpread p <= SPREAD_MAX /\
    (pr = false -> mo = false ->
       newHue p = HUE_COOL /\ newBrightness p = BRIGHTNESS_MIN + 20 /\
       newSpeed p = SPEED_MIN + 5).
Proof.
  intros pr mo sp sm. unfold candidate.
  pose proof (to_uint8_range (Qfloor sp)) as Ha.
  pose proof (to_uint8_range (Qfloor sm)) as Hb.
  set (a := to_uint8 (Qfloor sp)) in *. set (b := to_uint8 (Qfloor sm)) in *.
  unfold is_uint8 in Ha, Hb.
  unfold INTENSITY_MAX, INTENSITY_MEDIUM, INTENSITY_LOW, BRIGHTNESS_MIN,
    BRIGHTNESS_MAX, SPEED_MIN, SPEED_MAX, HUE_COOL, HUE_NEUTRAL, HUE_WARM,
    SPREAD_MIN, SPREAD_MAX.
  pose proof (map_range_up a 0 255 80 220 ltac:(lia) ltac:(lia) ltac:(lia)) as Hbr.
  pose proof (map_range_up b 0 255 20 100 ltac:(lia) ltac:(lia) ltac:(lia)) as Hsp.
  pose proof (map_range_up (Z.max a b) 0 255 3 8 ltac:(lia) ltac:(lia) ltac:(lia))
    as Hsd.
  assert (Hhue :
    0 <= (if mo && (b >? 128)
          then to_uint8 (Arduino.map b 128 255 96 0)
          else if pr && (a >? 64)
               then to_uint8 (Arduino.map a 64 255 160 96)
               else 160) <= 160).
  { destruct (mo && (b >? 128)) eqn:E1.
    - apply andb_true_iff in E1 as [_ E1]. apply Z.gtb_gt in E1.
      pose proof (map_range_down b 128 255 96 0 ltac:(lia) ltac:(lia) ltac:(lia)).
      rewrite to_uint8_id by (unfold is_uint8; lia). lia.
    - destruct (pr && (a >? 64)) eqn:E2; [|lia].
      apply andb_true_iff in E2 as [_ E2]. apply Z.gtb_gt in E2.
      pose proof (map_range_down a 64 255 160 96 ltac:(lia) ltac:(lia) ltac:(lia)).
      rewrite to_uint8_id by (unfold is_uint8; lia). lia. }
  rewrite (to_uint8_id (Arduino.map a 0 255 80 220)) by (unfold is_uint8; lia).
  rewrite (to_uint8_id (Arduino.map b 0 255 20 100)) by (unfold is_uint8; lia).
  rewrite (to_uint8_id (Arduino.map (Z.max a b) 0 255 3 8))
    by (unfold is_uint8; lia).
  destruct pr, mo; simpl negb; simpl andb; cbv zeta; simpl newHue;
    simpl newBrightness; simpl newSpeed; simpl newSpread;
    simpl in Hhue; repeat split; intros; try lia; try discriminate.
Qed.

Lemma candidate_ranges_witness :
  newHue (candidate false false 12 200) = HUE_COOL /\
  newBrightness (candidate false false 12 200) = BRIGHTNESS_MIN + 20 /\
  newSpeed (candidate false false 12 200) = SPEED_MIN + 5.
Proof.
  exact (proj2 (proj2 (proj2 (proj2 (candidate_ranges false false 12 200))))
           eq_refl eq_refl).
Defined.

Lemma tick_smoothed st c :
  byte_tick c -> smoothed_in_range st -> smoothed_in_range (fst (tick st c)).
Proof.
  intros [Hp Hm] [Hsp Hsm]. unfold smoothed_in_range, tick.
  destruct (Smoothing.updateLEDPattern_smooths st (t_presence c) (t_motion c)
              (t_presenceIntensity c) (t_motionIntensity c) (t_now c)) as [E1 E2].
  rewrite E1, E2.
  pose proof (proj1 (FloatRounding.value_range _) Hsp) as Hsp'.
  pose proof (proj1 (FloatRounding.value_range _) Hsm) as Hsm'.
  split; apply (proj2 (FloatRounding.value_range _));
    apply (FloatRounding.smooth_range _ Smoothing.factor_ok); assumption.
Qed.

(** X9. Over any run of [updateLEDPattern] calls whose intensity arguments
    are bytes, both smoothed intensities stay within 0 and 255, so that
    their conversion to a byte never wraps.  (The smoothing is computed in
    [float] and [double], as in the code.) *)
Theorem smoothed_stays_in_range :
  forall (cs : list Tick) (st : Pattern),
    Forall byte_tick cs -> smoothed_in_range st ->
    smoothed_in_range (fst (run st cs)).
Proof.
  induction cs as [|c cs IH]; intros st Hb Hs; simpl; [exact Hs|].
  inversion Hb as [|? ? Hc Hcs]; subst.
  apply IH; [exact Hcs|]. apply tick_smoothed; assumption.
Qed.

Lemma initial_smoothed : smoothed_in_range initialPattern.
Proof.
  unfold smoothed_in_range.
  split; apply (proj2 (FloatRounding.value_range _)); split; vm_compute;
    discriminate.
Defined.

Lemma two_ticks_ok :
  Forall byte_tick [mkTick true false 255 0 1000; mkTick true true 200 90 1300].
Proof. repeat constructor; unfold is_uint8; simpl; lia. Defined.

Lemma smoothed_stays_in_range_witness :
  Forall byte_tick [mkTick true false 255 0 1000; mkTick true true 200 90 1300] /\
  smoothed_in_range initialPattern /\
  smoothed_in_range
    (fst (run initialPattern
            [mkTick true false 255 0 1000; mkTick true true 200 90 1300])).
Proof.
  split; [exact two_ticks_ok|]. split; [exact initial_smoothed|].
  exact (smoothed_stays_in_range _ _ two_ticks_ok initial_smoothed).
Defined.

Lemma steady_clock_tail c cs : steady_clock (c :: cs) -> steady_clock cs.
Proof.
  intros H i j ci cj Hij Hi Hj. apply (H (S i) (S j)); [lia|exact Hi|exact Hj].
Qed.

Lemma steady_clock_head c cs j cj :
  steady_clock (c :: cs) -> cs !! j = Some cj ->
  0 <= t_now c <= t_now cj /\ t_now cj < 4294967296.
Proof. intros H Hj. apply (H 0%nat (S j)); [lia|reflexivity|exact Hj]. Qed.

Lemma tick_stamp st c :
  lastPatternChange (fst (tick st c)) = lastPatternChange st \/
  (lastPatternChange (fst (tick st c)) = t_now c /\ snd (tick st c) <> None).
Proof.
  unfold tick.
  destruct (ParameterMapper.updateLEDPattern_emits st (t_presence c) (t_motion c)
              (t_presenceIntensity c) (t_motionIntensity c) (t_now c))
    as (_ & _ & Hs & Hn). cbv zeta in Hs, Hn.
  destruct (snd (updateLEDPattern st (t_presence c) (t_motion c)
                   (t_presenceIntensity c) (t_motionIntensity c) (t_now c)))
    as [p|] eqn:E.
  - right. unfold updateLEDPattern in *.
    destruct (parametersChanged _ st); [|discriminate].
    destruct (_ >? MIN_UPDATE_INTERVAL); [|discriminate].
    simpl. split; [reflexivity|discriminate].
  - left. apply Hn. reflexivity.
Qed.

Lemma tick_emits_late st c p :
  snd (tick st c) = Some p ->
  to_uint32 (t_now c - lastPatternChange st) > MIN_UPDATE_INTERVAL /\
  lastPatternChange (fst (tick st c)) = t_now c.
Proof.
  unfold tick, updateLEDPattern.
  destruct (parametersChanged _ st); [|discriminate].
  destruct (_ >? MIN_UPDATE_INTERVAL) eqn:E; [|discriminate].
  intros _. simpl. split; [apply Z.gtb_gt; exact E|reflexivity].
Qed.

(** An emission of a run comes more than [MIN_UPDATE_INTERVAL] after the
    time stamp the run started with. *)
Lemma emission_after_stamp cs : forall st j cj pj,
  steady_clock cs ->
  (forall c, elem_of c cs -> 0 <= lastPatternChange st <= t_now c) ->
  cs !! j = Some cj -> snd (run st cs) !! j = Some (Some pj) ->
  t_now cj - lastPatternChange st > MIN_UPDATE_INTERVAL.
Proof.
  induction cs as [|c cs IH]; intros st j cj pj Hclk Hst Hj He; [discriminate|].
  simpl in He. destruct j as [|j]; simpl in Hj, He.
  - injection Hj as <-. injection He as He.
    destruct (tick_emits_late st c pj He) as [Hlate _].
    assert (Hc : 0 <= lastPatternChange st <= t_now c) by (apply Hst; left).
    destruct (Hclk 0%nat 0%nat c c) as [_ Hlt]; [lia|reflexivity|reflexivity|].
    unfold to_uint32 in Hlate. rewrite Z.mod_small in Hlate by lia. exact Hlate.
  - assert (Hlast : 0 <= lastPatternChange st <= lastPatternChange (fst (tick st c))
                    /\ forall c', elem_of c' cs ->
                         lastPatternChange (fst (tick st c)) <= t_now c').
    { assert (Hc : 0 <= lastPatternChange st <= t_now c) by (apply Hst; left).
      destruct (tick_stamp st c) as [E|[E _]]; rewrite E.
      - split; [lia|]. intros c' Hc'. apply Hst. right. exact Hc'.
      - split; [lia|]. intros c' Hc'.
        apply list_elem_of_lookup in Hc' as [k Hk].
        destruct (steady_clock_head c cs k c' Hclk Hk). lia. }
    destruct Hlast as [Hle Hrest].
    pose proof (IH (fst (tick st c)) j cj pj (steady_clock_tail _ _ Hclk)) as H.
    assert (t_now cj - lastPatternChange (fst (tick st c)) > MIN_UPDATE_INTERVAL).
    { apply H; [|exact Hj|exact He]. intros c' Hc'. split; [lia|].
      apply Hrest. exact Hc'. }
    lia.
Qed.

(** X10. While the clock neither goes back nor wraps, two calls of
    [updateLEDPattern] that both hand new parameters to the pattern are
    more than [MIN_UPDATE_INTERVAL] (250 ms) apart, whatever the sensor
    values of the calls in between. *)
Theorem emissions_spaced :
  forall (cs : list Tick) (st : Pattern) (i j : nat) (ci cj : Tick)
         (p q : Params),
    steady_clock cs -> (i < j)%nat ->
    cs !! i = Some ci -> cs !! j = Some cj ->
    snd (run st cs) !! i = Some (Some p) ->
    snd (run st cs) !! j = Some (Some q) ->
    t_now cj - t_now ci > MIN_UPDATE_INTERVAL.
Proof.
  induction cs as [|c cs IH]; intros st i j ci cj p q Hclk Hij Hi Hj Hp Hq;
    [discriminate|].
  destruct j as [|j]; [lia|]. simpl in Hj, Hp, Hq.
  destruct i as [|i]; simpl in Hi, Hp.
  - injection Hi as <-. injection Hp as Hp.
    destruct (tick_emits_late st c p Hp) as [_ Hstamp].
    rewrite <- Hstamp.
    apply (emission_after_stamp cs (fst (tick st c)) j cj q);
      [exact (steady_clock_tail _ _ Hclk)| |exact Hj|exact Hq].
    intros c' Hc'. rewrite Hstamp.
    apply list_elem_of_lookup in Hc' as [k Hk].
    destruct (steady_clock_head c cs k c' Hclk Hk). lia.
  - apply (IH (fst (tick st c)) i j ci cj p q);
      [exact (steady_clock_tail _ _ Hclk)|lia|exact Hi|exact Hj|exact Hp|exact Hq].
Qed.

Lemma three_ticks_steady :
  steady_clock [mkTick true false 255 0 1000; mkTick true false 255 0 1100;
                mkTick true false 255 0 1300].
Proof.
  intros i j ci cj Hij Hi Hj.
  destruct i as [|[|[|i]]]; try discriminate; injection Hi as <-;
    destruct j as [|[|[|j]]]; try discriminate; try lia; injection Hj as <-;
    simpl; lia.
Defined.

Lemma emissions_spaced_witness :
  steady_clock [mkTick true false 255 0 1000; mkTick true false 255 0 1100;
                mkTick true false 255 0 1300] /\
  snd (run initialPattern
         [mkTick true false 255 0 1000; mkTick true false 255 0 1100;
          mkTick true false 255 0 1300])
  = [Some (mkParams 160 93 20 3); None; Some (mkParams 159 117 20 4)] /\
  1300 - 1000 > MIN_UPDATE_INTERVAL.
Proof.
  split; [exact three_ticks_steady|]. split; [vm_compute; reflexivity|].
  exact (emissions_spaced _ initialPattern 0 2 _ _
           (mkParams 160 93 20 3) (mkParams 159 117 20 4)
           three_ticks_steady ltac:(lia) eq_refl eq_refl eq_refl eq_refl).
Defined.

End MapperRuns.

(** * The pool of the revision with a target buffer *)

Module BufferedPoolLife.
Import FastLED Buffered BufferedPool.

Lemma busy_app l1 l2 : busy (l1 ++ l2) = (busy l1 + busy l2)%nat.
Proof. unfold busy. rewrite filter_app, length_app. reflexivity. Qed.

Lemma busy_cons g l :
  busy (g :: l) = ((if inactive g then 0 else 1) + busy l)%nat.
Proof.
  unfold busy. rewrite filter_cons.
  destruct (inactive g) eqn:E; destruct (decide _) as [H|H]; simpl;
    congruence.
Qed.

Lemma busy_insert pts i g g' :
  pts !! i = Some g ->
  (busy (<[i := g']> pts) + (if inactive g then 0 else 1)
   = busy pts + (if inactive g' then 0 else 1))%nat.
Proof.
  intros Hg. rewrite insert_take_drop by (apply lookup_lt_Some in Hg; exact Hg).
  rewrite <- (take_drop_middle pts i g Hg) at 3.
  rewrite !busy_app, !busy_cons. lia.
Qed.

Lemma busy_le pts : (busy pts <= length pts)%nat.
Proof. unfold busy. apply length_filter. Qed.

(** What one update leaves of a slot in use whose target is not 0: either
    the slot stays in use, or the call returns [false] and the slot is
    free once cleared. *)
Lemma updatePoint_busy g :
  inactive g = false -> maxIntensity g <> 0 ->
  maxIntensity (snd (updatePoint g)) = maxIntensity g /\
  (fst (updatePoint g) = true -> inactive (snd (updatePoint g)) = false) /\
  inactive (cleared (snd (updatePoint g))) = true.
Proof.
  intros Hin Hmax. unfold updatePoint. rewrite Hin.
  destruct (state g =? 1) eqn:E1.
  { destruct (_ >=? _); simpl; repeat split; intros _; unfold inactive; simpl.
    - apply Z.eqb_neq. exact Hmax.
    - apply Z.eqb_eq in E1. rewrite E1. reflexivity. }
  destruct (state g =? 0) eqn:E0.
  { simpl. repeat split. }
  destruct (state g =? -1) eqn:Em.
  { destruct (_ <=? 1); simpl; repeat split; try discriminate.
    intros _. unfold inactive. simpl. rewrite E0. reflexivity. }
  simpl. repeat split. intros _. exact Hin.
Qed.

Lemma updateLoop_ok n : forall i pts count,
  slots_ok pts -> count = Z.of_nat (busy pts) -> Z.of_nat (length pts) <= 255 ->
  length (fst (updateLoop n i pts count)) = length pts /\
  slots_ok (fst (updateLoop n i pts count)) /\
  snd (updateLoop n i pts count) = Z.of_nat (busy (fst (updateLoop n i pts count))).
Proof.
  induction n as [|n IH]; intros i pts count Hok Hc Hlen; simpl; [auto|].
  destruct (pts !! i) as [g|] eqn:Hg; [|apply IH; assumption].
  destruct (inactive g) eqn:Hin; [apply IH; assumption|].
  assert (Hmax : maxIntensity g <> 0).
  { unfold slots_ok in Hok. rewrite Forall_lookup in Hok. exact (Hok i g Hg Hin). }
  destruct (updatePoint_busy g Hin Hmax) as (Hm & Htrue & Hclr).
  pose proof (busy_le pts) as Hb.
  destruct (fst (updatePoint g)) eqn:Ef; simpl.
  - pose proof (busy_insert pts i g (snd (updatePoint g)) Hg) as Hbi.
    rewrite Hin, (Htrue eq_refl) in Hbi.
    destruct (IH (S i) (<[i := snd (updatePoint g)]> pts) count) as (H1 & H2 & H3).
    + apply Forall_insert; [exact Hok|]. intros _. rewrite Hm. exact Hmax.
    + rewrite Hc. f_equal. lia.
    + rewrite length_insert. exact Hlen.
    + rewrite length_insert in H1. auto.
  - pose proof (busy_insert pts i g (cleared (snd (updatePoint g))) Hg) as Hbi.
    rewrite Hin, Hclr in Hbi.
    destruct (IH (S i) (<[i := cleared (snd (updatePoint g))]> pts)
                (to_uint8 (Z.max 0 (count - 1)))) as (H1 & H2 & H3).
    + apply Forall_insert; [exact Hok|]. intros Hx. congruence.
    + rewrite to_uint8_id by (unfold is_uint8; lia). lia.
    + rewrite length_insert. exact Hlen.
    + rewrite length_insert in H1. auto.
Qed.

Lemma newGlowPoint_fields baseHue brightness sp numLeds t :
  let g := fst (newGlowPoint baseHue brightness sp numLeds t) in
  intensity g = 1 /\ state g = 1 /\
  maxIntensity g = to_uint8 (Arduino.map brightness 0 255 100 255) /\
  speed g = to_uint8 (Arduino.map sp 1 255 2 15).
Proof.
  unfold newGlowPoint, random16_lim, random8_lim, random8, random16, bind,
    ret, draw.
  destruct t as [|x [|y t]]; simpl; auto.
Qed.

Lemma map_brightness brightness :
  is_uint8 brightness ->
  100 <= to_uint8 (Arduino.map brightness 0 255 100 255) <= 255.
Proof.
  intros Hb. unfold is_uint8 in Hb.
  pose proof (MapperRuns.map_range_up brightness 0 255 100 255
                ltac:(lia) ltac:(lia) ltac:(lia)).
  rewrite to_uint8_id by (unfold is_uint8; lia). lia.
Qed.

Lemma addGlowPoint_loop_ok n : forall i pts baseHue brightness sp numLeds t,
  is_uint8 brightness -> slots_ok pts ->
  let r := fst (addGlowPoint_loop n i pts baseHue brightness sp numLeds t) in
  length (snd r) = length pts /\ slots_ok (snd r) /\
  busy (snd r) = (busy pts + (if fst r then 1 else 0))%nat.
Proof.
  induction n as [|n IH]; intros i pts baseHue brightness sp numLeds t Hb Hok;
    simpl.
  - unfold ret. simpl. repeat split; [exact Hok|lia].
  - destruct (pts !! i) as [g|] eqn:Hg; [|apply IH; assumption].
    destruct (inactive g) eqn:Hin; [|apply IH; assumption].
    unfold bind, ret.
    destruct (newGlowPoint_fields baseHue brightness sp numLeds t)
      as (Hi & Hs & Hm & _).
    destruct (newGlowPoint baseHue brightness sp numLeds t) as [point t'].
    simpl in *.
    assert (Hp : inactive point = false).
    { unfold inactive. rewrite Hs. reflexivity. }
    pose proof (busy_insert pts i g point Hg) as Hbi. rewrite Hin, Hp in Hbi.
    split; [apply length_insert|]. split; [|lia].
    apply Forall_insert; [exact Hok|]. intros _. rewrite Hm.
    pose proof (map_brightness brightness Hb). lia.
Qed.

Lemma gentleGlow_ok o baseHue brightness sp numLeds now t :
  is_uint8 brightness -> pool_ok o ->
  pool_ok (fst (gentleGlow o baseHue brightness sp numLeds now t)).
Proof.
  intros Hb (Hlen & Hc & Hok). unfold gentleGlow.
  destruct (_ >=? 20); [|unfold ret; cbn [fst]; repeat split; assumption].
  unfold bind at 1. destruct (random8 t) as [r t1].
  assert (Hl255 : Z.of_nat (length (_glowPoints o)) <= 255).
  { rewrite Hlen. unfold MAX_GLOW_POINTS. lia. }
  destruct ((r <? Arduino.map sp 1 255 5 40)
            && (_activeGlowPoints o <? Z.of_nat MAX_GLOW_POINTS)) eqn:Ec.
  - apply andb_true_iff in Ec as [_ Ec]. apply Z.ltb_lt in Ec.
    unfold bind, ret, addGlowPoint.
    destruct (addGlowPoint_loop_ok MAX_GLOW_POINTS 0 (_glowPoints o) baseHue
                brightness sp numLeds t1 Hb Hok) as (H1 & H2 & H3).
    destruct (addGlowPoint_loop MAX_GLOW_POINTS 0 (_glowPoints o) baseHue
                brightness sp numLeds t1) as [[ok pts] t2].
    cbn [fst snd] in *.
    destruct (updateLoop_ok MAX_GLOW_POINTS 0 pts
                (if ok then to_uint8 (_activeGlowPoints o + 1)
                 else _activeGlowPoints o)) as (G1 & G2 & G3).
    + exact H2.
    + rewrite H3. destruct ok.
      * rewrite to_uint8_id by (unfold is_uint8, MAX_GLOW_POINTS in *; lia). lia.
      * lia.
    + rewrite H1. exact Hl255.
    + unfold pool_ok. cbn [_glowPoints _activeGlowPoints].
      rewrite G1, H1. auto.
  - unfold bind, ret. cbn [fst snd].
    destruct (updateLoop_ok MAX_GLOW_POINTS 0 (_glowPoints o)
                (_activeGlowPoints o) Hok Hc Hl255) as (G1 & G2 & G3).
    unfold pool_ok. cbn [_glowPoints _activeGlowPoints]. rewrite G1. auto.
Qed.

Lemma constructed_ok : pool_ok constructed.
Proof.
  unfold pool_ok, constructed, slots_ok. simpl. repeat split.
  repeat constructor; discriminate.
Defined.

(** X11. In the revision with a target buffer, the counter
    [_activeGlowPoints] always equals the number of slots in use: this
    holds of the constructed object and every call of [gentleGlow] with a
    byte brightness keeps it, together with the array's size and the fact
    that a slot in use has a target intensity other than 0.  So the
    counter never exceeds [MAX_GLOW_POINTS]. *)
Theorem counter_tracks_pool :
  forall (fs : list Frame) (o : Glow) (t : list Z),
    Forall byte_frame fs -> pool_ok o ->
    pool_ok (fst (frames fs o t)) /\
    0 <= _activeGlowPoints (fst (frames fs o t)) <= Z.of_nat MAX_GLOW_POINTS.
Proof.
  assert (H : forall fs o t, Forall byte_frame fs -> pool_ok o ->
                pool_ok (fst (frames fs o t))).
  { induction fs as [|f fs IH]; intros o t Hfs Ho; simpl; [exact Ho|].
    inversion Hfs as [|? ? [Hb _] Hrest]; subst.
    unfold bind.
    pose proof (gentleGlow_ok o (f_baseHue f) (f_brightness f) (f_speed f)
                  (f_numLeds f) (f_now f) t Hb Ho) as Hstep.
    destruct (gentleGlow o (f_baseHue f) (f_brightness f) (f_speed f)
                (f_numLeds f) (f_now f) t) as [o' t'].
    apply IH; assumption. }
  intros fs o t Hfs Ho. split; [apply H; assumption|].
  destruct (H fs o t Hfs Ho) as (Hlen & Hc & _).
  pose proof (busy_le (_glowPoints (fst (frames fs o t)))). lia.
Qed.

Lemma counter_tracks_pool_witness :
  Forall byte_frame [mkFrame 96 200 255 150 100; mkFrame 96 200 255 150 130] /\
  pool_ok constructed /\
  pool_ok (fst (frames [mkFrame 96 200 255 150 100; mkFrame 96 200 255 150 130]
                  constructed [0; 700; 3; 200])) /\
  _activeGlowPoints
    (fst (frames [mkFrame 96 200 255 150 100; mkFrame 96 200 255 150 130]
            constructed [0; 700; 3; 200])) = 1.
Proof.
  assert (Hfs : Forall byte_frame
                  [mkFrame 96 200 255 150 100; mkFrame 96 200 255 150 130]).
  { repeat constructor; unfold is_uint8; simpl; lia. }
  split; [exact Hfs|]. split; [exact constructed_ok|].
  split; [|vm_compute; reflexivity].
  exact (proj1 (counter_tracks_pool _ constructed [0; 700; 3; 200] Hfs
                  constructed_ok)).
Defined.

Ltac bools :=
  repeat match goal with
  | H : (_ =? _) = true |- _ => apply Z.eqb_eq in H
  | H : (_ =? _) = false |- _ => apply Z.eqb_neq in H
  | H : (_ <? _) = true |- _ => apply Z.ltb_lt in H
  | H : (_ <? _) = false |- _ => apply Z.ltb_ge in H
  | H : (_ >? _) = true |- _ => apply Z.gtb_gt in H
  | H : (_ >? _) = false |- _ => rewrite Z.gtb_ltb in H
  | H : (_ <=? _) = true |- _ => apply Z.leb_le in H
  | H : (_ <=? _) = false |- _ => apply Z.leb_gt in H
  | H : (_ >=? _) = true |- _ => rewrite Z.geb_leb in H
  | H : (_ >=? _) = false |- _ => rewrite Z.geb_leb in H
  | H : _ && _ = true |- _ => apply andb_true_iff in H as [? ?]
  end.

Lemma half_speed sp :
  2 <= sp <= 255 -> to_uint8 (Z.quot sp 2) = Z.quot sp 2 /\ 1 <= Z.quot sp 2 <= 127.
Proof.
  intros H. assert (1 <= Z.quot sp 2 <= 127).
  { rewrite Z.quot_div_nonneg by lia. split.
    - apply Z.div_le_lower_bound; lia.
    - apply Z.lt_succ_r. apply Z.div_lt_upper_bound; lia. }
  split; [|assumption]. apply to_uint8_id. unfold is_uint8. lia.
Qed.

(** One update keeps a slot well formed and, while the slot is in use,
    lowers the bound on its remaining updates. *)
Lemma updatePoint_remaining g :
  alive g ->
  alive (snd (updatePoint g)) /\
  0 <= remaining g /\
  (inactive g = false -> remaining (snd (updatePoint g)) < remaining g) /\
  (inactive g = true -> snd (updatePoint g) = g).
Proof.
  intros ((Hi & Hm & Hs) & Hsp & Hst).
  destruct g as [p i m st sp h]. unfold is_uint8 in *. simpl in *.
  destruct (half_speed sp ltac:(lia)) as [Hq Hq'].
  unfold updatePoint, remaining, alive, wellFormed, inactive, is_uint8.
  simpl. destruct Hst as [Hst|[Hst|Hst]]; subst st; simpl.
  - unfold qadd8. destruct (i + sp >? 255) eqn:E1;
      destruct (_ >=? m) eqn:E2; simpl; bools;
      try (destruct (m =? 0) eqn:E3; bools); repeat split; auto; try lia;
      try discriminate.
  - destruct (i =? 0) eqn:E1; simpl; bools; repeat split; auto; try lia;
      try discriminate.
  - rewrite Hq. unfold qsub8. destruct (i - Z.quot sp 2 <? 0) eqn:E1;
      destruct (_ <=? 1) eqn:E2; simpl; bools; repeat split; auto; try lia;
      try discriminate.
Qed.

Lemma updates_inactive n : forall g,
  inactive g = true -> inactive (updates n g) = true.
Proof.
  induction n as [|n IH]; intros g Hg; simpl; [exact Hg|].
  apply IH. unfold updatePoint. rewrite Hg. exact Hg.
Qed.

Lemma newGlowPoint_alive baseHue brightness sp numLeds t :
  is_uint8 brightness -> is_uint8 sp ->
  alive (fst (newGlowPoint baseHue brightness sp numLeds t)).
Proof.
  intros Hb Hs.
  destruct (newGlowPoint_fields baseHue brightness sp numLeds t)
    as (Hi & Hst & Hm & Hspeed).
  pose proof (map_brightness brightness Hb) as Hmb.
  assert (Hms : 2 <= Arduino.map sp 1 255 2 15 <= 15).
  { unfold is_uint8 in Hs. destruct (Z.eq_dec sp 0) as [->|Hne].
    - vm_compute. split; discriminate.
    - apply MapperRuns.map_range_up; lia. }
  unfold alive, wellFormed, is_uint8. rewrite Hi, Hst, Hm, Hspeed.
  rewrite (to_uint8_id (Arduino.map sp 1 255 2 15)) by (unfold is_uint8; lia).
  repeat split; lia.
Qed.

(** X12. In the revision with a target buffer every slot is freed after a
    bounded number of updates: a slot with byte fields, a step of at least
    2 and one of the three states is free after [remaining] calls of
    [updateGlowPoint], a number that is at most 513 and that every call on
    a slot in use lowers; and the slot [addGlowPoint] initialises from
    byte arguments is such a slot. *)
Theorem slot_is_freed :
  (forall (point : GlowPoint) (n : nat),
     alive point -> remaining point <= Z.of_nat n ->
     inactive (updates n point) = true /\ remaining point <= 513) /\
  (forall (baseHue brightness sp numLeds : Z) (t : list Z),
     is_uint8 brightness -> is_uint8 sp ->
     alive (fst (newGlowPoint baseHue brightness sp numLeds t))).
Proof.
  split; [|intros; apply newGlowPoint_alive; assumption].
  intros point n Ha Hn. split.
  - revert point Ha Hn. induction n as [|n IH]; intros point Ha Hn.
    + simpl. destruct (updatePoint_remaining point Ha) as (_ & H0 & Hdec & _).
      destruct (inactive point) eqn:E; [reflexivity|].
      assert (Hnext : alive (snd (updatePoint point)))
        by apply (updatePoint_remaining point Ha).
      destruct (updatePoint_remaining _ Hnext) as (_ & H0' & _).
      specialize (Hdec eq_refl). lia.
    + simpl. destruct (updatePoint_remaining point Ha) as (Hnext & H0 & Hdec & Hid).
      destruct (inactive point) eqn:E.
      * rewrite (Hid eq_refl). apply updates_inactive. exact E.
      * apply IH; [exact Hnext|]. specialize (Hdec eq_refl). lia.
  - destruct Ha as ((Hi & _) & _ & _). unfold is_uint8 in Hi.
    unfold remaining. destruct (inactive point); [lia|].
    destruct (state point =? 1); [lia|]. destruct (state point =? 0); lia.
Qed.

Lemma growingPoint_alive : alive growingPoint.
Proof.
  unfold alive, wellFormed, is_uint8, growingPoint. simpl.
  repeat split; lia.
Defined.

Lemma slot_is_freed_witness :
  alive growingPoint /\ remaining growingPoint <= Z.of_nat 337 /\
  inactive (updates 337 growingPoint) = true /\
  is_uint8 200 /\ is_uint8 128 /\
  alive (fst (newGlowPoint 96 200 128 150 [700; 3])).
Proof.
  assert (Hr : remaining growingPoint <= Z.of_nat 337)
    by (vm_compute; discriminate).
  assert (Hb : is_uint8 200) by (unfold is_uint8; lia).
  assert (Hs : is_uint8 128) by (unfold is_uint8; lia).
  split; [exact growingPoint_alive|]. split; [exact Hr|].
  split; [exact (proj1 (proj1 slot_is_freed growingPoint 337%nat
                          growingPoint_alive Hr))|].
  split; [exact Hb|]. split; [exact Hs|].
  exact (proj2 slot_is_freed 96 200 128 150 [700; 3] Hb Hs).
Defined.

End BufferedPoolLife.

(** * Rendering in the simplified revision *)

Module Rendering.
Import FastLED Simplified SimplifiedFrame.

Lemma to_int16_id x : -32768 <= x <= 32767 -> to_int16 x = x.
Proof. intros H. unfold to_int16. rewrite Z.mod_small by lia. lia. Qed.

(** X13. The position [renderGlowPoint] writes for offset [i] is [pos + i]
    wrapped around the strip: for a strip of 1 to 32767 LEDs it is
    [(pos + i) mod numLeds], an index of the array, also when [pos + i] is
    negative, where C's remainder is negative and [numLeds] is added. *)
Theorem actualPos_wraps :
  forall (p i numLeds : Z),
    0 < numLeds <= 32767 ->
    actualPos p i numLeds = (p + i) mod numLeds /\
    0 <= actualPos p i numLeds < numLeds.
Proof.
  intros p i numLeds Hn.
  assert (E : actualPos p i numLeds = (p + i) mod numLeds).
  { unfold actualPos.
    pose proof (Z.quot_rem' (p + i) numLeds) as Hqr.
    assert (Hr : - numLeds < Z.rem (p + i) numLeds < numLeds).
    { pose proof (Z.rem_bound_abs (p + i) numLeds ltac:(lia)). lia. }
    rewrite (to_int16_id (Z.rem (p + i) numLeds)) by lia. cbv zeta.
    destruct (Z.rem (p + i) numLeds <? 0) eqn:Eneg.
    - apply Z.ltb_lt in Eneg. rewrite to_int16_id by lia.
      apply (Z.mod_unique (p + i) numLeds (Z.quot (p + i) numLeds - 1));
        [left; lia|lia].
    - apply Z.ltb_ge in Eneg.
      apply (Z.mod_unique (p + i) numLeds (Z.quot (p + i) numLeds));
        [left; lia|lia]. }
  split; [exact E|]. rewrite E. apply Z.mod_pos_bound. lia.
Qed.

Lemma actualPos_wraps_witness :
  0 < 150 <= 32767 /\ actualPos 2 (-5) 150 = 147 /\ 0 <= actualPos 2 (-5) 150 < 150.
Proof.
  assert (H : 0 < 150 <= 32767) by lia.
  split; [exact H|]. split; [vm_compute; reflexivity|].
  exact (proj2 (actualPos_wraps 2 (-5) 150 H)).
Defined.

Lemma brighter_refl c : brighter c c.
Proof. unfold brighter. lia. Qed.

Lemma brighter_trans a b c : brighter a b -> brighter b c -> brighter a c.
Proof. unfold brighter. lia. Qed.

Lemma qadd8_byte a b : is_uint8 a -> is_uint8 b -> is_uint8 (qadd8 a b) /\ a <= qadd8 a b.
Proof.
  unfold is_uint8, qadd8. intros Ha Hb.
  destruct (a + b >? 255) eqn:E; [lia|]. rewrite Z.gtb_ltb in E.
  apply Z.ltb_ge in E. lia.
Qed.

Lemma addCRGB_brighter c x :
  uint8_pixel c -> uint8_pixel x ->
  uint8_pixel (addCRGB c x) /\ brighter c (addCRGB c x).
Proof.
  intros (Hr & Hg & Hb) (Hr' & Hg' & Hb'). unfold uint8_pixel, brighter, addCRGB.
  simpl.
  destruct (qadd8_byte _ _ Hr Hr'), (qadd8_byte _ _ Hg Hg'),
    (qadd8_byte _ _ Hb Hb'). auto 10.
Qed.

Lemma renderLoop_spec hsv g numLeds n :
  (forall h s v, uint8_pixel (hsv h s v)) ->
  forall i leds, Forall uint8_pixel leds ->
    length (renderLoop hsv n i g numLeds leds) = length leds /\
    Forall uint8_pixel (renderLoop hsv n i g numLeds leds) /\
    forall j c, leds !! j = Some c ->
      exists c', renderLoop hsv n i g numLeds leds !! j = Some c' /\
                 brighter c c' /\
                 ((forall k, i <= k < i + Z.of_nat n ->
                     Z.of_nat j <> actualPos (pos g) k numLeds) -> c' = c).
Proof.
  intros Hhsv. induction n as [|n IH]; intros i leds Hleds.
  - simpl. repeat split; [exact Hleds|]. intros j c Hj. exists c.
    auto using brighter_refl.
  - cbn [renderLoop]. cbv zeta.
    set (a := actualPos (pos g) i numLeds).
    set (rgb := hsv (hue g) 240 (falloffValue (currentIntensity g) i (spread g))).
    set (leds' := if a <? 0 then leds
                  else match leds !! Z.to_nat a with
                       | Some c => <[Z.to_nat a := addCRGB c rgb]> leds
                       | None => leds
                       end).
    assert (Hstep : length leds' = length leds /\ Forall uint8_pixel leds' /\
              forall j c, leds !! j = Some c ->
                exists c', leds' !! j = Some c' /\ brighter c c' /\
                           (Z.of_nat j <> a -> c' = c)).
    { unfold leds'. destruct (a <? 0) eqn:Ea.
      { repeat split; [exact Hleds|]. intros j c Hj. exists c.
        auto using brighter_refl. }
      apply Z.ltb_ge in Ea.
      destruct (leds !! Z.to_nat a) as [c0|] eqn:Hc0.
      2:{ repeat split; [exact Hleds|]. intros j c Hj. exists c.
          auto using brighter_refl. }
      assert (Hc0ok : uint8_pixel c0).
      { rewrite Forall_lookup in Hleds. exact (Hleds _ _ Hc0). }
      destruct (addCRGB_brighter c0 rgb Hc0ok (Hhsv _ _ _)) as [Hpix Hbr].
      split; [apply length_insert|]. split; [apply Forall_insert; assumption|].
      intros j c Hj. destruct (decide (j = Z.to_nat a)) as [->|Hne].
      - rewrite Hc0 in Hj. injection Hj as <-. exists (addCRGB c0 rgb).
        split; [apply list_lookup_insert_eq; apply lookup_lt_Some in Hc0; exact Hc0|].
        split; [exact Hbr|]. intros Hneq. lia.
      - exists c. rewrite list_lookup_insert_ne by congruence.
        auto using brighter_refl. }
    destruct Hstep as (Hlen & Hpix & Hone).
    destruct (IH (i + 1) leds' Hpix) as (IHlen & IHpix & IHall).
    split; [rewrite IHlen; exact Hlen|]. split; [exact IHpix|].
    intros j c Hj. destruct (Hone j c Hj) as (c1 & Hc1 & Hb1 & Hsame1).
    destruct (IHall j c1 Hc1) as (c2 & Hc2 & Hb2 & Hsame2).
    exists c2. split; [exact Hc2|]. split; [exact (brighter_trans _ _ _ Hb1 Hb2)|].
    intros Hout. rewrite Hsame2, Hsame1; [reflexivity| |].
    + apply Hout. lia.
    + intros k Hk. apply Hout. lia.
Qed.

(** X14. Rendering a glow point only adds light, and only inside its
    window: when the colour conversion yields byte channels and the LED
    array holds byte pixels, [renderGlowPoint] keeps the array's length,
    leaves every pixel at least as bright in each channel, and leaves a
    pixel unchanged when its index is not [pos + i] wrapped for some
    offset [i] within the spread, or when the slot is inactive or the
    index names no slot. *)
Theorem render_only_brightens_window :
  forall (hsv : Z -> Z -> Z -> CRGB) (glowPoints : list GlowPoint)
         (index : nat) (numLeds : Z) (leds : list CRGB),
    (forall h s v, uint8_pixel (hsv h s v)) -> Forall uint8_pixel leds ->
    let out := renderGlowPoint hsv glowPoints index numLeds leds in
    length out = length leds /\
    forall j c, leds !! j = Some c ->
      exists c', out !! j = Some c' /\ brighter c c' /\
        ((forall g, glowPoints !! index = Some g -> active g = true ->
                    ~ window g numLeds j) -> c' = c).
Proof.
  intros hsv glowPoints index numLeds leds Hhsv Hleds out.
  assert (Hsame : out = leds -> length out = length leds /\
    forall j c, leds !! j = Some c ->
      exists c', out !! j = Some c' /\ brighter c c' /\
        ((forall g, glowPoints !! index = Some g -> active g = true ->
                    ~ window g numLeds j) -> c' = c)).
  { intros ->. split; [reflexivity|]. intros j c Hj. exists c.
    auto using brighter_refl. }
  unfold out, renderGlowPoint in *.
  destruct (glowPoints !! index) as [g|] eqn:Hg; [|apply Hsame; reflexivity].
  unfold renderPoint in *.
  destruct (active g) eqn:Ha; simpl negb in *; cbv iota in *;
    [|apply Hsame; reflexivity].
  clear Hsame.
  destruct (renderLoop_spec hsv g numLeds (Z.to_nat (2 * spread g + 1)) Hhsv
              (- spread g) leds Hleds) as (Hlen & _ & Hall).
  split; [exact Hlen|].
  intros j c Hj. destruct (Hall j c Hj) as (c' & Hc' & Hb & Hsame).
  exists c'. split; [exact Hc'|]. split; [exact Hb|].
  intros Hnw. apply Hsame. intros k Hk Heq.
  apply (Hnw g eq_refl Ha). exists k. split; [lia|exact Heq].
Qed.

Lemma grey_byte h s v : uint8_pixel (grey h s v).
Proof. unfold uint8_pixel, grey. simpl. auto using to_uint8_range. Qed.

Lemma render_only_brightens_window_witness :
  (forall h s v, uint8_pixel (grey h s v)) /\
  Forall uint8_pixel (repeat Black 8) /\
  renderGlowPoint grey [mkGlowPoint 0 96 1 200 100 1 true] 0 8 (repeat Black 8)
  = [mkCRGB 100 100 100; mkCRGB 75 75 75; Black; Black; Black; Black; Black;
     mkCRGB 75 75 75] /\
  length (renderGlowPoint grey [mkGlowPoint 0 96 1 200 100 1 true] 0 8
            (repeat Black 8)) = length (repeat Black 8).
Proof.
  assert (Hl : Forall uint8_pixel (repeat Black 8)).
  { repeat constructor; unfold is_uint8; simpl; lia. }
  split; [exact grey_byte|]. split; [exact Hl|].
  split; [vm_compute; reflexivity|].
  exact (proj1 (render_only_brightens_window grey
                  [mkGlowPoint 0 96 1 200 100 1 true] 0 8 (repeat Black 8)
                  grey_byte Hl)).
Defined.

Lemma updateRender_pool hsv n : forall i gp leds speed numLeds t,
  fst (fst (updateRender hsv n i gp leds speed numLeds t))
  = fst (updateAll n i gp speed t) /\
  snd (updateRender hsv n i gp leds speed numLeds t) = snd (updateAll n i gp speed t).
Proof.
  induction n as [|n IH]; intros i gp leds speed numLeds t; simpl;
    [split; reflexivity|].
  destruct (gp !! i) as [g|]; [|apply IH].
  destruct (active g); [|apply IH].
  unfold bind. destruct (updateGlowPoint gp i speed t) as [r t']. apply IH.
Qed.

(** X15. In [gentleGlow] the LED array and the colour conversion have no
    influence on the glow points: the array of glow points after a call,
    and the draws left, are those of the update, count and spawn steps
    alone. *)
Theorem frame_leaves_pool_alone :
  forall (hsv : Z -> Z -> Z -> CRGB) (glowPoints : list GlowPoint)
         (leds : list CRGB) (h brightness speed s numLeds : Z) (t : list Z),
    fst (fst (gentleGlowFrame hsv glowPoints leds h brightness speed s numLeds t))
    = fst (gentleGlow glowPoints h brightness speed s numLeds t) /\
    snd (gentleGlowFrame hsv glowPoints leds h brightness speed s numLeds t)
    = snd (gentleGlow glowPoints h brightness speed s numLeds t).
Proof.
  intros hsv gp leds h b speed s numLeds t.
  unfold gentleGlowFrame, gentleGlow. cbv zeta. unfold bind at 1 3 4 6.
  destruct (updateRender_pool hsv MAX_GLOW_POINTS 0 gp
              (fill_solid leds (Z.to_nat numLeds) Black) speed numLeds t)
    as [E1 E2].
  destruct (updateRender hsv MAX_GLOW_POINTS 0 gp
              (fill_solid leds (Z.to_nat numLeds) Black) speed numLeds t)
    as [[gp1 leds1] t1].
  destruct (updateAll MAX_GLOW_POINTS 0 gp speed t) as [gp2 t2].
  cbn [fst snd] in *. subst gp2 t2. unfold bind, ret.
  destruct (spawn gp1 h b speed s numLeds t1) as [gp3 t3]. split; reflexivity.
Qed.

Lemma lookup_repeat {A} (x : A) n : forall j, (j < n)%nat -> repeat x n !! j = Some x.
Proof.
  induction n as [|n IH]; intros j Hj; [lia|].
  destruct j as [|j]; simpl; [reflexivity|]. apply IH. lia.
Qed.

Lemma fill_solid_all leds c :
  fill_solid leds (length leds) c = repeat c (length leds).
Proof.
  unfold fill_solid.
  rewrite (Crossfade.for_each_led_ext _ (pointwise (fun _ _ => Some c)))
    by reflexivity.
  apply list_eq. intros j.
  destruct (decide (j < length leds)%nat) as [Hj|Hj].
  - rewrite lookup_repeat by exact Hj.
    apply Crossfade.for_each_led_lookup; [lia|exact Hj|reflexivity].
  - rewrite !(proj2 (lookup_ge_None _ _)); [reflexivity| |].
    + rewrite repeat_length. lia.
    + rewrite Crossfade.for_each_led_length. lia.
Qed.

Lemma activeCount_none gp :
  activeCount gp = 0%nat -> forall i g, gp !! i = Some g -> active g = false.
Proof.
  induction gp as [|g0 gp IH]; intros H0 i g Hg; [discriminate|].
  rewrite PoolOperations.activeCount_cons in H0.
  destruct i as [|i]; simpl in Hg.
  - injection Hg as <-. destruct (active g0); [lia|reflexivity].
  - apply (IH ltac:(lia) i g Hg).
Qed.

Lemma updateRender_idle hsv n : forall i gp leds speed numLeds t,
  (forall j g, gp !! j = Some g -> active g = false) ->
  updateRender hsv n i gp leds speed numLeds t = (gp, leds, t).
Proof.
  induction n as [|n IH]; intros i gp leds speed numLeds t Hidle; simpl;
    [reflexivity|].
  destruct (gp !! i) as [g|] eqn:Hg; [|apply IH; exact Hidle].
  rewrite (Hidle i g Hg). apply IH. exact Hidle.
Qed.

(** X16. [gentleGlow] redraws the whole strip: the frame it leaves in an
    LED array of [numLeds] pixels does not depend on what the array held
    before the call, and it is all black when no slot was active, also
    when the call spawns a point, which is drawn by the next call only. *)
Theorem frame_is_redrawn :
  forall (hsv : Z -> Z -> Z -> CRGB) (glowPoints : list GlowPoint)
         (leds leds' : list CRGB) (h brightness speed s numLeds : Z)
         (t : list Z),
    length leds = Z.to_nat numLeds -> length leds' = Z.to_nat numLeds ->
    snd (fst (gentleGlowFrame hsv glowPoints leds h brightness speed s numLeds t))
    = snd (fst (gentleGlowFrame hsv glowPoints leds' h brightness speed s
                  numLeds t)) /\
    (activeCount glowPoints = 0%nat ->
     snd (fst (gentleGlowFrame hsv glowPoints leds h brightness speed s numLeds t))
     = repeat Black (Z.to_nat numLeds)).
Proof.
  intros hsv gp leds leds' h b speed s numLeds t Hl Hl'.
  unfold gentleGlowFrame. cbv zeta.
  assert (E : fill_solid leds (Z.to_nat numLeds) Black
              = repeat Black (Z.to_nat numLeds))
    by (rewrite <- Hl; apply fill_solid_all).
  assert (E' : fill_solid leds' (Z.to_nat numLeds) Black
               = repeat Black (Z.to_nat numLeds))
    by (rewrite <- Hl'; apply fill_solid_all).
  rewrite E, E'.
  split; [reflexivity|]. intros H0.
  unfold bind at 1.
  rewrite updateRender_idle by (apply activeCount_none; exact H0).
  cbn [fst snd]. unfold bind, ret.
  destruct (spawn gp h b speed s numLeds t) as [gp' t']. reflexivity.
Qed.

Lemma frame_is_redrawn_witness :
  length [mkCRGB 9 9 9; mkCRGB 1 2 3; Black] = Z.to_nat 3 /\
  length (repeat Black 3) = Z.to_nat 3 /\
  activeCount emptyPool = 0%nat /\
  snd (fst (gentleGlowFrame grey emptyPool [mkCRGB 9 9 9; mkCRGB 1 2 3; Black]
              96 200 255 4 3 [255; 1; 0; 0; 0]))
  = repeat Black (Z.to_nat 3) /\
  activeCount (fst (fst (gentleGlowFrame grey emptyPool
                           [mkCRGB 9 9 9; mkCRGB 1 2 3; Black]
                           96 200 255 4 3 [255; 1; 0; 0; 0]))) = 1%nat.
Proof.
  split; [reflexivity|]. split; [reflexivity|]. split; [reflexivity|].
  split; [|vm_compute; reflexivity].
  exact (proj2 (frame_is_redrawn grey emptyPool
                  [mkCRGB 9 9 9; mkCRGB 1 2 3; Black] (repeat Black 3)
                  96 200 255 4 3 [255; 1; 0; 0; 0] eq_refl eq_refl) eq_refl).
Defined.

End Rendering.

(** * Successive ticks of a transition, in the revision with a target buffer *)

Module TransitionRuns.
Import FastLED Buffered.

Lemma blend_loop_any (prev tgt a b : list CRGB) pr n :
  length a = n -> length b = n -> length prev = n -> length tgt = n ->
  for_each_led n 0
    (fun i a => match prev !! i, tgt !! i with
                | Some p, Some c => <[i := blendColors p c pr]> a
                | _, _ => a
                end) a
  = for_each_led n 0
      (fun i a => match prev !! i, tgt !! i with
                  | Some p, Some c => <[i := blendColors p c pr]> a
                  | _, _ => a
                  end) b.
Proof.
  intros Ha Hb Hp Ht. apply list_eq. intros j.
  destruct (decide (j < n)%nat) as [Hj|Hj].
  - destruct (lookup_lt_is_Some_2 prev j) as [p Hpj]; [lia|].
    destruct (lookup_lt_is_Some_2 tgt j) as [c Hcj]; [lia|].
    rewrite !(Crossfade.buffered_blend_loop _ _ _ _ _ _ p c)
      by (assumption || lia).
    reflexivity.
  - rewrite !(proj2 (lookup_ge_None _ _)); [reflexivity| |];
      rewrite Crossfade.buffered_blend_loop_length; lia.
Qed.

Lemma copy_loop_any (src a b : list CRGB) n :
  length a = n -> length b = n -> length src = n ->
  for_each_led n 0
    (fun i a => match src !! i with Some c => <[i := c]> a | None => a end) a
  = for_each_led n 0
      (fun i a => match src !! i with Some c => <[i := c]> a | None => a end) b.
Proof.
  intros Ha Hb Hs.
  rewrite <- Ha at 1. rewrite Crossfade.for_each_led_copy by lia.
  rewrite <- Hb. rewrite Crossfade.for_each_led_copy by lia. reflexivity.
Qed.

(** X17. In the revision with a target buffer a tick has no memory of the
    ticks before it: after a tick that returned [true], a second tick at
    any time gives exactly what it would have given without the first,
    the LED array included, since every pixel is recomputed from the
    previous and the target buffer; and after a tick that returned
    [false], every further tick returns [false] and changes nothing. *)
Theorem ticks_have_no_memory :
  forall (tr : Transition) (t1 t2 : Z),
    length (_leds tr) = _numLeds tr ->
    length (_targetLeds tr) = _numLeds tr ->
    length (_previousLeds tr) = _numLeds tr ->
    let r1 := updateTransitions tr t1 in
    (fst r1 = true -> updateTransitions (snd r1) t2 = updateTransitions tr t2) /\
    (fst r1 = false -> updateTransitions (snd r1) t2 = (false, snd r1)).
Proof.
  intros tr t1 t2 Hl Ht Hp r1. unfold r1.
  destruct (updateTransitions tr t1) as [b tr1] eqn:E. cbn [fst snd].
  unfold updateTransitions in E.
  destruct (_isTransitioning tr) eqn:Hact; simpl negb in E; cbv iota zeta in E.
  - destruct (to_uint32 (t1 - _transitionStartTime tr) >=? _transitionDuration tr);
      injection E as <- <-.
    + split; [discriminate|]. intros _. reflexivity.
    + split; [|discriminate]. intros _.
      unfold updateTransitions. cbn [_isTransitioning _transitionStartTime
        _transitionDuration _leds _targetLeds _previousLeds _numLeds].
      rewrite Hact. simpl negb. cbv iota zeta.
      destruct (to_uint32 (t2 - _transitionStartTime tr) >=? _transitionDuration tr).
      * f_equal. f_equal. apply copy_loop_any;
          [rewrite Crossfade.buffered_blend_loop_length| |]; assumption.
      * f_equal. f_equal. apply blend_loop_any;
          [rewrite Crossfade.buffered_blend_loop_length| | |]; assumption.
  - injection E as <- <-. split; [discriminate|]. intros _.
    unfold updateTransitions. rewrite Hact. reflexivity.
Qed.

Lemma ticks_have_no_memory_witness :
  length (_leds startedTransition) = _numLeds startedTransition /\
  length (_targetLeds startedTransition) = _numLeds startedTransition /\
  length (_previousLeds startedTransition) = _numLeds startedTransition /\
  fst (updateTransitions startedTransition 250) = true /\
  updateTransitions (snd (updateTransitions startedTransition 250)) 500
  = updateTransitions startedTransition 500.
Proof.
  split; [reflexivity|]. split; [reflexivity|]. split; [reflexivity|].
  split; [reflexivity|].
  exact (proj1 (ticks_have_no_memory startedTransition 250 500
                  eq_refl eq_refl eq_refl) eq_refl).
Defined.

End TransitionRuns.

(** * [updateLEDPattern] of the latest revision *)

Module HeadPattern.
Import FastLED Head.

Lemma updateTransitions_flag tr t :
  Simplified.transitionActive (snd (Simplified.updateTransitions tr t))
  = fst (Simplified.updateTransitions tr t).
Proof.
  unfold Simplified.updateTransitions.
  destruct (Simplified.transitionActive tr) eqn:Ha; simpl; [|exact Ha].
  destruct (_ >=? _); simpl; auto.
Qed.

Lemma updateTransitions_idle tr t :
  Simplified.transitionActive tr = false ->
  Simplified.updateTransitions tr t = (false, tr).
Proof. intros Ha. unfold Simplified.updateTransitions. rewrite Ha. reflexivity. Qed.

(** A finished or idle tick leaves the LED array and the buffer alone. *)
Lemma updateTransitions_false tr t :
  fst (Simplified.updateTransitions tr t) = false ->
  Simplified.leds (snd (Simplified.updateTransitions tr t)) = Simplified.leds tr /\
  Simplified.prevLeds (snd (Simplified.updateTransitions tr t))
  = Simplified.prevLeds tr /\
  Simplified.numLeds (snd (Simplified.updateTransitions tr t))
  = Simplified.numLeds tr.
Proof.
  unfold Simplified.updateTransitions.
  destruct (Simplified.transitionActive tr); simpl; [|auto].
  destruct (_ >=? _); simpl; [auto|discriminate].
Qed.

(** The static flag after the bookkeeping is the value the tick returned. *)
Lemma static_flag (isIn old : bool) :
  (if isIn then true else if old then false else old) = isIn.
Proof. destruct isIn, old; reflexivity. Qed.

Ltac enter_call g c t :=
  unfold call, updateLEDPattern; cbv zeta;
  destruct (to_uint32 (now (c_clock c) - lastUpdate g) <? MIN_UPDATE_INTERVAL)
    eqn:Einterval;
  [|rewrite static_flag;
    pose proof (updateTransitions_flag (ledPatterns g) (tickTime (c_clock c)))
      as Hflag;
    pose proof (updateTransitions_false (ledPatterns g) (tickTime (c_clock c)))
      as Hfalse;
    pose proof (updateTransitions_idle (ledPatterns g) (tickTime (c_clock c)))
      as Hidle;
    destruct (Simplified.updateTransitions (ledPatterns g) (tickTime (c_clock c)))
      as [isIn lp1]; cbn [fst snd] in *;
    destruct (isIn || (to_uint32 (now (c_clock c) - lastTransitionStart g)
                       <? MIN_TRANSITION_REST)) eqn:Erest;
    [|apply orb_false_iff in Erest as [HisIn Erest]; rewrite HisIn in *;
      destruct (parametersChanged _ g) eqn:Echanged;
      [unfold bind;
       destruct (SimplifiedFrame.gentleGlowFrame _ _ _ _ _ _ _ _ t)
         as [[gp' leds'] t']; cbn [fst snd]|]]];
  unfold ret; cbn [fst snd].

Lemma call_synced hsv g c t :
  synced g -> synced (fst (fst (call hsv g c t))).
Proof.
  intros (Hs & Hu & Hc). enter_call g c t; unfold synced; simpl.
  - auto.
  - auto.
  - auto.
  - rewrite updateTransitions_idle by exact Hflag. simpl. auto.
Qed.

(** X18. In the latest [main.cpp], [updateLEDPattern] keeps its bookkeeping
    in step with the [LEDPatterns] object over any run of calls: its static
    [transitionActive] always equals the object's flag, and [lastUpdate],
    [lastTransitionStart] and [lastPatternChange] are always the same time
    stamp. *)
Theorem bookkeeping_in_step :
  forall (hsv : Z -> Z -> Z -> CRGB) (cs : list Call) (g : Globals) (t : list Z),
    synced g -> synced (fst (fst (run hsv g cs t))).
Proof.
  intros hsv. induction cs as [|c cs IH]; intros g t Hg; simpl; [exact Hg|].
  unfold bind. pose proof (call_synced hsv g c t Hg) as H1.
  destruct (call hsv g c t) as [[g1 e] t1]. cbn [fst snd] in *.
  specialize (IH g1 t1 H1).
  destruct (run hsv g1 cs t1) as [[g2 es] t2]. exact IH.
Qed.

Lemma initial_synced leds : synced (initial leds).
Proof. unfold synced, initial. simpl. auto. Defined.

Lemma bookkeeping_in_step_witness :
  synced (initial [Black; Black; Black]) /\
  snd (fst (run SimplifiedFrame.grey (initial [Black; Black; Black])
              [mkCall true false 255 0 (mkClock 1000 1001 1002);
               mkCall true false 255 0 (mkClock 1100 1101 1102)] []))
  = [Some (Main.mkParams 160 108 20 4); None] /\
  synced (fst (fst (run SimplifiedFrame.grey (initial [Black; Black; Black])
                      [mkCall true false 255 0 (mkClock 1000 1001 1002);
                       mkCall true false 255 0 (mkClock 1100 1101 1102)] []))).
Proof.
  split; [exact (initial_synced _)|]. split; [vm_compute; reflexivity|].
  exact (bookkeeping_in_step SimplifiedFrame.grey _ _ [] (initial_synced _)).
Defined.

Lemma calls_clock_tail c cs : steady_clock (c :: cs) -> steady_clock cs.
Proof.
  intros H i j ci cj Hij Hi Hj. apply (H (S i) (S j)); [lia|exact Hi|exact Hj].
Qed.

Lemma calls_clock_head c cs j cj :
  steady_clock (c :: cs) -> cs !! j = Some cj ->
  0 <= now (c_clock c) <= now (c_clock cj) /\ now (c_clock cj) < 4294967296.
Proof. intros H Hj. apply (H 0%nat (S j)); [lia|reflexivity|exact Hj]. Qed.

(** What a call does to the time stamp of the last transition. *)
Lemma call_stamp hsv g c t :
  (snd (fst (call hsv g c t)) = None ->
   lastTransitionStart (fst (fst (call hsv g c t))) = lastTransitionStart g) /\
  (forall p, snd (fst (call hsv g c t)) = Some p ->
     lastTransitionStart (fst (fst (call hsv g c t))) = now (c_clock c) /\
     to_uint32 (now (c_clock c) - lastTransitionStart g) >= MIN_TRANSITION_REST).
Proof.
  enter_call g c t; (split; [intros E|intros p E]); try discriminate;
    try reflexivity.
  split; [reflexivity|]. apply Z.ltb_ge in Erest. lia.
Qed.

(** An emission of a run comes at least [MIN_TRANSITION_REST] after the
    time stamp the run started with. *)
Lemma emission_after_rest hsv cs : forall g t j cj pj,
  steady_clock cs ->
  (forall c, elem_of c cs -> 0 <= lastTransitionStart g <= now (c_clock c)) ->
  cs !! j = Some cj -> snd (fst (run hsv g cs t)) !! j = Some (Some pj) ->
  now (c_clock cj) - lastTransitionStart g >= MIN_TRANSITION_REST.
Proof.
  induction cs as [|c cs IH]; intros g t j cj pj Hclk Hst Hj He; [discriminate|].
  simpl in He. unfold bind in He.
  destruct (call_stamp hsv g c t) as [Hnone Hsome].
  destruct (call hsv g c t) as [[g1 e] t1] eqn:Ecall. cbn [fst snd] in *.
  pose proof (IH g1 t1) as IH1.
  destruct (run hsv g1 cs t1) as [[g2 es] t2]. cbn [fst snd] in *.
  assert (Hc : 0 <= lastTransitionStart g <= now (c_clock c)) by (apply Hst; left).
  destruct j as [|j]; simpl in Hj, He.
  - injection Hj as <-. injection He as ->.
    destruct (Hsome pj eq_refl) as [_ Hlate].
    destruct (Hclk 0%nat 0%nat c c) as [_ Hlt]; [lia|reflexivity|reflexivity|].
    unfold to_uint32 in Hlate. rewrite Z.mod_small in Hlate by lia. exact Hlate.
  - assert (Hg1 : lastTransitionStart g <= lastTransitionStart g1 /\
                  forall c', elem_of c' cs ->
                    0 <= lastTransitionStart g1 <= now (c_clock c')).
    { destruct e as [p|].
      - destruct (Hsome p eq_refl) as [E _]. rewrite E. split; [lia|].
        intros c' Hc'. apply list_elem_of_lookup in Hc' as [k Hk].
        destruct (calls_clock_head c cs k c' Hclk Hk). lia.
      - rewrite (Hnone eq_refl). split; [lia|]. intros c' Hc'.
        apply Hst. right. exact Hc'. }
    destruct Hg1 as [Hle Hrest].
    pose proof (IH1 j cj pj (calls_clock_tail _ _ Hclk) Hrest Hj He). lia.
Qed.

(** X19. In the latest [main.cpp], while [millis()] neither goes back nor
    wraps, two calls of [updateLEDPattern] that both hand new parameters
    to the pattern, and so both start a transition, are at least
    [MIN_TRANSITION_REST] (350 ms) apart, which is more than the
    [TRANSITION_DURATION] of 300 ms. *)
Theorem transitions_rest :
  forall (hsv : Z -> Z -> Z -> CRGB) (cs : list Call) (g : Globals)
         (t : list Z) (i j : nat) (ci cj : Call) (p q : Main.Params),
    steady_clock cs -> (i < j)%nat ->
    cs !! i = Some ci -> cs !! j = Some cj ->
    snd (fst (run hsv g cs t)) !! i = Some (Some p) ->
    snd (fst (run hsv g cs t)) !! j = Some (Some q) ->
    now (c_clock cj) - now (c_clock ci) >= MIN_TRANSITION_REST /\
    MIN_TRANSITION_REST > TRANSITION_DURATION.
Proof.
  intros hsv cs g t i j ci cj p q Hclk Hij Hi Hj Hp Hq.
  split; [|unfold MIN_TRANSITION_REST, TRANSITION_DURATION; lia].
  revert g t i j Hclk Hij Hi Hj Hp Hq.
  induction cs as [|c cs IH]; intros g t i j Hclk Hij Hi Hj Hp Hq;
    [discriminate|].
  destruct j as [|j]; [lia|]. simpl in Hp, Hq. unfold bind in Hp, Hq.
  destruct (call_stamp hsv g c t) as [_ Hsome].
  destruct (call hsv g c t) as [[g1 e] t1] eqn:Ecall. cbn [fst snd] in *.
  pose proof (IH g1 t1) as IH1.
  pose proof (emission_after_rest hsv cs g1 t1 j cj q) as Hafter.
  destruct (run hsv g1 cs t1) as [[g2 es] t2]. cbn [fst snd] in *.
  simpl in Hj, Hq.
  destruct i as [|i]; simpl in Hi, Hp.
  - injection Hi as <-. injection Hp as ->.
    destruct (Hsome p eq_refl) as [Hstamp _]. rewrite <- Hstamp.
    apply Hafter; [exact (calls_clock_tail _ _ Hclk)| |exact Hj|exact Hq].
    intros c' Hc'. rewrite Hstamp.
    apply list_elem_of_lookup in Hc' as [k Hk].
    destruct (calls_clock_head c cs k c' Hclk Hk). lia.
  - apply (IH1 i j); [exact (calls_clock_tail _ _ Hclk)|lia|exact Hi
                      |exact Hj|exact Hp|exact Hq].
Qed.

Lemma three_calls_steady :
  steady_clock [mkCall true false 255 0 (mkClock 1000 1001 1002);
                mkCall true false 255 0 (mkClock 1200 1201 1202);
                mkCall true false 255 0 (mkClock 1400 1401 1402)].
Proof.
  intros i j ci cj Hij Hi Hj.
  destruct i as [|[|[|i]]]; try discriminate; injection Hi as <-;
    destruct j as [|[|[|j]]]; try discriminate; try lia; injection Hj as <-;
    simpl; lia.
Defined.

Lemma transitions_rest_witness :
  steady_clock [mkCall true false 255 0 (mkClock 1000 1001 1002);
                mkCall true false 255 0 (mkClock 1200 1201 1202);
                mkCall true false 255 0 (mkClock 1400 1401 1402)] /\
  snd (fst (run SimplifiedFrame.grey (initial [Black; Black; Black])
              [mkCall true false 255 0 (mkClock 1000 1001 1002);
               mkCall true false 255 0 (mkClock 1200 1201 1202);
               mkCall true false 255 0 (mkClock 1400 1401 1402)] []))
  = [Some (Main.mkParams 160 108 20 4); None;
     Some (Main.mkParams 140 148 20 5)] /\
  1400 - 1000 >= MIN_TRANSITION_REST.
Proof.
  split; [exact three_calls_steady|]. split; [vm_compute; reflexivity|].
  exact (proj1 (transitions_rest SimplifiedFrame.grey _
                  (initial [Black; Black; Black]) [] 0 2 _ _
                  (Main.mkParams 160 108 20 4) (Main.mkParams 140 148 20 5)
                  three_calls_steady ltac:(lia) eq_refl eq_refl eq_refl eq_refl)).
Defined.

(** X20. In the latest [main.cpp] the glow only moves when parameters are
    handed over: a call of [updateLEDPattern] that hands over nothing
    leaves the glow points and the parameter snapshot as they were and
    draws no random number; and when no transition is active in the
    object, it leaves the whole object, the LED array included, as it
    was, so the strip then shows a still frame. *)
Theorem quiet_call_freezes :
  forall (hsv : Z -> Z -> Z -> CRGB) (g : Globals) (c : Call) (t : list Z),
    snd (fst (call hsv g c t)) = None ->
    let g' := fst (fst (call hsv g c t)) in
    glowPoints g' = glowPoints g /\
    snd (call hsv g c t) = t /\
    (lastHue g' = lastHue g /\ lastBrightness g' = lastBrightness g /\
     lastSpeed g' = lastSpeed g /\ lastSpread g' = lastSpread g) /\
    (Simplified.transitionActive (ledPatterns g) = false ->
     ledPatterns g' = ledPatterns g).
Proof.
  intros hsv g c t. enter_call g c t; intros E; try discriminate;
    repeat split; try reflexivity; intros Hoff.
  - specialize (Hidle Hoff). simpl. congruence.
  - specialize (Hidle Hoff). simpl.
    assert (Hlp : lp1 = ledPatterns g) by congruence. rewrite Hlp.
    rewrite updateTransitions_idle by exact Hoff. reflexivity.
Qed.

Lemma quiet_call_freezes_witness :
  snd (fst (call SimplifiedFrame.grey (initial [Black; Black; Black])
              (mkCall false false 0 0 (mkClock 100 101 102)) [7; 8])) = None /\
  ledPatterns (fst (fst (call SimplifiedFrame.grey (initial [Black; Black; Black])
                           (mkCall false false 0 0 (mkClock 100 101 102)) [7; 8])))
  = ledPatterns (initial [Black; Black; Black]).
Proof.
  split; [reflexivity|].
  exact (proj2 (proj2 (proj2
           (quiet_call_freezes SimplifiedFrame.grey (initial [Black; Black; Black])
              (mkCall false false 0 0 (mkClock 100 101 102)) [7; 8] eq_refl)))
           eq_refl).
Defined.

(** X21. In the latest [main.cpp] a call of [updateLEDPattern] that hands
    over parameters starts a transition of [TRANSITION_DURATION] ms at the
    time [startTransition] reads, and that transition fades from exactly
    the frame the LED array held when the call began: no transition was
    running at that point or it ended in this call, either of which
    leaves the array alone, and the array is captured before [gentleGlow]
    redraws it. *)
Theorem emission_fades_from_shown_frame :
  forall (hsv : Z -> Z -> Z -> CRGB) (g : Globals) (c : Call) (t : list Z)
         (p : Main.Params),
    length (Simplified.leds (ledPatterns g)) = Simplified.numLeds (ledPatterns g) ->
    length (Simplified.prevLeds (ledPatterns g))
    = Simplified.numLeds (ledPatterns g) ->
    snd (fst (call hsv g c t)) = Some p ->
    let lp := ledPatterns (fst (fst (call hsv g c t))) in
    Simplified.prevLeds lp = Simplified.leds (ledPatterns g) /\
    Simplified.transitionActive lp = true /\
    Simplified.transitionStartTime lp = lastTime (c_clock c) /\
    Simplified.transitionDuration lp = TRANSITION_DURATION /\
    transitionActive (fst (fst (call hsv g c t))) = true /\
    fst (Simplified.updateTransitions (ledPatterns g) (tickTime (c_clock c)))
    = false.
Proof.
  intros hsv g c t p Hl Hp.
  pose proof (Crossfade.simplified_capture
                (snd (Simplified.updateTransitions (ledPatterns g)
                        (tickTime (c_clock c))))) as Hcap.
  enter_call g c t; intros E; try discriminate.
  destruct (Hfalse eq_refl) as (E1 & E2 & E3).
  destruct Hcap as [Hprev _]; [congruence|congruence|].
  rewrite Hprev, E1. simpl. auto 10.
Qed.

Lemma emission_fades_from_shown_frame_witness :
  snd (fst (call SimplifiedFrame.grey (initial [mkCRGB 1 2 3; Black])
              (mkCall true false 255 0 (mkClock 1000 1001 1002)) []))
  = Some (Main.mkParams 160 108 20 4) /\
  Simplified.prevLeds
    (ledPatterns (fst (fst (call SimplifiedFrame.grey
                              (initial [mkCRGB 1 2 3; Black])
                              (mkCall true false 255 0 (mkClock 1000 1001 1002))
                              []))))
  = [mkCRGB 1 2 3; Black].
Proof.
  split; [vm_compute; reflexivity|].
  exact (proj1 (emission_fades_from_shown_frame SimplifiedFrame.grey
                  (initial [mkCRGB 1 2 3; Black])
                  (mkCall true false 255 0 (mkClock 1000 1001 1002)) []
                  (Main.mkParams 160 108 20 4) eq_refl eq_refl eq_refl)).
Defined.

End HeadPattern.

(** * The spreading loop of the revision with a target buffer *)

Module BufferedSpread.
Import Buffered BufferedPool.

Lemma maxSpread_range spread :
  is_uint8 spread -> 2 <= maxSpread spread <= 171.
Proof.
  unfold is_uint8, maxSpread, Arduino.map. intros Hs.
  assert (2 <= Z.quot ((spread - 1) * (8 - 2)) (10 - 1) + 2 <= 171).
  { destruct (Z.eq_dec spread 0) as [->|Hne]; [vm_compute; split; discriminate|].
    rewrite Z.quot_div_nonneg by lia.
    assert (0 <= (spread - 1) * (8 - 2) / (10 - 1) <= 169); [|lia].
    split; [apply Z.div_pos; lia|].
    apply Z.lt_succ_r. apply Z.div_lt_upper_bound; lia. }
  rewrite to_uint8_id by (unfold is_uint8; lia). lia.
Qed.

Lemma falloff_range intensity m i :
  is_uint8 intensity -> 1 <= i <= m ->
  falloff intensity m i
  = intensity * (m - i) * (m - i) / (m * m) /\
  0 <= falloff intensity m i <= intensity.
Proof.
  unfold is_uint8, falloff. intros Hi Hm.
  assert (Hmm : 0 < m * m) by nia.
  assert (Hsq : 0 <= (m - i) * (m - i) <= m * m) by nia.
  assert (Hnum : 0 <= intensity * (m - i) * (m - i) <= m * m * intensity).
  { rewrite <- Z.mul_assoc. split; [apply Z.mul_nonneg_nonneg; lia|].
    rewrite (Z.mul_comm (m * m)). apply Z.mul_le_mono_nonneg_l; lia. }
  rewrite Z.quot_div_nonneg by lia.
  assert (0 <= intensity * (m - i) * (m - i) / (m * m) <= intensity).
  { split; [apply Z.div_pos; lia|].
    apply Z.div_le_upper_bound; lia. }
  rewrite to_uint8_id by (unfold is_uint8; lia). lia.
Qed.

(** X22. The spreading loop of [updateGlowPoint] in the revision with a
    target buffer: for a byte [spread] its bound [maxSpread] lies in
    2..171, so the division by [maxSpread * maxSpread] is defined and the
    byte counter cannot wrap; at distance [i] of 1..[maxSpread] the
    brightness is a byte, at most the point's intensity, never larger
    further out, and 0 at [maxSpread]; and for a position on a strip of at
    most 32767 LEDs and a distance of at most [numLeds], the two indices
    are [(position - i) mod numLeds] and [(position + i) mod numLeds], so
    inside the array.  On a strip shorter than the distance the left
    index is negative: 3 LEDs, position 0, distance 4 give -1 while the
    brightness 28 is not skipped. *)
Theorem spreading_loop_in_bounds :
  (forall spread, is_uint8 spread -> 2 <= maxSpread spread <= 171) /\
  (forall intensity m i j,
     is_uint8 intensity -> 1 <= i <= j -> j <= m ->
     0 <= falloff intensity m j <= falloff intensity m i /\
     falloff intensity m i <= intensity /\ falloff intensity m m = 0) /\
  (forall position i numLeds,
     0 <= position < numLeds -> numLeds <= 32767 -> 0 <= i <= numLeds ->
     leftPos position i numLeds = (position - i) mod numLeds /\
     rightPos position i numLeds = (position + i) mod numLeds /\
     0 <= leftPos position i numLeds < numLeds /\
     0 <= rightPos position i numLeds < numLeds) /\
  (leftPos 0 4 3 = -1 /\ falloff 255 (maxSpread 8) 4 = 28).
Proof.
  split; [exact maxSpread_range|]. split; [|split; [|split; reflexivity]].
  - intros intensity m i j Hb Hij Hjm.
    destruct (falloff_range intensity m i Hb ltac:(lia)) as [Ei Hi].
    destruct (falloff_range intensity m j Hb ltac:(lia)) as [Ej Hj].
    destruct (falloff_range intensity m m Hb ltac:(lia)) as [Em Hm].
    split; [|split; [lia|]].
    + split; [lia|]. rewrite Ei, Ej. unfold is_uint8 in Hb.
      assert (Hsq : (m - j) * (m - j) <= (m - i) * (m - i))
        by (apply Z.mul_le_mono_nonneg; lia).
      apply Z.div_le_mono; [nia|]. rewrite <- !Z.mul_assoc.
      apply Z.mul_le_mono_nonneg_l; lia.
    + rewrite Em, Z.sub_diag, Z.mul_0_r. apply Z.div_0_l. nia.
  - intros position i numLeds Hp Hn Hi.
    assert (El : leftPos position i numLeds = (position - i) mod numLeds).
    { unfold leftPos. rewrite Z.rem_mod_nonneg by lia.
      pose proof (Z.mod_pos_bound (position - i + numLeds) numLeds ltac:(lia)).
      rewrite Rendering.to_int16_id by lia.
      replace (position - i + numLeds) with (position - i + 1 * numLeds) by ring.
      apply Z.mod_add. lia. }
    assert (Er : rightPos position i numLeds = (position + i) mod numLeds).
    { unfold rightPos. rewrite Z.rem_mod_nonneg by lia.
      pose proof (Z.mod_pos_bound (position + i) numLeds ltac:(lia)).
      apply Rendering.to_int16_id. lia. }
    rewrite El, Er. repeat split; try apply Z.mod_pos_bound; lia.
Qed.

Lemma spreading_loop_in_bounds_witness :
  is_uint8 8 /\ 2 <= maxSpread 8 <= 171 /\
  0 <= 2 < 150 /\ leftPos 2 5 150 = 147 /\ 0 <= leftPos 2 5 150 < 150.
Proof.
  assert (Hb : is_uint8 8) by (unfold is_uint8; lia).
  assert (Hp : 0 <= 2 < 150) by lia.
  split; [exact Hb|].
  split; [exact (proj1 spreading_loop_in_bounds 8 Hb)|].
  split; [exact Hp|]. split; [vm_compute; reflexivity|].
  exact (proj1 (proj2 (proj2
           (proj1 (proj2 (proj2 spreading_loop_in_bounds)) 2 5 150 Hp
              ltac:(lia) ltac:(lia))))).
Defined.

End BufferedSpread.
